(** * Polynomial continued fractions: representation, recurrence, transforms

    A shallow embedding of the PCF engine (unifier/pcf.py,
    unifier/utils/recurrence_transforms_utils.py, pcf_dynamical_parameters.py)
    and the properties checked against it. *)

From Stdlib Require Import ZArith List Lia Bool QArith.
From Stdlib Require Import Reals Lra.
From Stdlib Require String.
Import ListNotations.

(** Python exceptions met in the engine, and results of fallible calls. *)
Inductive exn : Type :=
| ValueError
| TypeError
| IndexError
| KeyError
| AttributeError
| SingularCoboundaryMatrixError.

Inductive result (A : Type) : Type :=
| Ok (v : A)
| Raise (e : exn).
Arguments Ok {A} v.
Arguments Raise {A} e.

(** ** Integer polynomials in the index variable [n] *)
Module Poly.
Local Open Scope Z_scope.

(** Coefficients, lowest degree first. *)
Definition poly := list Z.

(** [p.subs({n: x})] for an integer [x]. *)
Fixpoint peval (p : poly) (x : Z) : Z :=
  match p with
  | [] => 0
  | c :: q => c + x * peval q x
  end.

Fixpoint padd (p q : poly) : poly :=
  match p, q with
  | [], _ => q
  | _, [] => p
  | c :: p', d :: q' => (c + d) :: padd p' q'
  end.

Definition pscale (k : Z) (p : poly) : poly := map (Z.mul k) p.

(** [(n + s) * p]. *)
Definition pmul_lin (s : Z) (p : poly) : poly := padd (pscale s p) (0 :: p).

(** [p.subs({n: n + s})]. *)
Fixpoint pshift (s : Z) (p : poly) : poly :=
  match p with
  | [] => []
  | c :: q => padd [c] (pmul_lin s (pshift s q))
  end.

End Poly.

(** ** Recurrence evaluator: step matrices (PCF.step) *)
Module Recurrence.
Import Poly.
Local Open Scope Z_scope.

(** A 2x2 integer matrix [[m00, m01], [m10, m11]]. *)
Record mat2 : Type := Mat { m00 : Z; m01 : Z; m10 : Z; m11 : Z }.

Definition mmul (x y : mat2) : mat2 :=
  Mat (m00 x * m00 y + m01 x * m10 y) (m00 x * m01 y + m01 x * m11 y)
      (m10 x * m00 y + m11 x * m10 y) (m10 x * m01 y + m11 x * m11 y).

(** The part of a PCF used by the recurrence: the denominator-free
    [a_compute], [b_compute], and [inflated_by] as a quotient of two
    polynomials. *)
Record PCF : Type := {
  a_compute : poly;
  b_compute : poly;
  inflated_by_num : poly;
  inflated_by_den : poly
}.

(** A PCF with polynomial [a], [b]: nothing to clear, [inflated_by = 1]. *)
Definition polyPCF (a b : poly) : PCF :=
  {| a_compute := a; b_compute := b;
     inflated_by_num := [1]; inflated_by_den := [1] |}.

(** [PCF.subs({n: n + s})] on a PCF with polynomial [a], [b]; the
    constructor is called without [inflated_by], which starts again at 1. *)
Definition subs_shift (p : PCF) (s : Z) : PCF :=
  polyPCF (pshift s (a_compute p)) (pshift s (b_compute p)).

(** One recurrence matrix [[0, b(k)], [1, a(k)]]. *)
Definition CM_at (p : PCF) (k : Z) : mat2 :=
  Mat 0 (peval (b_compute p) k) 1 (peval (a_compute p) k).

(** The indices [lo, lo+1, ..., lo+len-1]. *)
Fixpoint zrange (lo : Z) (len : nat) : list Z :=
  match len with
  | O => []
  | S k => lo :: zrange (lo + 1) k
  end.

(** Modelled from the spec: the evaluator object behind [PCF.lirec]
    (unifier/utils/LIReC_utils/pcf.py, its [eval]) is missing; after the
    spec, [eval(depth)] multiplies the stored matrix on the right by the
    recurrence matrices [[0, b(k)], [1, a(k)]] for k = 1..depth. *)
Definition lirec_eval (p : PCF) (mat : mat2) (depth : Z) : mat2 :=
  fold_left (fun m k => mmul m (CM_at p k)) (zrange 1 (Z.to_nat depth)) mat.

(** PCF.step: the default initial conditions are [1, a_compute(0), 0, 1];
    after the spec a depth below 1 is an invalid argument. *)
Definition step (p : PCF) (depth : Z) (initial_conditions : option mat2)
  : result mat2 :=
  let init := match initial_conditions with
              | None => Mat 1 (peval (a_compute p) 0) 0 1
              | Some m => m
              end in
  if depth <? 1 then Raise ValueError
  else Ok (lirec_eval p init depth).

(** The PCF of the validation test: a(n) = 2n + 1, b(n) = n^2. *)
Definition pcf_test : PCF := polyPCF [1; 2] [0; 0; 1].

Definition limit10 : mat2 := Mat 3958113600 100370793600 3108695040 78831037440.

End Recurrence.

(** ** Precision of a step matrix and the limit (precision, PCF.limit) *)
Module Numerics.
Import Poly Recurrence.

(** mpmath's global context, in which [precision] computes: numbers of 53
    significant bits (the default), every operation rounded to the
    nearest such number, ties to even. *)
Definition mp_prec : Z := 53.

(** The binary exponent e of a nonzero real: 2^e <= |x| < 2^(e+1). *)
Definition exponent (x : R) : Z := Zfloor (ln (Rabs x) / ln 2).

(** The nearest integer, ties to even. *)
Definition round_half_even (x : R) : Z :=
  let f := Zfloor x in
  if Rlt_dec (x - IZR f) (/ 2) then f
  else if Rlt_dec (/ 2) (x - IZR f) then (f + 1)%Z
  else if Z.even f then f else (f + 1)%Z.

(** The number of the context nearest to [x]: a mantissa of [mp_prec]
    bits, exponents unbounded as in mpmath. *)
Definition mp_round (x : R) : R :=
  if Req_dec_T x 0 then 0%R
  else
    let e := exponent x in
    (IZR (round_half_even (x * powerRZ 2 (mp_prec - 1 - e)))
     * powerRZ 2 (e - (mp_prec - 1)))%R.

(** A complex number as mpmath returns it. *)
Record complex : Type := Complex { mm_re : R; mm_im : R }.

(** [u - v] in the context: both parts rounded. *)
Definition csub (u v : complex) : complex :=
  Complex (mp_round (mm_re u - mm_re v)) (mp_round (mm_im u - mm_im v)).

(** [mm.log(x, base)] on a nonzero integer [x]: ln(x) / ln(base), where ln
    of a negative number is ln|x| + i*pi, as a number of the context.
    mpmath computes the two logarithms with guard bits and rounds their
    quotient; the result is taken as the correctly rounded quotient. *)
Definition mm_log (x base : Z) : complex :=
  Complex (mp_round (ln (IZR (Z.abs x)) / ln (IZR base)))
          (mp_round ((if (x <? 0)%Z then PI else 0) / ln (IZR base))).

(** The logarithm to a base, as the spec writes it. *)
Definition log_base (base : Z) (y : R) : R := ln y / ln (IZR base).

(** precision(matrix, base).  The negation and [mm.floor] of a number of
    the context are exact. *)
Definition precision (matrix : mat2) (base : Z) : Z :=
  let p1 := m00 matrix in
  let p2 := m01 matrix in
  let q1 := m10 matrix in
  let q2 := m11 matrix in
  let numerator := (p2 * q1 - q2 * p1)%Z in
  let denominator := (q1 * q2)%Z in
  if (denominator =? 0)%Z then 0%Z
  else if (numerator =? 0)%Z then 100%Z
  else
    let digits := (- mm_re (csub (mm_log numerator base)
                                 (mm_log denominator base)))%R in
    Zfloor digits.

(** [as_numer_denom] of the rational number n/d (d nonzero). *)
Definition as_numer_denom (n d : Z) : Z * Z :=
  let g := Z.gcd n d in
  ((Z.sgn d * n / g)%Z, (Z.abs d / g)%Z).

(** [(inflated_by * (n + 1)).subs({n: 0}).as_numer_denom()]. *)
Definition inflation_factor (p : PCF) : Z * Z :=
  as_numer_denom (peval (inflated_by_num p) 0 * (0 + 1))
                 (peval (inflated_by_den p) 0).

Section Limit.
(** The arbitrary-precision context [mp(precision)]: numbers of the
    context, conversion of an integer, product and quotient; the first
    argument is the [dps] the context was cloned with. *)
Variable mpf : Type.
Variable mp_mpf : Z -> Z -> mpf.
Variable mp_mul : Z -> mpf -> mpf -> mpf.
Variable mp_div : Z -> mpf -> mpf -> mpf.

(** What [limit] returns first: an mpf, or [sp.Rational(num, den)]. *)
Inductive limit_value : Type :=
| MpfValue (v : mpf)
| RationalValue (num den : Z).

(** PCF.limit(depth, initial_conditions, prec, return_sympy_rational). *)
Definition limit (p : PCF) (depth : Z) (initial_conditions : option mat2)
           (prec : option Z) (return_sympy_rational : bool)
  : result (limit_value * Z) :=
  match step p depth initial_conditions with
  | Raise e => Raise e
  | Ok step_mat =>
      let prec := match prec with
                  | None => precision step_mat 10
                  | Some d => d
                  end in
      let numerator := m01 step_mat in
      let denominator := m11 step_mat in
      let '(inflation_factor_num, inflation_factor_den) :=
        inflation_factor p in
      if negb return_sympy_rational then
        let numerator :=
          mp_mul prec (mp_mpf prec numerator)
                      (mp_mpf prec inflation_factor_den) in
        let denominator :=
          mp_mul prec (mp_mpf prec denominator)
                      (mp_mpf prec inflation_factor_num) in
        Ok (MpfValue (mp_div prec numerator denominator), prec)
      else
        Ok (RationalValue (numerator * inflation_factor_den)
                          (denominator * inflation_factor_num), prec)
  end.
End Limit.

Arguments MpfValue {mpf} v.
Arguments RationalValue {mpf} num den.

(** The PCF a(n) = 1, b(n) = 10^6. *)
Definition pcf_million : PCF := polyPCF [1%Z] [1000000%Z].

End Numerics.

(** ** Limit and dynamics analyzer (PCFDynamics, PCF.compute_dynamics) *)
Module Dynamics.
Import Recurrence.
Local Open Scope Z_scope.

(** CONVERGENT_INDEX_DEFINIION_SHIFT. *)
Definition CIDS : Z := 2.

Definition check_positive (depth : Z) : result unit :=
  if depth <? 1 then Raise ValueError else Ok tt.

(** A float or mpf as the loops look at it. *)
Inductive xfloat : Type :=
| PosInf
| NegInf
| NaN
| Finite (v : Q).

(** What a delta routine hands back: a number, or None when undefined. *)
Definition delta_value : Type := option xfloat.

(** [result == mm.mpf('+inf')]. *)
Definition is_pos_inf (r : delta_value) : bool :=
  match r with
  | Some PosInf => true
  | _ => false
  end.

Section Delta.
(** [self.pcf.subs({n: n + shift}).delta(depth, limit=limit)] of the
    external PCF class, as a function of the shift and the depth (the
    limit is handed on unchanged). *)
Variable pcf_delta : Z -> Z -> result delta_value.

(** The while loop of PCFDynamics.delta on the state (result, shift);
    [None] when the fuel runs out first. *)
Fixpoint delta_loop (fuel : nat) (depth shift_step max_shift : Z)
         (res : delta_value) (shift : Z)
  : option (result (delta_value * Z)) :=
  match fuel with
  | O => None
  | S fuel' =>
      if is_pos_inf res then
        if shift >? max_shift then Some (Ok (res, shift))
        else
          match pcf_delta shift (depth + CIDS) with
          | Raise e => Some (Raise e)
          | Ok r =>
              delta_loop fuel' depth shift_step max_shift r
                         (shift + shift_step)
          end
      else Some (Ok (res, shift))
  end.

(** PCFDynamics.delta(depth, limit, shift_step, max_shift). *)
Definition delta (fuel : nat) (depth shift_step max_shift : Z)
  : option (result delta_value) :=
  match check_positive depth with
  | Raise e => Some (Raise e)
  | Ok _ =>
      match delta_loop fuel depth shift_step max_shift (Some PosInf) 0 with
      | None => None
      | Some (Raise e) => Some (Raise e)
      | Some (Ok (res, _)) => Some (Ok res)
      end
  end.

(** The retry as the spec words it: the same PCF, at a depth increased
    by the accumulated shift. *)
Fixpoint delta_loop_spec (fuel : nat) (depth shift_step max_shift : Z)
         (res : delta_value) (shift : Z)
  : option (result (delta_value * Z)) :=
  match fuel with
  | O => None
  | S fuel' =>
      if is_pos_inf res then
        if shift >? max_shift then Some (Ok (res, shift))
        else
          match pcf_delta 0 (depth + shift + CIDS) with
          | Raise e => Some (Raise e)
          | Ok r =>
              delta_loop_spec fuel' depth shift_step max_shift r
                              (shift + shift_step)
          end
      else Some (Ok (res, shift))
  end.

Definition delta_spec (fuel : nat) (depth shift_step max_shift : Z)
  : option (result delta_value) :=
  match check_positive depth with
  | Raise e => Some (Raise e)
  | Ok _ =>
      match delta_loop_spec fuel depth shift_step max_shift
                            (Some PosInf) 0 with
      | None => None
      | Some (Raise e) => Some (Raise e)
      | Some (Ok (res, _)) => Some (Ok res)
      end
  end.
End Delta.

Section ComputeDynamics.
(** [round(float(self.delta(depth)), 5)] and
    [round(float(self.convergence_rate(depth)), 5)]: a float, or an
    exception (also raised by [float(None)]). *)
Variable delta_at : Z -> result xfloat.
Variable convergence_rate_at : Z -> result xfloat.

Definition xfloat_is_pos_inf (x : xfloat) : bool :=
  match x with
  | PosInf => true
  | _ => false
  end.

(** State of a retry loop of compute_dynamics. *)
Record retry_state : Type := {
  value : xfloat;
  success : bool;
  depth_now : Z;
  iters : Z
}.

(** First loop:
    [while (delta == inf or not success) and i < max_iters]. *)
Fixpoint delta_retry (fuel : nat) (max_iters depth_shift : Z)
         (s : retry_state) : option retry_state :=
  match fuel with
  | O => None
  | S fuel' =>
      if (xfloat_is_pos_inf (value s) || negb (success s))
         && (iters s <? max_iters)
      then
        let '(v, ok) :=
          match delta_at (depth_now s) with
          | Ok d => (d, if xfloat_is_pos_inf d then success s else true)
          | Raise _ => (value s, false)
          end in
        delta_retry fuel' max_iters depth_shift
          {| value := v; success := ok;
             depth_now := depth_now s + depth_shift;
             iters := iters s + 1 |}
      else Some s
  end.

(** Second loop: [while not success and i < max_iters]. *)
Fixpoint convrate_retry (fuel : nat) (max_iters depth_shift : Z)
         (s : retry_state) : option retry_state :=
  match fuel with
  | O => None
  | S fuel' =>
      if negb (success s) && (iters s <? max_iters)
      then
        let '(v, ok) :=
          match convergence_rate_at (depth_now s) with
          | Ok c => (c, true)
          | Raise _ => (value s, success s)
          end in
        convrate_retry fuel' max_iters depth_shift
          {| value := v; success := ok;
             depth_now := depth_now s + depth_shift;
             iters := iters s + 1 |}
      else Some s
  end.

(** PCF.compute_dynamics(depth, max_iters, depth_shift): the pair
    (delta, convrate), with the final states of the two loops. *)
Definition compute_dynamics_states (fuel : nat)
           (depth max_iters depth_shift : Z)
  : option (retry_state * retry_state) :=
  match delta_retry fuel max_iters depth_shift
          {| value := PosInf; success := false;
             depth_now := depth; iters := 0 |} with
  | None => None
  | Some s1 =>
      match convrate_retry fuel max_iters depth_shift
              {| value := Finite 0; success := false;
                 depth_now := depth; iters := 0 |} with
      | None => None
      | Some s2 => Some (s1, s2)
      end
  end.

Definition compute_dynamics (fuel : nat) (depth max_iters depth_shift : Z)
  : option (xfloat * xfloat) :=
  match compute_dynamics_states fuel depth max_iters depth_shift with
  | None => None
  | Some (s1, s2) => Some (value s1, value s2)
  end.
End ComputeDynamics.

(** [sorted(list(set(depths)))]. *)
Fixpoint insert_uniq (x : Z) (l : list Z) : list Z :=
  match l with
  | [] => [x]
  | y :: l' =>
      if x <? y then x :: l
      else if x =? y then l
      else y :: insert_uniq x l'
  end.

Definition sorted_set (l : list Z) : list Z := fold_right insert_uniq [] l.

(** [list(range(lo, hi))]. *)
Definition py_range (lo hi : Z) : list Z := zrange lo (Z.to_nat (hi - lo)).

(** [{depth: i for i, depth in enumerate(list(range(1, last + 1)))}]. *)
Definition depth_to_ind (last : Z) : list (Z * nat) :=
  let keys := py_range 1 (last + 1) in
  combine keys (seq 0 (length keys)).

(** [d[key]] on a dict kept as an association list. *)
Fixpoint dict_get (d : list (Z * nat)) (key : Z) : result nat :=
  match d with
  | [] => Raise KeyError
  | (k, i) :: d' => if k =? key then Ok i else dict_get d' key
  end.

(** [[f(x) for x in l]] where [f] may raise. *)
Fixpoint map_result {A B : Type} (f : A -> result B) (l : list A)
  : result (list B) :=
  match l with
  | [] => Ok []
  | x :: l' =>
      match f x with
      | Raise e => Raise e
      | Ok y =>
          match map_result f l' with
          | Raise e => Raise e
          | Ok ys => Ok (y :: ys)
          end
      end
  end.

Section Convergents.
(** The external PCF class: [self.pcf.limit(iterations)] returns one
    Limit object per requested iteration, in order. *)
Variable Limit : Type.
Variable pcf_limit_at : Z -> Limit.
(** mpmath numbers with the operations the two methods use. *)
Variable num : Type.
Variable as_float : Limit -> num.
Variable abs_diff : num -> num -> num.
Variable log10 : num -> num.
Variable log10_int : Z -> num.
Variable as_rational : Limit -> Z * Z.

Definition pcf_limit (iterations : list Z) : list Limit :=
  map pcf_limit_at iterations.

(** PCFDynamics.errors(depths, limit, log). *)
Definition errors (depths : list Z) (limit : option num) (log : bool)
  : result (list num) :=
  let depths := sorted_set depths in
  match depths with
  | [] => Raise IndexError
  | d0 :: _ =>
      match check_positive d0 with
      | Raise e => Raise e
      | Ok _ =>
          let iterations := map (fun depth => depth + CIDS) depths in
          let '(limits, limit) :=
            match limit with
            | None =>
                let iterations :=
                  iterations ++ [2 * last depths 0 + CIDS] in
                let limits := pcf_limit iterations in
                (limits, as_float (last limits (pcf_limit_at 0)))
            | Some l => (pcf_limit iterations, l)
            end in
          let errors :=
            map (fun i => abs_diff limit
                            (as_float (nth i limits (pcf_limit_at 0))))
                (seq 0 (length depths)) in
          Ok (if log then map log10 errors else errors)
      end
  end.

(** PCFDynamics.q_red(limit). *)
Definition q_red (limit : Limit) : Z :=
  let '(p, q) := as_rational limit in
  q / Z.gcd p q.

(** PCFDynamics.q_reds(depths, log): integers, or their logarithms. *)
Definition q_reds (depths : list Z) (log : bool)
  : result (list Z + list num) :=
  let depths := sorted_set depths in
  match depths with
  | [] => Raise IndexError
  | _ :: _ =>
      let last_depth := last depths 0 in
      let depth_to_ind := depth_to_ind last_depth in
      match check_positive last_depth with
      | Raise e => Raise e
      | Ok _ =>
          let limits := pcf_limit (py_range CIDS (last_depth + CIDS)) in
          match map_result
                  (fun depth =>
                     match dict_get depth_to_ind depth with
                     | Raise e => Raise e
                     | Ok i => Ok (q_red (nth i limits (pcf_limit_at 0)))
                     end) depths with
          | Raise e => Raise e
          | Ok qs => Ok (if log then inr (map log10_int qs) else inl qs)
          end
      end
  end.
End Convergents.

(** Delta routines used as test inputs. *)

(** A delta routine that is finite only when asked at depth 8. *)
Definition delta_only_at_depth_8 (shift depth : Z) : result delta_value :=
  if depth =? 8 then Ok (Some (Finite 1%Q)) else Ok (Some PosInf).

(** A routine that is +infinity on the unshifted PCF and 3/2 afterwards. *)
Definition delta_after_shift (shift depth : Z) : result delta_value :=
  if shift =? 0 then Ok (Some PosInf) else Ok (Some (Finite (3 # 2))).

(** A delta routine that is +infinity everywhere. *)
Definition delta_always_inf (shift depth : Z) : result delta_value :=
  Ok (Some PosInf).

(** Inner computations that fail on every call. *)
Definition delta_at_raises (depth : Z) : result xfloat := Raise TypeError.

Definition convergence_rate_at_raises (depth : Z) : result xfloat :=
  Raise ValueError.

End Dynamics.

(** ** Shifting a PCF to a viable one (get_zeros, get_shift, shift_to_viable) *)
Module Viability.
Import Poly Recurrence.
Local Open Scope Z_scope.

(** A PCF through the numerators and denominators of its canonical
    (cancelled) [a] and [b], as [as_numer_denom] returns them. *)
Record PCF : Type := {
  a_num : poly;
  a_den : poly;
  b_num : poly;
  b_den : poly
}.

(** [PCF.subs({n: n + s})]: a shift leaves cancelled fractions cancelled,
    so numerators and denominators are shifted one by one. *)
Definition subs_shift (p : PCF) (s : Z) : PCF :=
  {| a_num := pshift s (a_num p); a_den := pshift s (a_den p);
     b_num := pshift s (b_num p); b_den := pshift s (b_den p) |}.

Definition is_zero_poly (p : poly) : bool := forallb (Z.eqb 0) p.

(** The integers that can be roots of a polynomial with constant term
    [c <> 0]: those between -|c| and |c|. *)
Definition candidates (c : Z) : list Z :=
  zrange (- Z.abs c) (Z.to_nat (2 * Z.abs c + 1)).

Fixpoint int_roots_nz (p : poly) : list Z :=
  match p with
  | [] => []
  | c :: q =>
      if c =? 0 then 0 :: int_roots_nz q
      else filter (fun r => peval p r =? 0) (candidates c)
  end.

(** [[z for z in sp.solve(p, n) if isinstance(z, sp.Integer)]]: the
    integer roots of [p], none for the zero polynomial (the order in which
    sympy lists them is not modelled; only their maximum is used). *)
Definition int_roots (p : poly) : list Z :=
  if is_zero_poly p then [] else nodup Z.eq_dec (int_roots_nz p).

(** The dict returned by get_zeros. *)
Record zeros : Type := {
  zeros_b_num : list Z;
  zeros_b_den : list Z;
  zeros_a_den : list Z
}.

Definition get_zeros (pcf : PCF) : zeros :=
  {| zeros_b_num := int_roots (b_num pcf);
     zeros_b_den := int_roots (b_den pcf);
     zeros_a_den := int_roots (a_den pcf) |}.

(** Python's [max] on a nonempty list. *)
Definition py_max (x : Z) (l : list Z) : Z := fold_left Z.max l x.

Definition get_shift (pcf : PCF) : Z :=
  let zeros := get_zeros pcf in
  let shifta_den := match zeros_a_den zeros with
                    | x :: l => py_max x l + 1
                    | [] => 0
                    end in
  let shiftb_den := match zeros_b_den zeros with
                    | x :: l => py_max x l
                    | [] => 0
                    end in
  let shiftb_num := match zeros_b_num zeros with
                    | x :: l => py_max x l
                    | [] => 0
                    end in
  Z.max (Z.max shifta_den shiftb_den) shiftb_num.

Definition shift_to_viable (pcf : PCF) : PCF * Z :=
  let shift := get_shift pcf in
  (subs_shift pcf shift, shift).

(** Viable as the spec words it: no integer root of a's denominator, b's
    denominator or b's numerator at any non-negative index. *)
Definition viable_spec (p : PCF) : Prop :=
  forall r, 0 <= r ->
    peval (a_den p) r <> 0 /\ peval (b_den p) r <> 0 /\ peval (b_num p) r <> 0.

(** Viable as get_shift reads it: a is used from index 0 on, b from
    index 1 on. *)
Definition viable (p : PCF) : Prop :=
  (forall r, 0 <= r -> peval (a_den p) r <> 0) /\
  (forall r, 1 <= r -> peval (b_den p) r <> 0 /\ peval (b_num p) r <> 0).

(** a = 1, b = n - 1. *)
Definition pcf_b_root_at_1 : PCF :=
  {| a_num := [1]; a_den := [1]; b_num := [-1; 1]; b_den := [1] |}.

(** a = 1/(n - 3), b = (n - 1)/(n - 2). *)
Definition pcf_three_roots : PCF :=
  {| a_num := [1]; a_den := [-3; 1]; b_num := [-1; 1]; b_den := [-2; 1] |}.

(** a = 1/(n + 5), b = (n + 2)/(n + 3). *)
Definition pcf_negative_roots : PCF :=
  {| a_num := [1]; a_den := [5; 1]; b_num := [2; 1]; b_den := [3; 1] |}.

End Viability.

(** ** Folding and the transport of a limit (fold_matrix, as_pcf_cob,
    get_folded_pcf_limit) *)
Module FoldTransport.
Import Poly.
Local Open Scope Z_scope.

Fixpoint pmul (p q : poly) : poly :=
  match p with
  | [] => []
  | c :: p' => padd (pscale c q) (0 :: pmul p' q)
  end.

(** [p.subs({n: k*n + s})]. *)
Fixpoint psubs_lin (k s : Z) (p : poly) : poly :=
  match p with
  | [] => []
  | c :: q => padd [c] (pmul [s; k] (psubs_lin k s q))
  end.

(** A 2x2 matrix of polynomials in n, cells in row-major order. *)
Record pmat : Type := PMat { c00 : poly; c01 : poly; c10 : poly; c11 : poly }.

Definition pmat_mul (x y : pmat) : pmat :=
  PMat (padd (pmul (c00 x) (c00 y)) (pmul (c01 x) (c10 y)))
       (padd (pmul (c00 x) (c01 y)) (pmul (c01 x) (c11 y)))
       (padd (pmul (c10 x) (c00 y)) (pmul (c11 x) (c10 y)))
       (padd (pmul (c10 x) (c01 y)) (pmul (c11 x) (c11 y))).

Definition pmat_subs_lin (k s : Z) (m : pmat) : pmat :=
  PMat (psubs_lin k s (c00 m)) (psubs_lin k s (c01 m))
       (psubs_lin k s (c10 m)) (psubs_lin k s (c11 m)).

(** A 2x2 matrix of rationals. *)
Record qmat : Type := QMat { q00 : Q; q01 : Q; q10 : Q; q11 : Q }.

Definition qmat_mul (x y : qmat) : qmat :=
  QMat (q00 x * q00 y + q01 x * q10 y) (q00 x * q01 y + q01 x * q11 y)
       (q10 x * q00 y + q11 x * q10 y) (q10 x * q01 y + q11 x * q11 y).

Definition qmat_det (x : qmat) : Q := q00 x * q11 x - q01 x * q10 x.

(** [Matrix.inv()] of a matrix with nonzero determinant. *)
Definition qmat_inv (x : qmat) : qmat :=
  let d := qmat_det x in
  QMat (q11 x / d) (- q01 x / d) (- q10 x / d) (q00 x / d).

(** [m.subs({n: x})]. *)
Definition pmat_at (m : pmat) (x : Z) : qmat :=
  QMat (inject_Z (peval (c00 m) x)) (inject_Z (peval (c01 m) x))
       (inject_Z (peval (c10 m) x)) (inject_Z (peval (c11 m) x)).

(** A polynomial PCF. *)
Record PCF : Type := { a : poly; b : poly }.

(** The recurrence matrix [[0, b], [1, a]]: what [CM()] returns on the
    class of unifier/pcf.py, and [M()] on a class that has it. *)
Definition M (pcf : PCF) : pmat := PMat [] (b pcf) [1] (a pcf).

(** [pcf.A()]. *)
Definition A (pcf : PCF) : qmat :=
  QMat 1 (inject_Z (peval (a pcf) 0)) 0 1.

(** A sympy number: a rational, or what a division by zero leaves. *)
Inductive sympy_number : Type :=
| Num (q : Q)
| ComplexInfinity
| NotANumber.

(** [x / y] on sympy rationals. *)
Definition sympy_div (x y : Q) : sympy_number :=
  if Qeq_bool y 0 then
    if Qeq_bool x 0 then NotANumber else ComplexInfinity
  else Num (x / y).

(** mobius(matrix, z) for a numeric [z]. *)
Definition mobius (matrix : qmat) (z : Q) : sympy_number :=
  sympy_div (q00 matrix * z + q01 matrix) (q10 matrix * z + q11 matrix).

(** What is passed as [z], and as [limit]: a number or a Python string. *)
Inductive py_value : Type :=
| PyNumber (z : Q)
| PyStr (s : String.string).

(** mobius(matrix, z): a string is refused before anything is computed. *)
Definition mobius_call (matrix : qmat) (z : py_value) : result sympy_number :=
  match z with
  | PyStr _ => Raise ValueError
  | PyNumber q => Ok (mobius matrix q)
  end.

(** What is passed as [pcf] to fold_pcf and get_folded_pcf_limit, which
    call [pcf.M()] and [pcf.A()] on it: an instance of the class PCF of
    unifier/pcf.py, which defines [CM()] and [A()] and no [M()], or an
    object of a class that provides [M()] and [A()] (as [M()] is called
    on the PCF of ramanujantools in pcf_dynamical_parameters.py). *)
Inductive pcf_object : Type :=
| UnifierPCF (pcf : PCF)
| MatrixPCF (pcf : PCF).

Definition pcf_of (o : pcf_object) : PCF :=
  match o with
  | UnifierPCF pcf => pcf
  | MatrixPCF pcf => pcf
  end.

(** [pcf.M()]: a missing method raises AttributeError. *)
Definition call_M (o : pcf_object) : result pmat :=
  match o with
  | UnifierPCF _ => Raise AttributeError
  | MatrixPCF pcf => Ok (M pcf)
  end.

(** fold_matrix(mat, factor): the loop over [i in range(factor)]. *)
Definition fold_matrix (mat : pmat) (factor : Z) : pmat :=
  fold_left
    (fun folded i =>
       pmat_mul folded (pmat_subs_lin factor (- (factor - 1 - i)) mat))
    (Recurrence.zrange 0 (Z.to_nat factor))
    (PMat [1] [] [] [1]).

Section Transport.
(** The symbolic toolkit behind deflation: [content(a, b, [n])] and
    [pcf.inflate(1 / c)] for a polynomial [c]. *)
Variable content : poly -> poly -> poly.
Variable inflate_inv : PCF -> poly -> PCF.

Definition deflate_all (pcf : PCF) : PCF :=
  inflate_inv pcf (content (a pcf) (b pcf)).

(** as_pcf(matrix, deflate_all) on a polynomial matrix: there is no
    denominator to clear, so inflate_to_polynomial only deflates. *)
Definition as_pcf (matrix : pmat) (deflate : bool) : PCF :=
  let a := c00 matrix in
  let b := c01 matrix in
  let c := c10 matrix in
  let d := c11 matrix in
  let pcf :=
    {| a := padd (pmul c (pshift 1 a)) (pmul d (pshift 1 c));
       b := pmul (pmul (padd (pmul b c) (pscale (-1) (pmul a d)))
                       (pshift (-1) c))
                 (pshift 1 c) |} in
  if deflate then
    deflate_all (inflate_inv pcf (content (FoldTransport.a pcf)
                                           (FoldTransport.b pcf)))
  else pcf.

Definition as_pcf_eta (matrix : pmat) (deflate : bool) : poly :=
  if deflate then
    let pcf := as_pcf matrix false in
    content (a pcf) (b pcf)
  else [1].

Definition as_pcf_cob (matrix : pmat) (deflate : bool) : pmat :=
  let a := c00 matrix in
  let c := c10 matrix in
  let eta := as_pcf_eta matrix deflate in
  pmat_mul (pmat_mul (PMat [1] a [] c)
                     (PMat (pshift (-1) eta) [] [] [1]))
           (PMat [1] [] [] (pshift (-1) c)).

(** fold_pcf(pcf, factor). *)
Definition fold_pcf (pcf : pcf_object) (factor : Z) : result PCF :=
  match call_M pcf with
  | Raise e => Raise e
  | Ok mat => Ok (as_pcf (fold_matrix mat factor) true)
  end.

(** get_folded_pcf_limit(pcf, factor, limit, deflate_all). *)
Definition get_folded_pcf_limit (pcf : pcf_object) (factor : Z)
           (limit : py_value) (deflate : bool) : result sympy_number :=
  match call_M pcf with
  | Raise e => Raise e
  | Ok mat =>
      let foldedmat := fold_matrix mat factor in
      let foldedpcf := as_pcf foldedmat deflate in
      let U := as_pcf_cob foldedmat deflate in
      if Qeq_bool (qmat_det (pmat_at U 1)) 0 then
        Raise SingularCoboundaryMatrixError
      else
        mobius_call
          (qmat_mul (qmat_mul (A foldedpcf) (qmat_inv (pmat_at U 1)))
                    (qmat_inv (A (pcf_of pcf))))
          limit
  end.
End Transport.

(** a(n) = 2n + 1, b(n) = n^2, and a(n) = n - 1, b(n) = 1. *)
Definition pcf_test : PCF := {| a := [1; 2]; b := [0; 0; 1] |}.

(** A limit handed over as text. *)
Module Text.
Import String.
Local Open Scope string_scope.
End Text.


End FoldTransport.

(** ** PCF representation: construction, inflation, deflation
    (PCF.__init__, PCF.inflate, PCF.deflate_all) *)
Module Inflation.

(** The polynomial toolkit (sympy) the class is written against: the ring
    of polynomials in n with its gcd, exact quotient, the unit that
    normalises the sign of a polynomial, and the substitution n -> n - 1. *)
Record Toolkit : Type := {
  carrier : Type;
  tzero : carrier;
  tone : carrier;
  tadd : carrier -> carrier -> carrier;
  tmul : carrier -> carrier -> carrier;
  tsub : carrier -> carrier -> carrier;
  topp : carrier -> carrier;
  gcd : carrier -> carrier -> carrier;
  quo : carrier -> carrier -> carrier;
  unit_of : carrier -> carrier;
  shift_back : carrier -> carrier
}.

Definition divides (T : Toolkit) (x y : carrier T) : Prop :=
  exists k, y = tmul T k x.

(** What is assumed of the toolkit: a commutative ring without zero
    divisors; [gcd] a normalised greatest common divisor; [quo] exact on
    multiples; [unit_of x] a self-inverse unit making [x * unit_of x]
    normalised, 1 being normalised; the substitution fixes 1 and keeps nonzero polynomials
    nonzero. *)
Record ToolkitLaws (T : Toolkit) : Prop := {
  tk_ring : ring_theory (tzero T) (tone T) (tadd T) (tmul T) (tsub T)
                        (topp T) eq;
  tk_one_neq_zero : tone T <> tzero T;
  tk_integral : forall x y, tmul T x y = tzero T ->
                            x = tzero T \/ y = tzero T;
  tk_gcd_l : forall x y, divides T (gcd T x y) x;
  tk_gcd_r : forall x y, divides T (gcd T x y) y;
  tk_gcd_greatest : forall x y z, divides T z x -> divides T z y ->
                                  divides T z (gcd T x y);
  tk_gcd_unit : forall x y, divides T (gcd T x y) (tone T) ->
                            gcd T x y = tone T;
  tk_quo : forall k y, y <> tzero T -> quo T (tmul T k y) y = k;
  tk_unit_sq : forall x, tmul T (unit_of T x) (unit_of T x) = tone T;
  tk_unit_norm : forall x, unit_of T (tmul T x (unit_of T x)) = tone T;
  tk_unit_one : unit_of T (tone T) = tone T;
  tk_shift_one : shift_back T (tone T) = tone T;
  tk_shift_nonzero : forall x, shift_back T x = tzero T -> x = tzero T
}.

Section PCFClass.
Variable T : Toolkit.

(** A rational function as sympy holds it: numerator over denominator. *)
Record frac : Type := Frac { num : carrier T; den : carrier T }.

(** Equality of rational functions as functions. *)
Definition feq (x y : frac) : Prop :=
  tmul T (num x) (den y) = tmul T (num y) (den x).

Definition of_poly (p : carrier T) : frac := Frac p (tone T).

Definition fone : frac := of_poly (tone T).

(** [x * y], [1 / x] and [x.subs({n: n - 1})]. *)
Definition fmul (x y : frac) : frac :=
  Frac (tmul T (num x) (num y)) (tmul T (den x) (den y)).

Definition finv (x : frac) : frac := Frac (den x) (num x).

Definition fsubs_back (x : frac) : frac :=
  Frac (shift_back T (num x)) (shift_back T (den x)).

(** [sp.simplify(sp.cancel(x))]: lowest terms, normalised denominator. *)
Definition canon (x : frac) : frac :=
  let g := gcd T (num x) (den x) in
  let n' := quo T (num x) g in
  let d' := quo T (den x) g in
  let u := unit_of T d' in
  Frac (tmul T n' u) (tmul T d' u).

(** [sp.lcm([x, y])]. *)
Definition lcm (x y : carrier T) : carrier T :=
  let m := quo T (tmul T x y) (gcd T x y) in
  tmul T m (unit_of T m).

(** Modelled from the spec: [content] (unifier/utils/pcf_utils.py) is
    missing; after the spec it is the GCD of the two numerator
    polynomials. *)
Definition content (a b : carrier T) : carrier T := gcd T a b.

Record PCF : Type := {
  a : frac;
  b : frac;
  inflate_to_integer_polynomials : frac;
  inflated_by : frac;
  a_compute : frac;
  b_compute : frac
}.

(** PCF.__init__(a, b, inflated_by). *)
Definition mkPCF (a0 b0 : frac) (inflated_by0 : option frac) : PCF :=
  let self_a := canon a0 in
  let self_b := canon b0 in
  let inflated_by0 := match inflated_by0 with
                      | None => fone
                      | Some x => x
                      end in
  let itip := canon (of_poly (lcm (den self_a) (den self_b))) in
  {| a := self_a;
     b := self_b;
     inflate_to_integer_polynomials := itip;
     inflated_by := fmul inflated_by0 itip;
     a_compute := canon (fmul a0 itip);
     b_compute := canon (fmul (fmul b0 itip) (fsubs_back itip)) |}.

(** PCF.inflate(c). *)
Definition inflate (p : PCF) (c : frac) : PCF :=
  mkPCF (fmul (a p) c)
        (fmul (fmul (b p) c) (fsubs_back c))
        (Some (canon (fmul (inflated_by p) c))).

(** PCF.deflate_all(). *)
Definition deflate_all (p : PCF) : PCF :=
  inflate p (finv (of_poly (content (num (a p)) (num (b p))))).

(** a and b are polynomials: their denominators are 1. *)
Definition polynomial (p : PCF) : Prop :=
  den (a p) = tone T /\ den (b p) = tone T.
End PCFClass.

Arguments Frac {T} num den.
Arguments num {T} f.
Arguments den {T} f.
Arguments a {T} p.
Arguments b {T} p.
Arguments inflate_to_integer_polynomials {T} p.
Arguments inflated_by {T} p.
Arguments a_compute {T} p.
Arguments b_compute {T} p.
Arguments feq {T} x y.
Arguments fmul {T} x y.
Arguments finv {T} x.
Arguments fsubs_back {T} x.
Arguments canon {T} x.
Arguments of_poly {T} p.
Arguments mkPCF {T} a0 b0 inflated_by0.
Arguments inflate {T} p c.
Arguments deflate_all {T} p.
Arguments polynomial {T} p.

(** The toolkit on constant polynomials: the integers. *)
Definition ZToolkit : Toolkit :=
  {| carrier := Z; tzero := 0%Z; tone := 1%Z;
     tadd := Z.add; tmul := Z.mul; tsub := Z.sub; topp := Z.opp;
     gcd := Z.gcd; quo := Z.div;
     unit_of := fun x => if (x <? 0)%Z then (-1)%Z else 1%Z;
     shift_back := fun x => x |}.

(** PCF(1, 1), PCF(1/2, 1) and the constant 1/2. *)
Definition pcf_one : PCF ZToolkit :=
  mkPCF (Frac (T := ZToolkit) 1%Z 1%Z) (Frac (T := ZToolkit) 1%Z 1%Z) None.

Definition pcf_half : PCF ZToolkit :=
  mkPCF (Frac (T := ZToolkit) 1%Z 2%Z) (Frac (T := ZToolkit) 1%Z 1%Z) None.

Definition half : frac ZToolkit := Frac (T := ZToolkit) 1%Z 2%Z.

(** The constants 2 and 3. *)
Definition two : frac ZToolkit := Frac (T := ZToolkit) 2%Z 1%Z.

Definition three : frac ZToolkit := Frac (T := ZToolkit) 3%Z 1%Z.

End Inflation.

(** ** Step matrices: determinant, scaling, inflation by a polynomial *)
Module StepAlgebra.
Import Poly Recurrence.
Local Open Scope Z_scope.

Definition mdet (m : mat2) : Z := m00 m * m11 m - m01 m * m10 m.

(** [k * m], every cell multiplied by [k]. *)
Definition mscale (k : Z) (m : mat2) : mat2 :=
  Mat (k * m00 m) (k * m01 m) (k * m10 m) (k * m11 m).

(** The cross term [p2 * q1 - q2 * p1] and the denominator product
    [q1 * q2] that [precision] reads off a step matrix. *)
Definition cross_term (m : mat2) : Z := m01 m * m10 m - m11 m * m00 m.

Definition denominator_product (m : mat2) : Z := m10 m * m11 m.

Definition zprod (l : list Z) : Z := fold_right Z.mul 1 l.

(** [PCF.inflate(c)] on a PCF with polynomial a, b and a polynomial [c]:
    the constructor finds no denominator, so [a_compute = a * c],
    [b_compute = b * c * c(n - 1)] and [inflated_by] is multiplied by [c]. *)
Definition inflate_poly (p : PCF) (c : poly) : PCF :=
  {| a_compute := FoldTransport.pmul (a_compute p) c;
     b_compute := FoldTransport.pmul (FoldTransport.pmul (b_compute p) c)
                                     (pshift (-1) c);
     inflated_by_num := FoldTransport.pmul (inflated_by_num p) c;
     inflated_by_den := inflated_by_den p |}.

(** The product c(1) * ... * c(n). *)
Definition running_product (c : poly) (n : nat) : Z :=
  zprod (map (peval c) (zrange 1 n)).

(** A step matrix [m'] whose columns are those of [m] scaled: the first
    by [Cp], the second by [Cc], the numerators by [c0] in addition. *)
Definition scaled_columns (c0 Cp Cc : Z) (m m' : mat2) : Prop :=
  m00 m' = c0 * Cp * m00 m /\ m01 m' = c0 * Cc * m01 m /\
  m10 m' = Cp * m10 m /\ m11 m' = Cc * m11 m.

End StepAlgebra.

(** ** Folding: evaluation of polynomial matrices, the external
    polynomials of the coboundary relation *)
Module FoldAlgebra.
Import Poly Recurrence FoldTransport.
Local Open Scope Z_scope.

(** [m.subs({n: x})] as an integer matrix. *)
Definition pmat_eval (m : pmat) (x : Z) : mat2 :=
  Mat (peval (c00 m) x) (peval (c01 m) x) (peval (c10 m) x) (peval (c11 m) x).

Definition mat_identity : mat2 := Mat 1 0 0 1.

(** The product f(l1) * f(l2) * ... right-multiplied onto [init]. *)
Definition mat_run (f : Z -> mat2) (l : list Z) (init : mat2) : mat2 :=
  fold_left (fun acc k => mmul acc (f k)) l init.

(** as_pcf_polys(matrix, deflate_all): the pair (g1, g2). *)
Definition as_pcf_polys
           (content : poly -> poly -> poly)
           (inflate_inv : PCF -> poly -> PCF)
           (matrix : pmat) (deflate : bool) : poly * poly :=
  (pshift (-1) (c10 matrix), as_pcf_eta content inflate_inv matrix deflate).

(** Two sympy numbers that are the same number. *)
Definition sympy_eq (x y : sympy_number) : Prop :=
  match x, y with
  | Num p, Num q => p == q
  | ComplexInfinity, ComplexInfinity => True
  | NotANumber, NotANumber => True
  | _, _ => False
  end.

End FoldAlgebra.

(** ** Dynamics analyzer: fit depths and the fits built on errors, q_reds *)
Module DynamicsFits.
Import Recurrence Dynamics.
Local Open Scope Z_scope.

(** Strictly increasing, as [sorted(list(set(...)))] leaves a list. *)
Fixpoint increasing (l : list Z) : Prop :=
  match l with
  | [] => True
  | x :: l' => (forall y, In y l' -> x < y) /\ increasing l'
  end.

(** PCFDynamics.depths_for_fit(depth). *)
Definition depths_for_fit (depth : Z) : list Z :=
  sorted_set [6; depth / 8; depth / 4; depth / 2; depth].

Section Fits.
Variable Limit : Type.
Variable pcf_limit_at : Z -> Limit.
Variable num : Type.
Variable as_float : Limit -> num.
Variable abs_diff : num -> num -> num.
Variable log10 : num -> num.
Variable log10_int : Z -> num.
Variable as_rational : Limit -> Z * Z.
(** [err == 0], [err + 1e-10], and scipy's [curve_fit] with the full model
    ([false]) or the model without A ([true]); a fit may fail. *)
Variable is_zero : num -> bool.
Variable add_epsilon : num -> num.
Variable params : Type.
Variable curve_fit : bool -> list Z -> list num -> result params.

(** PCFDynamics.convergence_rate(depth, limit, fit_NOA). *)
Definition convergence_rate (depth : Z) (limit : option num) (fit_NOA : bool)
  : result params :=
  match check_positive depth with
  | Raise e => Raise e
  | Ok _ =>
      let fit_depths := depths_for_fit depth in
      match errors Limit pcf_limit_at num as_float abs_diff log10
                   fit_depths limit false with
      | Raise e => Raise e
      | Ok errs =>
          let errs := if existsb is_zero errs then map add_epsilon errs
                      else errs in
          let errs := map log10 errs in
          curve_fit fit_NOA fit_depths errs
      end
  end.

(** The first fit of PCFDynamics.q_reduced_growth_rate, common to all its
    branches: [curve_fit(model, fit_depths, self.q_reds(fit_depths,
    log=True))]; the model without A is fitted first exactly when
    [fit_NOA] is set and [as_in_blind_delta] is not.  With [log=True]
    q_reds returns logarithms, never the integers themselves. *)
Definition q_reduced_first_fit (depth : Z) (fit_NOA as_in_blind_delta : bool)
  : result params :=
  match check_positive depth with
  | Raise e => Raise e
  | Ok _ =>
      let fit_depths := depths_for_fit depth in
      match q_reds Limit pcf_limit_at num log10_int as_rational
                   fit_depths true with
      | Raise e => Raise e
      | Ok (inl _) => Raise TypeError
      | Ok (inr logs) =>
          curve_fit (negb as_in_blind_delta && fit_NOA) fit_depths logs
      end
  end.
End Fits.

(** A try of the first loop of compute_dynamics that leaves it looping:
    an exception, or the float +inf. *)
Definition delta_try_fails (r : result xfloat) : bool :=
  match r with
  | Ok d => xfloat_is_pos_inf d
  | Raise _ => true
  end.

(** A try of the second loop that leaves it looping: an exception. *)
Definition convrate_try_fails (r : result xfloat) : bool :=
  match r with
  | Ok _ => false
  | Raise _ => true
  end.

End DynamicsFits.

(** * Properties *)

(** ** Polynomial evaluation *)
Section PolyFacts.
Import Poly.
Local Open Scope Z_scope.

Lemma peval_padd p q x : peval (padd p q) x = peval p x + peval q x.
Proof.
  revert q; induction p as [|c p IH]; intros [|d q]; simpl; try lia.
  rewrite IH; ring.
Qed.

Lemma peval_pscale k p x : peval (pscale k p) x = k * peval p x.
Proof.
  unfold pscale; induction p as [|c p IH]; cbn [map peval]; [ring|].
  rewrite IH; ring.
Qed.

Lemma peval_pmul_lin s p x : peval (pmul_lin s p) x = (x + s) * peval p x.
Proof.
  unfold pmul_lin; rewrite peval_padd, peval_pscale; simpl; ring.
Qed.

Lemma peval_pshift s p x : peval (pshift s p) x = peval p (x + s).
Proof.
  induction p as [|c p IH]; cbn [pshift]; [reflexivity|].
  rewrite peval_padd, peval_pmul_lin, IH; cbn [peval]; ring.
Qed.

End PolyFacts.

(** ** Step matrices and checkpoints *)
Section RecurrenceFacts.
Import Poly Recurrence.
Local Open Scope Z_scope.

Lemma zrange_app lo n m :
  zrange lo (n + m) = zrange lo n ++ zrange (lo + Z.of_nat n) m.
Proof.
  revert lo; induction n as [|n IH]; intro lo.
  - simpl; now rewrite Z.add_0_r.
  - cbn [Nat.add zrange app]; rewrite IH; do 3 f_equal; lia.
Qed.

Lemma CM_at_subs_shift p s k : CM_at (subs_shift p s) k = CM_at p (k + s).
Proof. unfold CM_at, subs_shift; simpl; now rewrite !peval_pshift. Qed.

(** Running the shifted PCF over [lo ..] is running the PCF over [lo+s ..]. *)
Lemma fold_subs_shift p s len : forall lo m,
  fold_left (fun m k => mmul m (CM_at (subs_shift p s) k)) (zrange lo len) m =
  fold_left (fun m k => mmul m (CM_at p k)) (zrange (lo + s) len) m.
Proof.
  induction len as [|len IH]; intros lo m; [reflexivity|].
  cbn [zrange fold_left]; rewrite CM_at_subs_shift, IH.
  do 2 f_equal; lia.
Qed.

(** The product to depth d1 splits at any checkpoint d0. *)
Lemma lirec_eval_split p m d0 d1 :
  0 <= d0 <= d1 ->
  lirec_eval p m d1 =
  fold_left (fun m k => mmul m (CM_at p k))
            (zrange (1 + d0) (Z.to_nat (d1 - d0))) (lirec_eval p m d0).
Proof.
  intro H; unfold lirec_eval.
  replace (Z.to_nat d1) with (Z.to_nat d0 + Z.to_nat (d1 - d0))%nat by lia.
  rewrite zrange_app, fold_left_app; do 2 f_equal; lia.
Qed.

Example step_test_1 : step pcf_test 1 None = Ok (Mat 1 4 1 3).
Proof. reflexivity. Qed.

Example step_test_2 : step pcf_test 2 None = Ok (Mat 4 24 3 19).
Proof. reflexivity. Qed.

Example step_test_3 : step pcf_test 3 None = Ok (Mat 24 204 19 160).
Proof. reflexivity. Qed.

Example step_test_10 : step pcf_test 10 None = Ok limit10.
Proof. reflexivity. Qed.

(** Resuming with the index moved on reaches the matrix of the test. *)
Example step_test_resume_1 :
  step (subs_shift pcf_test 1) 9 (Some (Mat 1 4 1 3)) = Ok limit10.
Proof. reflexivity. Qed.

Example step_test_resume_2 :
  step (subs_shift pcf_test 2) 8 (Some (Mat 4 24 3 19)) = Ok limit10.
Proof. reflexivity. Qed.

Example step_test_resume_3 :
  step (subs_shift pcf_test 3) 7 (Some (Mat 24 204 19 160)) = Ok limit10.
Proof. reflexivity. Qed.

(** Resuming on the unshifted PCF restarts the index at 1 and misses it. *)
Example step_test_resume_1_unshifted :
  step pcf_test 9 (Some (Mat 1 4 1 3)) =
  Ok (Mat 578957328 13284198720 443472912 10175503680).
Proof. reflexivity. Qed.

(** Going on from a checkpoint is running the shifted PCF from it. *)
Lemma lirec_eval_resume p m d0 d1 :
  0 <= d0 <= d1 ->
  lirec_eval (subs_shift p d0) (lirec_eval p m d0) (d1 - d0) =
  lirec_eval p m d1.
Proof.
  intro H; rewrite (lirec_eval_split p m d0 d1) by lia.
  unfold lirec_eval at 1; rewrite fold_subs_shift; do 2 f_equal; lia.
Qed.

(** C1, as stated, fails: [step] always multiplies the recurrence matrices
    of the indices 1..depth, so [Step(d1 - d0)] started from the checkpoint
    [Step(d0)] repeats the indices 1..d1-d0 instead of going on with
    d0+1..d1.  For a(n) = 2n+1, b(n) = n^2, d0 = 1, d1 = 10 the results
    differ. *)
Lemma step_resume_unshifted_fails :
  ~ (forall (p : PCF) (d0 d1 : Z) (m0 : mat2),
        1 <= d0 < d1 ->
        step p d0 None = Ok m0 ->
        step p (d1 - d0) (Some m0) = step p d1 None).
Proof.
  intro H.
  specialize (H pcf_test 1 10 (Mat 1 4 1 3) ltac:(lia) eq_refl).
  vm_compute in H; discriminate H.
Qed.

(** C1 (amended): for every PCF with polynomial a, b and all depths
    1 <= d0 < d1, Step(d1) computed directly equals, as an exact integer
    matrix, Step(d1 - d0) of the PCF with its index moved on by d0
    (n -> n + d0), started from the checkpoint Step(d0). *)
Theorem step_resume_shifted (p : PCF) (d0 d1 : Z) (m0 : mat2) :
  1 <= d0 < d1 ->
  step p d0 None = Ok m0 ->
  step (subs_shift p d0) (d1 - d0) (Some m0) = step p d1 None.
Proof.
  intros Hd Hm0; unfold step in *.
  destruct (Z.ltb_spec d0 1) as [?|_]; [lia|].
  destruct (Z.ltb_spec d1 1) as [?|_]; [lia|].
  destruct (Z.ltb_spec (d1 - d0) 1) as [?|_]; [lia|].
  injection Hm0 as <-; f_equal.
  apply lirec_eval_resume; lia.
Qed.

Lemma step_resume_shifted_witness :
  step (subs_shift pcf_test 1) (10 - 1) (Some (Mat 1 4 1 3)) = Ok limit10.
Proof.
  rewrite (step_resume_shifted pcf_test 1 10 (Mat 1 4 1 3));
    [reflexivity | lia | reflexivity].
Defined.

(** The long run of the test: depth 3500 resumed from the checkpoint at
    depth 1000, without computing either matrix. *)
Corollary step_test_resume_1000 m1000 :
  step pcf_test 1000 None = Ok m1000 ->
  step (subs_shift pcf_test 1000) 2500 (Some m1000) = step pcf_test 3500 None.
Proof.
  intro H; unfold step in *.
  change (1000 <? 1) with false in H.
  change (2500 <? 1) with false; change (3500 <? 1) with false.
  cbv iota in *; injection H as <-.
  change 2500 with (3500 - 1000).
  apply (f_equal Ok), lirec_eval_resume; lia.
Qed.

End RecurrenceFacts.

(** ** Rounding to the precision of the context *)
Section FloatFacts.
Import Numerics.
Local Open Scope R_scope.

Lemma ln_2_pos : 0 < ln 2.
Proof. rewrite <- ln_1; apply ln_increasing; lra. Qed.

Lemma pow2_pos (z : Z) : 0 < powerRZ 2 z.
Proof. apply powerRZ_lt; lra. Qed.

Lemma pow2_add (x y : Z) : powerRZ 2 (x + y) = powerRZ 2 x * powerRZ 2 y.
Proof. apply powerRZ_add; lra. Qed.


Lemma ln_pow2 (z : Z) : ln (powerRZ 2 z) = IZR z * ln 2.
Proof.
  rewrite powerRZ_Rpower by lra; unfold Rpower; apply ln_exp.
Qed.

Lemma ln_le_iff (x y : R) : 0 < x -> 0 < y -> (ln x <= ln y <-> x <= y).
Proof.
  intros Hx Hy; split; intro H.
  - destruct (Rle_lt_dec x y) as [?|Hlt]; [assumption|].
    apply (ln_increasing _ _ Hy) in Hlt; lra.
  - destruct H as [H | ->]; [left; now apply ln_increasing | lra].
Qed.

Lemma ln_lt_iff (x y : R) : 0 < x -> 0 < y -> (ln x < ln y <-> x < y).
Proof.
  intros Hx Hy; split; [now apply ln_lt_inv | now apply ln_increasing].
Qed.

(** The exponent brackets a nonzero real between two powers of 2. *)
Lemma exponent_iff (x : R) (e : Z) :
  x <> 0 ->
  (exponent x = e <-> powerRZ 2 e <= Rabs x < powerRZ 2 (e + 1)).
Proof.
  intro Hx; assert (Ha : 0 < Rabs x) by now apply Rabs_pos_lt.
  pose proof ln_2_pos as H2.
  rewrite <- (ln_le_iff _ _ (pow2_pos e) Ha).
  rewrite <- (ln_lt_iff _ _ Ha (pow2_pos (e + 1))).
  rewrite !ln_pow2, plus_IZR.
  unfold exponent; split.
  - intros <-.
    destruct (Zfloor_bound (ln (Rabs x) / ln 2)) as [H1 H3].
    apply (Rmult_le_compat_r (ln 2)) in H1; [|lra].
    apply (Rmult_lt_compat_r (ln 2)) in H3; [|lra].
    unfold Rdiv in H1, H3; rewrite Rmult_assoc, Rinv_l in H1, H3 by lra.
    lra.
  - intros [H1 H3]; apply Zfloor_eq; split.
    + apply (Rmult_le_reg_r (ln 2)); [lra|].
      unfold Rdiv; rewrite Rmult_assoc, Rinv_l by lra; lra.
    + apply (Rmult_lt_reg_r (ln 2)); [lra|].
      unfold Rdiv; rewrite Rmult_assoc, Rinv_l by lra; lra.
Qed.

Lemma round_half_even_error (x : R) :
  Rabs (IZR (round_half_even x) - x) <= / 2.
Proof.
  unfold round_half_even.
  destruct (Zfloor_bound x) as [H1 H2].
  destruct (Rlt_dec _ _) as [Hlt|Hge].
  - apply Rabs_le; lra.
  - destruct (Rlt_dec _ _) as [Hgt|Hle].
    + rewrite plus_IZR; apply Rabs_le; lra.
    + destruct (Z.even _); [|rewrite plus_IZR]; apply Rabs_le; lra.
Qed.

(** A real closer than 1/2 to an integer rounds to it. *)
Lemma round_half_even_near (x : R) (k : Z) :
  Rabs (x - IZR k) < / 2 -> round_half_even x = k.
Proof.
  intro H; apply Rabs_def2 in H as [Hu Hl].
  unfold round_half_even.
  destruct (Zfloor_bound x) as [H1 H2].
  assert (Hf : (Zfloor x = k \/ Zfloor x = k - 1)%Z).
  { assert (k - 1 <= Zfloor x)%Z.
    { apply Zfloor_lub; rewrite minus_IZR; lra. }
    assert (Zfloor x < k + 1)%Z.
    { apply lt_IZR; rewrite plus_IZR; lra. }
    lia. }
  destruct Hf as [Hf|Hf]; rewrite Hf in *.
  - destruct (Rlt_dec _ _) as [?|Hn]; [reflexivity | lra].
  - rewrite minus_IZR in *.
    destruct (Rlt_dec _ _) as [?|_]; [lra|].
    destruct (Rlt_dec _ _) as [?|?]; [lia | lra].
Qed.

Lemma round_half_even_IZR (k : Z) : round_half_even (IZR k) = k.
Proof.
  apply round_half_even_near.
  replace (IZR k - IZR k) with 0 by ring; rewrite Rabs_R0; lra.
Qed.

Lemma mp_round_0 : mp_round 0 = 0.
Proof. unfold mp_round; destruct (Req_dec_T 0 0); [reflexivity | contradiction]. Qed.

(** Rounding moves a number by at most half a unit in the last place:
    a relative error of 2^-53. *)
Lemma mp_round_error (x : R) :
  Rabs (mp_round x - x) <= Rabs x * powerRZ 2 (- mp_prec).
Proof.
  unfold mp_round; destruct (Req_dec_T x 0) as [->|Hx].
  - replace (0 - 0) with 0 by ring; rewrite Rabs_R0; lra.
  - set (e := exponent x).
    destruct (proj1 (exponent_iff x e Hx) eq_refl) as [He _].
    set (s := x * powerRZ 2 (mp_prec - 1 - e)).
    pose proof (round_half_even_error s) as Hr.
    pose proof (pow2_pos (e - (mp_prec - 1))) as Hp.
    replace (IZR (round_half_even s) * powerRZ 2 (e - (mp_prec - 1)) - x)
      with ((IZR (round_half_even s) - s) * powerRZ 2 (e - (mp_prec - 1))).
    2:{ unfold s; rewrite Rmult_minus_distr_r, Rmult_assoc, <- pow2_add.
        replace (mp_prec - 1 - e + (e - (mp_prec - 1)))%Z with 0%Z by lia.
        cbn [powerRZ]; ring. }
    rewrite Rabs_mult, (Rabs_pos_eq (powerRZ 2 _)) by lra.
    apply Rle_trans with (/ 2 * powerRZ 2 (e - (mp_prec - 1))).
    { apply Rmult_le_compat_r; lra. }
    apply Rle_trans with (powerRZ 2 e * powerRZ 2 (- mp_prec)).
    2:{ apply Rmult_le_compat_r; [left; apply pow2_pos | exact He]. }
    rewrite <- pow2_add.
    replace (e - (mp_prec - 1))%Z with ((e + - mp_prec) + 1)%Z by lia.
    rewrite pow2_add, powerRZ_1.
    pose proof (pow2_pos (e + - mp_prec)); lra.
Qed.

Lemma pow2_nonneg_IZR (z : Z) : (0 <= z)%Z -> powerRZ 2 z = IZR (2 ^ z).
Proof.
  intro Hz; rewrite <- (Z2Nat.id z Hz), <- pow_powerRZ, <- pow_IZR.
  reflexivity.
Qed.

(** A real whose scaled value is closer than 1/2 to an integer [n] rounds
    to [n], scaled back. *)
Lemma mp_round_near (x : R) (e n : Z) :
  x <> 0 ->
  powerRZ 2 e <= Rabs x < powerRZ 2 (e + 1) ->
  Rabs (x * powerRZ 2 (mp_prec - 1 - e) - IZR n) < / 2 ->
  mp_round x = IZR n * powerRZ 2 (e - (mp_prec - 1)).
Proof.
  intros Hx He Hn; unfold mp_round.
  destruct (Req_dec_T x 0) as [?|_]; [contradiction|].
  rewrite (proj2 (exponent_iff x e Hx) He).
  now rewrite (round_half_even_near _ n Hn).
Qed.

(** Integers below 2^53 in absolute value are numbers of the context. *)
Lemma mp_round_IZR (k : Z) :
  (Z.abs k < 2 ^ mp_prec)%Z -> mp_round (IZR k) = IZR k.
Proof.
  intro Hk; destruct (Z.eq_dec k 0) as [->|Hk0]; [apply mp_round_0|].
  assert (Hx : IZR k <> 0) by (apply not_0_IZR; exact Hk0).
  set (e := exponent (IZR k)).
  destruct (proj1 (exponent_iff (IZR k) e Hx) eq_refl) as [He1 He2].
  assert (He : (e <= mp_prec - 1)%Z).
  { destruct (Z_le_gt_dec e (mp_prec - 1)) as [?|Hgt]; [assumption|exfalso].
    assert (H53 : powerRZ 2 mp_prec <= powerRZ 2 e).
    { replace e with (mp_prec + (e - mp_prec))%Z by lia.
      rewrite pow2_add, (pow2_nonneg_IZR (e - mp_prec)) by lia.
      assert (1 <= IZR (2 ^ (e - mp_prec))).
      { apply IZR_le.
        assert (0 < 2 ^ (e - mp_prec))%Z by (apply Z.pow_pos_nonneg; lia).
        lia. }
      pose proof (pow2_pos mp_prec); nra. }
    rewrite pow2_nonneg_IZR in H53 by (unfold mp_prec; lia).
    rewrite <- abs_IZR in He1.
    apply IZR_lt in Hk; lra. }
  rewrite (mp_round_near (IZR k) e (k * 2 ^ (mp_prec - 1 - e)) Hx
             (conj He1 He2)).
  - rewrite mult_IZR, <- pow2_nonneg_IZR, Rmult_assoc, <- pow2_add by lia.
    replace (mp_prec - 1 - e + (e - (mp_prec - 1)))%Z with 0%Z by lia.
    cbn [powerRZ]; ring.
  - rewrite mult_IZR, <- pow2_nonneg_IZR by lia.
    replace (_ - _) with 0 by ring; rewrite Rabs_R0; lra.
Qed.

End FloatFacts.

(** ** Precision and limit *)
Section NumericsFacts.
Import Poly Recurrence Numerics.
Local Open Scope R_scope.

Lemma IZR_abs_pos (z : Z) : z <> 0%Z -> (0 < IZR (Z.abs z))%R.
Proof. intro H; apply IZR_lt; lia. Qed.


(** The generic branch of [precision]: both products nonzero. *)
Lemma precision_generic (m : mat2) (base : Z) :
  let cross := (m01 m * m10 m - m11 m * m00 m)%Z in
  let den := (m10 m * m11 m)%Z in
  den <> 0%Z -> cross <> 0%Z ->
  precision m base
  = Zfloor (- mp_round (mp_round (log_base base (IZR (Z.abs cross)))
                        - mp_round (log_base base (IZR (Z.abs den))))).
Proof.
  intros cross den Hd Hc; unfold precision.
  fold cross den.
  destruct (Z.eqb_spec den 0) as [?|_]; [contradiction|].
  destruct (Z.eqb_spec cross 0) as [?|_]; [contradiction|].
  reflexivity.
Qed.

Lemma ln_10_gt_1 : 1 < ln 10.
Proof.
  rewrite <- (ln_exp 1) at 1; apply ln_increasing; [apply exp_pos|].
  pose proof exp_le_3; lra.
Qed.

Lemma ln_10_pos : 0 < ln 10.
Proof. pose proof ln_10_gt_1; lra. Qed.


Lemma log_base_pow (base : Z) (n : nat) :
  (2 <= base)%Z -> log_base base (IZR (base ^ Z.of_nat n)) = INR n.
Proof.
  intro Hb; unfold log_base.
  assert (H0 : 0 < IZR base) by (apply IZR_lt; lia).
  assert (H1 : 0 < ln (IZR base)).
  { rewrite <- ln_1; apply ln_increasing; [lra | apply IZR_lt; lia]. }
  rewrite <- pow_IZR, ln_pow by assumption.
  field; lra.
Qed.

Lemma log_base_1 (base : Z) : log_base base 1 = 0.
Proof. unfold log_base; rewrite ln_1; unfold Rdiv; ring. Qed.

(** One million over one: six digits lost, not gained. *)
Lemma precision_million : precision (Mat 1 1000001 1 1) 10 = (-6)%Z.
Proof.
  rewrite precision_generic by (cbn; lia).
  cbn [m00 m01 m10 m11].
  change (Z.abs (1000001 * 1 - 1 * 1)) with (10 ^ Z.of_nat 6)%Z.
  change (Z.abs (1 * 1)) with 1%Z.
  rewrite log_base_pow, log_base_1, mp_round_0 by lia.
  replace (INR 6) with (IZR 6) by (simpl; lra).
  rewrite (mp_round_IZR 6) by (unfold mp_prec; lia).
  replace (IZR 6 - 0) with (IZR 6) by ring.
  rewrite (mp_round_IZR 6) by (unfold mp_prec; lia).
  apply ZfloorNZ.
Qed.


Lemma Rabs_le_bounds (a b : R) : Rabs a <= b -> - b <= a <= b.
Proof. unfold Rabs; destruct (Rcase_abs a); lra. Qed.

Lemma pow2_neg_prec : powerRZ 2 (- mp_prec) = / 2 ^ 53.
Proof. reflexivity. Qed.

(** The rounded difference of two rounded nonnegative numbers is within
    2^-51 (x + y) of x - y. *)
Lemma digits_accuracy (x y : R) :
  0 <= x -> 0 <= y ->
  Rabs (mp_round (mp_round x - mp_round y) - (x - y)) <= (x + y) / 2 ^ 51.
Proof.
  intros Hx Hy.
  pose proof (mp_round_error x) as Ex.
  pose proof (mp_round_error y) as Ey.
  pose proof (mp_round_error (mp_round x - mp_round y)) as Et.
  rewrite pow2_neg_prec in Ex, Ey, Et.
  rewrite (Rabs_pos_eq x) in Ex by assumption.
  rewrite (Rabs_pos_eq y) in Ey by assumption.
  set (u := / 2 ^ 53) in *.
  assert (Hu : 0 < u) by (unfold u; apply Rinv_0_lt_compat, pow_lt; lra).
  assert (Hu1 : u <= 1).
  { unfold u; rewrite <- Rinv_1; apply Rinv_le_contravar; [lra|].
    apply pow_R1_Rle; lra. }
  assert (E51 : (x + y) / 2 ^ 51 = 4 * ((x + y) * u)).
  { unfold u; change (2 ^ 53) with (2 * (2 * 2 ^ 51)); field. }
  rewrite E51.
  set (rx := mp_round x) in *; set (ry := mp_round y) in *.
  set (rt := mp_round (rx - ry)) in *.
  apply Rabs_le_bounds in Ex, Ey.
  assert (Ht : Rabs (rx - ry) <= (x + y) * (1 + u)).
  { apply Rabs_le; nra. }
  assert (Et' : Rabs (rt - (rx - ry)) <= (x + y) * (1 + u) * u).
  { apply Rle_trans with (Rabs (rx - ry) * u); [exact Et|].
    apply Rmult_le_compat_r; lra. }
  apply Rabs_le_bounds in Et'.
  assert (Hxy : 0 <= (x + y) * u) by nra.
  assert (Hq : (x + y) * (1 + u) * u <= 2 * ((x + y) * u)) by nra.
  apply Rabs_le; lra.
Qed.

Lemma floor_within (v w dl : R) (e : Z) :
  Rabs (v - w) <= dl -> IZR e + dl <= w -> w < IZR e + 1 - dl ->
  Zfloor v = e.
Proof.
  intros H H1 H2; apply Rabs_le_bounds in H.
  apply Zfloor_eq; lra.
Qed.

Lemma log_base_nonneg (base z : Z) :
  (2 <= base)%Z -> z <> 0%Z -> 0 <= log_base base (IZR (Z.abs z)).
Proof.
  intros Hb Hz; unfold log_base.
  assert (H1 : 0 < ln (IZR base)).
  { rewrite <- ln_1; apply ln_increasing; [lra | apply IZR_lt; lia]. }
  assert (H2 : 0 <= ln (IZR (Z.abs z))).
  { rewrite <- ln_1; apply ln_le_iff; [lra | now apply IZR_abs_pos |].
    apply IZR_le; lia. }
  apply Rmult_le_pos; [exact H2 | left; now apply Rinv_0_lt_compat].
Qed.



(** The depth-1 step matrix of a(n) = (10^20 - 1) n, b(n) = 1. *)
Example step_nines :
  step (polyPCF [0; 99999999999999999999]%Z [1%Z]) 1%Z None
  = Ok (Mat 0 1 1 99999999999999999999).
Proof. reflexivity. Qed.




Example step_million : step pcf_million 1%Z None = Ok (Mat 1 1000001 1 1).
Proof. reflexivity. Qed.

(** C10: the step matrix [[1, 1000001], [1, 1]], reached at depth 1 by
    a = 1, b = 10^6, has nonzero denominator product and cross term, and
    [precision] returns a negative digit count (-6) for it; [limit] called
    without a precision clones its arithmetic context with that negative
    count, divides in it, and returns it. *)
Theorem limit_negative_precision
        (mpf : Type) (mp_mpf : Z -> Z -> mpf)
        (mp_mul mp_div : Z -> mpf -> mpf -> mpf) :
  step pcf_million 1 None = Ok (Mat 1 1000001 1 1) /\
  (1 * 1 <> 0)%Z /\ (1000001 * 1 - 1 * 1 <> 0)%Z /\
  (precision (Mat 1 1000001 1 1) 10 < 0)%Z /\
  limit mpf mp_mpf mp_mul mp_div pcf_million 1 None None false =
  Ok (MpfValue (mp_div (-6)%Z
                  (mp_mul (-6)%Z (mp_mpf (-6)%Z 1000001%Z) (mp_mpf (-6)%Z 1%Z))
                  (mp_mul (-6)%Z (mp_mpf (-6)%Z 1%Z) (mp_mpf (-6)%Z 1%Z))),
      (-6)%Z).
Proof.
  split; [reflexivity|]; split; [lia|]; split; [lia|]; split.
  - rewrite precision_million; lia.
  - unfold limit; rewrite step_million, precision_million; reflexivity.
Qed.

End NumericsFacts.

(** ** Retry loops of the dynamics analyzer *)
Section DeltaFacts.
Import Dynamics.
Local Open Scope Z_scope.

Variable pcf_delta : Z -> Z -> result delta_value.
Variables depth shift_step max_shift : Z.

Let loop := fun fuel => delta_loop pcf_delta fuel depth shift_step max_shift.

(** The first try that is not +infinity ends the loop with its value. *)
Lemma delta_loop_found (v : delta_value) :
  0 <= shift_step ->
  is_pos_inf v = false ->
  forall (k : nat) (shift : Z) (fuel : nat),
    (forall j, (j < k)%nat ->
       pcf_delta (shift + Z.of_nat j * shift_step) (depth + CIDS)
       = Ok (Some PosInf)) ->
    shift + Z.of_nat k * shift_step <= max_shift ->
    pcf_delta (shift + Z.of_nat k * shift_step) (depth + CIDS) = Ok v ->
    (k + 2 <= fuel)%nat ->
    loop fuel (Some PosInf) shift
    = Some (Ok (v, shift + (Z.of_nat k + 1) * shift_step)).
Proof.
  intros Hstep Hv; unfold loop.
  induction k as [|k IH]; intros shift fuel Hinf Hle Hk Hfuel.
  - destruct fuel as [|[|fuel]]; [lia | lia |].
    cbn [delta_loop is_pos_inf].
    rewrite Z.mul_0_l, Z.add_0_r in Hk, Hle.
    destruct (Z.gtb_spec shift max_shift) as [?|_]; [lia|].
    rewrite Hk, Hv; do 3 f_equal; lia.
  - destruct fuel as [|fuel]; [lia|].
    cbn [delta_loop is_pos_inf].
    destruct (Z.gtb_spec shift max_shift) as [?|_]; [nia|].
    specialize (Hinf 0%nat ltac:(lia)) as H0.
    rewrite Z.mul_0_l, Z.add_0_r in H0; rewrite H0.
    rewrite (IH (shift + shift_step) fuel).
    + do 3 f_equal; lia.
    + intros j Hj; specialize (Hinf (S j) ltac:(lia)).
      rewrite <- Hinf; f_equal; lia.
    + lia.
    + rewrite <- Hk; f_equal; lia.
    + lia.
Qed.

(** When every try within the bound is +infinity the loop gives up with
    +infinity, the shift beyond the bound. *)
Lemma delta_loop_exhaust :
  1 <= shift_step ->
  forall (n : nat) (shift : Z) (fuel : nat),
    (forall j : nat, shift + Z.of_nat j * shift_step <= max_shift ->
       pcf_delta (shift + Z.of_nat j * shift_step) (depth + CIDS)
       = Ok (Some PosInf)) ->
    max_shift - shift < Z.of_nat n ->
    (n < fuel)%nat ->
    exists final, max_shift < final /\
      loop fuel (Some PosInf) shift = Some (Ok (Some PosInf, final)).
Proof.
  intros Hstep; unfold loop.
  induction n as [|n IH]; intros shift fuel Hinf Hn Hfuel;
    (destruct fuel as [|fuel]; [lia|]); cbn [delta_loop is_pos_inf].
  - destruct (Z.gtb_spec shift max_shift) as [?|?]; [|lia].
    exists shift; split; [lia | reflexivity].
  - destruct (Z.gtb_spec shift max_shift) as [?|?].
    + exists shift; split; [lia | reflexivity].
    + specialize (Hinf 0%nat) as H0.
      rewrite Z.mul_0_l, Z.add_0_r in H0; rewrite H0 by lia.
      apply IH; [| lia | lia].
      intros j Hj.
      replace (shift + shift_step + Z.of_nat j * shift_step)
        with (shift + Z.of_nat (S j) * shift_step) in * by lia.
      now apply Hinf.
Qed.

(** With a positive step the loop ends, whatever the tries return. *)
Lemma delta_loop_terminates :
  1 <= shift_step ->
  forall (n : nat) (res : delta_value) (shift : Z) (fuel : nat),
    max_shift - shift < Z.of_nat n ->
    (n < fuel)%nat ->
    exists r, loop fuel res shift = Some r.
Proof.
  intros Hstep; unfold loop.
  induction n as [|n IH]; intros res shift fuel Hn Hfuel;
    (destruct fuel as [|fuel]; [lia|]); cbn [delta_loop].
  - destruct (is_pos_inf res); [|eauto].
    destruct (Z.gtb_spec shift max_shift) as [?|?]; [eauto | lia].
  - destruct (is_pos_inf res); [|eauto].
    destruct (Z.gtb_spec shift max_shift) as [?|?]; [eauto|].
    destruct (pcf_delta shift (depth + CIDS)) as [r|e]; [|eauto].
    apply IH; lia.
Qed.

End DeltaFacts.

Section DynamicsClaims.
Import Dynamics.
Local Open Scope Z_scope.

(** C5, as stated, fails: the retries keep the depth and move the index
    of the PCF instead.  For depth 1, shiftStep 5, maxShift 10 and a
    routine that is finite only at depth 8 = (1 + 5) + CIDS, a retry at
    the increased depth would return 1; the code returns +infinity. *)
Lemma delta_retry_keeps_depth :
  delta delta_only_at_depth_8 10 1 5 10 = Some (Ok (Some PosInf)) /\
  delta_spec delta_only_at_depth_8 10 1 5 10 = Some (Ok (Some (Finite 1%Q))) /\
  delta delta_only_at_depth_8 10 1 5 10 <>
  delta_spec delta_only_at_depth_8 10 1 5 10.
Proof. repeat split; discriminate. Qed.

(** C5 (amended): for every depth >= 1 and shiftStep >= 1, the tries of
    Delta are the underlying computation at the same depth, depth + CIDS,
    on the PCF with its index moved on by 0, shiftStep, 2*shiftStep, ...;
    the first try that is not +infinity is returned, provided its shift
    does not exceed maxShift, and when all tries with shift <= maxShift are
    +infinity the loop stops and +infinity is returned. *)
Theorem delta_retries_shifted_index
        (pcf_delta : Z -> Z -> result delta_value)
        (depth shift_step max_shift : Z) :
  1 <= depth -> 1 <= shift_step ->
  let try := fun k : nat =>
               pcf_delta (Z.of_nat k * shift_step) (depth + CIDS) in
  (forall (k : nat) (v : delta_value),
      (forall j, (j < k)%nat -> try j = Ok (Some PosInf)) ->
      Z.of_nat k * shift_step <= max_shift ->
      try k = Ok v -> is_pos_inf v = false ->
      forall fuel, (k + 2 <= fuel)%nat ->
        delta pcf_delta fuel depth shift_step max_shift = Some (Ok v)) /\
  ((forall j : nat, Z.of_nat j * shift_step <= max_shift ->
      try j = Ok (Some PosInf)) ->
   forall fuel, (Z.to_nat (max_shift + 1) < fuel)%nat ->
     delta pcf_delta fuel depth shift_step max_shift
     = Some (Ok (Some PosInf))).
Proof.
  intros Hd Hs try; unfold delta, check_positive.
  destruct (Z.ltb_spec depth 1) as [?|_]; [lia|]; split.
  - intros k v Hinf Hle Hk Hv fuel Hfuel.
    rewrite (delta_loop_found pcf_delta depth shift_step max_shift v
               ltac:(lia) Hv k 0 fuel); auto.
  - intros Hinf fuel Hfuel.
    destruct (delta_loop_exhaust pcf_delta depth shift_step max_shift Hs
                (Z.to_nat (max_shift + 1)) 0 fuel) as (final & _ & ->);
      auto; lia.
Qed.

Lemma delta_retries_shifted_index_witness :
  delta delta_after_shift 3 1 5 10 = Some (Ok (Some (Finite (3 # 2)))).
Proof.
  apply (proj1 (delta_retries_shifted_index delta_after_shift 1 5 10
                  ltac:(lia) ltac:(lia)) 1%nat (Some (Finite (3 # 2)))).
  - intros j Hj; replace j with 0%nat by lia; reflexivity.
  - lia.
  - reflexivity.
  - reflexivity.
  - lia.
Defined.

Lemma delta_loop_zero_step_stuck (fuel : nat) (shift : Z) :
  shift <= 10 ->
  delta_loop delta_always_inf fuel 1 0 10 (Some PosInf) shift = None.
Proof.
  intro H; induction fuel as [|fuel IH]; [reflexivity|].
  cbn [delta_loop is_pos_inf delta_always_inf].
  destruct (Z.gtb_spec shift 10) as [?|_]; [lia|].
  now rewrite Z.add_0_r.
Qed.

(** C9, as stated, fails: with shiftStep = 0 the cumulative shift never
    grows, and against a delta that stays +infinity the loop of Delta
    never ends, whatever the number of iterations allowed. *)
Lemma delta_zero_step_diverges :
  ~ (exists (fuel : nat) (r : result delta_value),
        delta delta_always_inf fuel 1 0 10 = Some r).
Proof.
  intros (fuel & r & H); revert H.
  unfold delta; cbn [check_positive Z.ltb Z.compare].
  now rewrite delta_loop_zero_step_stuck.
Qed.

End DynamicsClaims.

Section ComputeDynamicsFacts.
Import Dynamics.
Local Open Scope Z_scope.

Variable delta_at : Z -> result xfloat.
Variable convergence_rate_at : Z -> result xfloat.
Variables max_iters depth_shift : Z.

(** The counter [i] bounds the first loop of compute_dynamics. *)
Lemma delta_retry_terminates :
  forall (n : nat) (s : retry_state) (fuel : nat),
    max_iters - iters s <= Z.of_nat n ->
    (n < fuel)%nat ->
    exists s', delta_retry delta_at fuel max_iters depth_shift s = Some s' /\
               iters s <= iters s' <= Z.max (iters s) max_iters.
Proof.
  induction n as [|n IH]; intros s fuel Hn Hfuel;
    (destruct fuel as [|fuel]; [lia|]); cbn [delta_retry].
  - destruct (Z.ltb_spec (iters s) max_iters) as [?|?]; [lia|].
    rewrite andb_false_r; exists s; split; [reflexivity | lia].
  - destruct (_ && _) eqn:Hc.
    + apply andb_prop in Hc as [_ Hlt]; apply Z.ltb_lt in Hlt.
      destruct (match delta_at (depth_now s) with
                | Ok d => _ | Raise _ => _ end) as [v ok].
      edestruct IH as (s' & -> & Hb); [| | eexists; split; [reflexivity|]].
      * cbn [iters]; lia.
      * lia.
      * cbn [iters] in Hb; lia.
    + exists s; split; [reflexivity | lia].
Qed.

(** The same for the second loop. *)
Lemma convrate_retry_terminates :
  forall (n : nat) (s : retry_state) (fuel : nat),
    max_iters - iters s <= Z.of_nat n ->
    (n < fuel)%nat ->
    exists s', convrate_retry convergence_rate_at fuel max_iters depth_shift s
               = Some s' /\
               iters s <= iters s' <= Z.max (iters s) max_iters.
Proof.
  induction n as [|n IH]; intros s fuel Hn Hfuel;
    (destruct fuel as [|fuel]; [lia|]); cbn [convrate_retry].
  - destruct (Z.ltb_spec (iters s) max_iters) as [?|?]; [lia|].
    rewrite andb_false_r; exists s; split; [reflexivity | lia].
  - destruct (_ && _) eqn:Hc.
    + apply andb_prop in Hc as [_ Hlt]; apply Z.ltb_lt in Hlt.
      destruct (match convergence_rate_at (depth_now s) with
                | Ok c => _ | Raise _ => _ end) as [v ok].
      edestruct IH as (s' & -> & Hb); [| | eexists; split; [reflexivity|]].
      * cbn [iters]; lia.
      * lia.
      * cbn [iters] in Hb; lia.
    + exists s; split; [reflexivity | lia].
Qed.

End ComputeDynamicsFacts.

Section TerminationClaim.
Import Dynamics.
Local Open Scope Z_scope.

(** C9 (amended): for shiftStep >= 1, all other argument values and every
    behaviour of the inner computations (exceptions and +infinity
    included), the retry loops end after a bounded number of iterations:
    the loop of Delta within maxShift + 1 tries and one last test, and
    each of the two loops of ComputeDynamics after at most maxIters
    iterations. *)
Theorem retry_loops_bounded
        (pcf_delta : Z -> Z -> result delta_value)
        (delta_at convergence_rate_at : Z -> result xfloat)
        (depth shift_step max_shift max_iters depth_shift : Z) :
  1 <= shift_step ->
  (forall fuel, (Z.to_nat (max_shift + 1) < fuel)%nat ->
     exists r, delta pcf_delta fuel depth shift_step max_shift = Some r) /\
  (forall fuel, (Z.to_nat max_iters < fuel)%nat ->
     exists s1 s2,
       compute_dynamics_states delta_at convergence_rate_at fuel
                               depth max_iters depth_shift = Some (s1, s2) /\
       compute_dynamics delta_at convergence_rate_at fuel
                        depth max_iters depth_shift
       = Some (value s1, value s2) /\
       0 <= iters s1 <= Z.max 0 max_iters /\
       0 <= iters s2 <= Z.max 0 max_iters).
Proof.
  intro Hs; split; intros fuel Hfuel.
  - unfold delta; destruct (check_positive depth); [|eauto].
    destruct (delta_loop_terminates pcf_delta depth shift_step max_shift Hs
                (Z.to_nat (max_shift + 1)) (Some PosInf) 0 fuel)
      as (r & ->); [lia | lia |].
    destruct r as [[res ?]|e]; eauto.
  - unfold compute_dynamics, compute_dynamics_states.
    destruct (delta_retry_terminates delta_at max_iters depth_shift
                (Z.to_nat max_iters)
                {| value := PosInf; success := false;
                   depth_now := depth; iters := 0 |} fuel)
      as (s1 & -> & H1); [cbn [iters]; lia | lia |].
    destruct (convrate_retry_terminates convergence_rate_at max_iters
                depth_shift (Z.to_nat max_iters)
                {| value := Finite 0; success := false;
                   depth_now := depth; iters := 0 |} fuel)
      as (s2 & -> & H2); [cbn [iters]; lia | lia |].
    cbn [iters] in H1, H2; exists s1, s2; repeat split; lia.
Qed.

Lemma retry_loops_bounded_witness :
  (exists r, delta delta_always_inf 12 1 5 10 = Some r) /\
  (exists s1 s2,
     compute_dynamics_states delta_at_raises convergence_rate_at_raises 6
                             1 5 100 = Some (s1, s2) /\
     compute_dynamics delta_at_raises convergence_rate_at_raises 6
                      1 5 100 = Some (value s1, value s2) /\
     0 <= iters s1 <= Z.max 0 5 /\ 0 <= iters s2 <= Z.max 0 5).
Proof.
  pose proof (retry_loops_bounded delta_always_inf delta_at_raises
                convergence_rate_at_raises 1 5 10 5 100 ltac:(lia))
    as [H1 H2].
  split; [apply H1 | apply H2]; simpl; lia.
Defined.

Example compute_dynamics_all_fail :
  compute_dynamics delta_at_raises convergence_rate_at_raises 6 2000 5 100
  = Some (PosInf, Finite 0).
Proof. reflexivity. Qed.

End TerminationClaim.

(** ** Convergent indices in errors, q_reds and delta *)
Section ConvergentFacts.
Import Recurrence Dynamics.
Local Open Scope Z_scope.

Variable Limit : Type.
Variable pcf_limit_at : Z -> Limit.
Variable num : Type.
Variable as_float : Limit -> num.
Variable abs_diff : num -> num -> num.
Variable log10 : num -> num.
Variable log10_int : Z -> num.
Variable as_rational : Limit -> Z * Z.

Lemma zrange_length lo len : length (zrange lo len) = len.
Proof. revert lo; induction len; intro; simpl; auto. Qed.

Lemma nth_zrange (d : Z) : forall len lo i,
  (i < len)%nat -> nth i (zrange lo len) d = lo + Z.of_nat i.
Proof.
  induction len as [|len IH]; intros lo i Hi; [lia|].
  destruct i as [|i]; cbn [zrange nth]; [lia|].
  rewrite IH by lia; lia.
Qed.

Lemma dict_get_enumerate key : forall len lo s,
  lo <= key < lo + Z.of_nat len ->
  dict_get (combine (zrange lo len) (seq s len)) key
  = Ok (s + Z.to_nat (key - lo))%nat.
Proof.
  induction len as [|len IH]; intros lo s H; [lia|].
  cbn [zrange seq combine dict_get].
  destruct (Z.eqb_spec lo key) as [->|Hne].
  - f_equal; lia.
  - rewrite IH by lia; f_equal; lia.
Qed.

(** errors reads the d-th convergent at iteration d + CIDS. *)
Lemma errors_single (d : Z) :
  1 <= d ->
  errors Limit pcf_limit_at num as_float abs_diff log10 [d] None false
  = Ok [abs_diff (as_float (pcf_limit_at (2 * d + CIDS)))
                 (as_float (pcf_limit_at (d + CIDS)))].
Proof.
  intro Hd; unfold errors, check_positive; cbn [sorted_set fold_right insert_uniq].
  destruct (Z.ltb_spec d 1) as [?|_]; [lia | reflexivity].
Qed.

(** q_reds reads it one iteration earlier. *)
Lemma q_reds_single (d : Z) :
  1 <= d ->
  q_reds Limit pcf_limit_at num log10_int as_rational [d] false
  = Ok (inl [q_red Limit as_rational (pcf_limit_at (d + CIDS - 1))]).
Proof.
  intro Hd; unfold q_reds, check_positive;
    cbn [sorted_set fold_right insert_uniq last].
  destruct (Z.ltb_spec d 1) as [?|_]; [lia|].
  cbn [map_result]; unfold depth_to_ind, py_range.
  rewrite zrange_length, dict_get_enumerate by lia.
  unfold pcf_limit.
  rewrite (nth_indep _ _ (pcf_limit_at (d + CIDS - 1)))
    by (rewrite length_map, zrange_length; unfold CIDS; lia).
  rewrite (map_nth pcf_limit_at), (nth_zrange _ _ CIDS)
    by (unfold CIDS; lia).
  replace (CIDS + Z.of_nat (0 + Z.to_nat (d - 1))) with (d + CIDS - 1)
    by lia.
  reflexivity.
Qed.

End ConvergentFacts.

(** C7: the offset is not applied uniformly.  At depth 1, [errors] reads
    the convergent at iteration 3 = 1 + CIDS of the limit routine (and
    [delta] hands depth + CIDS to the delta routine), while [q_reds] reads
    it at iteration 2 = 1 + CIDS - 1. *)
Theorem q_reds_index_one_short
        (Limit : Type) (pcf_limit_at : Z -> Limit) (num : Type)
        (as_float : Limit -> num) (abs_diff : num -> num -> num)
        (log10 : num -> num) (log10_int : Z -> num)
        (as_rational : Limit -> Z * Z) :
  Dynamics.errors Limit pcf_limit_at num as_float abs_diff log10
                  [1%Z] None false
  = Ok [abs_diff (as_float (pcf_limit_at 4%Z))
                 (as_float (pcf_limit_at (1 + Dynamics.CIDS)%Z))] /\
  Dynamics.q_reds Limit pcf_limit_at num log10_int as_rational [1%Z] false
  = Ok (inl [Dynamics.q_red Limit as_rational
               (pcf_limit_at (1 + Dynamics.CIDS - 1)%Z)]) /\
  (1 + Dynamics.CIDS - 1 <> 1 + Dynamics.CIDS)%Z.
Proof.
  split; [|split].
  - apply (errors_single Limit pcf_limit_at num as_float abs_diff log10 1);
      lia.
  - apply (q_reds_single Limit pcf_limit_at num log10_int as_rational 1);
      lia.
  - unfold Dynamics.CIDS; lia.
Qed.

(** ** Integer roots and the viability shift *)
Section ViabilityFacts.
Import Poly Recurrence Viability.
Local Open Scope Z_scope.

Lemma In_zrange x : forall len lo,
  In x (zrange lo len) <-> lo <= x < lo + Z.of_nat len.
Proof.
  induction len as [|len IH]; intro lo; cbn [zrange In]; [lia|].
  rewrite IH; lia.
Qed.

(** A nonzero root of a polynomial divides its constant term. *)
Lemma root_in_candidates c q r :
  c <> 0 -> peval (c :: q) r = 0 -> In r (candidates c).
Proof.
  cbn [peval]; intros Hc Hr; unfold candidates; apply In_zrange.
  assert (Hdiv : (r | c)) by (exists (- peval q r); lia).
  apply Z.divide_abs_l, Z.divide_abs_r in Hdiv.
  apply Z.divide_pos_le in Hdiv; lia.
Qed.

Lemma int_roots_nz_spec r : forall p,
  is_zero_poly p = false ->
  (In r (int_roots_nz p) <-> peval p r = 0).
Proof.
  induction p as [|c q IH]; [discriminate|].
  cbn [is_zero_poly forallb int_roots_nz]; intro Hz.
  destruct (Z.eqb_spec c 0) as [->|Hc].
  - cbn [Z.eqb andb] in Hz; cbn [In peval]; rewrite (IH Hz).
    split; [intros [ <- | -> ]; lia | intro H].
    destruct (Z.eq_dec r 0); [auto | right; nia].
  - rewrite filter_In, Z.eqb_eq; split; [tauto|].
    intro H; split; [now apply (root_in_candidates c q) | exact H].
Qed.

(** [int_roots] lists exactly the integer roots of a nonzero polynomial. *)
Lemma int_roots_spec p r :
  is_zero_poly p = false ->
  (In r (int_roots p) <-> peval p r = 0).
Proof.
  intro Hz; unfold int_roots; rewrite Hz, nodup_In.
  now apply int_roots_nz_spec.
Qed.

Lemma py_max_ge x l : x <= py_max x l /\ forall y, In y l -> y <= py_max x l.
Proof.
  unfold py_max; revert x; induction l as [|z l IH]; intro x; cbn [fold_left].
  - split; [lia | intros y []].
  - destruct (IH (Z.max x z)) as [H1 H2]; split; [lia|].
    intros y [<-|Hy]; [lia | auto].
Qed.

Lemma py_max_In x l : In (py_max x l) (x :: l).
Proof.
  unfold py_max; revert x; induction l as [|z l IH]; intro x; cbn [fold_left].
  - now left.
  - destruct (IH (Z.max x z)) as [H|H]; [|right; now right].
    rewrite <- H; destruct (Z.max_spec x z) as [[_ ->]|[_ ->]];
      [right; now left | now left].
Qed.

(** Every root of a's denominator lies below the shift. *)
Lemma get_shift_above_a_den p r :
  is_zero_poly (a_den p) = false ->
  peval (a_den p) r = 0 -> r + 1 <= get_shift p.
Proof.
  intros Hz Hr; apply (int_roots_spec _ _ Hz) in Hr.
  unfold get_shift, get_zeros; cbn [zeros_a_den zeros_b_den zeros_b_num].
  destruct (int_roots (a_den p)) as [|x l]; [destruct Hr|].
  destruct (py_max_ge x l) as [H1 H2].
  assert (r <= py_max x l) by (destruct Hr as [<-|Hr]; auto).
  lia.
Qed.

(** Every root of b's denominator or numerator is at most the shift. *)
Lemma get_shift_above_b_den p r :
  is_zero_poly (b_den p) = false ->
  peval (b_den p) r = 0 -> r <= get_shift p.
Proof.
  intros Hz Hr; apply (int_roots_spec _ _ Hz) in Hr.
  unfold get_shift, get_zeros; cbn [zeros_a_den zeros_b_den zeros_b_num].
  destruct (int_roots (b_den p)) as [|x l]; [destruct Hr|].
  destruct (py_max_ge x l) as [H1 H2].
  assert (r <= py_max x l) by (destruct Hr as [<-|Hr]; auto).
  lia.
Qed.

Lemma get_shift_above_b_num p r :
  is_zero_poly (b_num p) = false ->
  peval (b_num p) r = 0 -> r <= get_shift p.
Proof.
  intros Hz Hr; apply (int_roots_spec _ _ Hz) in Hr.
  unfold get_shift, get_zeros; cbn [zeros_a_den zeros_b_den zeros_b_num].
  destruct (int_roots (b_num p)) as [|x l]; [destruct Hr|].
  destruct (py_max_ge x l) as [H1 H2].
  assert (r <= py_max x l) by (destruct Hr as [<-|Hr]; auto).
  lia.
Qed.

End ViabilityFacts.

Section ViabilityClaims.
Import Poly Recurrence Viability.
Local Open Scope Z_scope.

(** A positive shift is owed to a root: one of a's denominator just below
    it, or one of b's denominator or numerator at it. *)
Lemma get_shift_attained p :
  is_zero_poly (a_den p) = false ->
  is_zero_poly (b_den p) = false ->
  is_zero_poly (b_num p) = false ->
  0 < get_shift p ->
  (exists r, peval (a_den p) r = 0 /\ get_shift p = r + 1) \/
  (exists r, peval (b_den p) r = 0 /\ get_shift p = r) \/
  (exists r, peval (b_num p) r = 0 /\ get_shift p = r).
Proof.
  intros Ha Hb Hc.
  pose proof (fun r => int_roots_spec (a_den p) r Ha) as Sa.
  pose proof (fun r => int_roots_spec (b_den p) r Hb) as Sb.
  pose proof (fun r => int_roots_spec (b_num p) r Hc) as Sc.
  unfold get_shift, get_zeros; cbn [zeros_a_den zeros_b_den zeros_b_num].
  destruct (int_roots (a_den p)) as [|xa la];
    destruct (int_roots (b_den p)) as [|xb lb];
    destruct (int_roots (b_num p)) as [|xc lc]; intro Hpos;
    try (pose proof (py_max_In xa la) as Ia; apply Sa in Ia);
    try (pose proof (py_max_In xb lb) as Ib; apply Sb in Ib);
    try (pose proof (py_max_In xc lc) as Ic; apply Sc in Ic);
    repeat match goal with
           | |- context [Z.max ?u ?v] =>
               destruct (Z.max_spec u v) as [[? ->]|[? ->]]
           end;
    try lia;
    solve [ left; eexists; split; [eassumption | lia]
          | right; left; eexists; split; [eassumption | lia]
          | right; right; eexists; split; [eassumption | lia] ].
Qed.

Lemma subs_shift_viable p s :
  viable (subs_shift p s) <->
  (forall r, 0 <= r -> peval (a_den p) (r + s) <> 0) /\
  (forall r, 1 <= r ->
     peval (b_den p) (r + s) <> 0 /\ peval (b_num p) (r + s) <> 0).
Proof.
  unfold viable, subs_shift; cbn [a_den b_den b_num].
  split; intros [H1 H2]; split; intros r Hr.
  - rewrite <- peval_pshift; auto.
  - rewrite <- !peval_pshift; auto.
  - rewrite peval_pshift; auto.
  - rewrite !peval_pshift; auto.
Qed.

(** The shifted PCF is viable in the sense of get_shift. *)
Lemma shift_to_viable_viable p :
  is_zero_poly (a_den p) = false ->
  is_zero_poly (b_den p) = false ->
  is_zero_poly (b_num p) = false ->
  viable (subs_shift p (get_shift p)).
Proof.
  intros Ha Hb Hc; apply subs_shift_viable.
  split; [intros r Hr H0 | intros r Hr; split; intro H0].
  - apply (get_shift_above_a_den p _ Ha) in H0; lia.
  - apply (get_shift_above_b_den p _ Hb) in H0; lia.
  - apply (get_shift_above_b_num p _ Hc) in H0; lia.
Qed.

(** No smaller non-negative shift will do. *)
Lemma get_shift_least p s :
  is_zero_poly (a_den p) = false ->
  is_zero_poly (b_den p) = false ->
  is_zero_poly (b_num p) = false ->
  0 <= s < get_shift p -> ~ viable (subs_shift p s).
Proof.
  intros Ha Hb Hc Hs Hv; apply subs_shift_viable in Hv as [H1 H2].
  destruct (get_shift_attained p Ha Hb Hc ltac:(lia))
    as [(r & Hr & E)|[(r & Hr & E)|(r & Hr & E)]].
  - apply (H1 (r - s)); [lia|]; now replace (r - s + s) with r by lia.
  - destruct (H2 (r - s) ltac:(lia)) as [Hd _].
    apply Hd; now replace (r - s + s) with r by lia.
  - destruct (H2 (r - s) ltac:(lia)) as [_ Hn].
    apply Hn; now replace (r - s + s) with r by lia.
Qed.

Lemma viable_shift_nonpos p :
  is_zero_poly (a_den p) = false ->
  is_zero_poly (b_den p) = false ->
  is_zero_poly (b_num p) = false ->
  viable p -> get_shift p <= 0.
Proof.
  intros Ha Hb Hc [H1 H2].
  destruct (Z_le_gt_dec (get_shift p) 0) as [?|Hpos]; [assumption|exfalso].
  destruct (get_shift_attained p Ha Hb Hc ltac:(lia))
    as [(r & Hr & E)|[(r & Hr & E)|(r & Hr & E)]].
  - apply (H1 r); [lia | exact Hr].
  - destruct (H2 r ltac:(lia)) as [Hd _]; apply Hd; exact Hr.
  - destruct (H2 r ltac:(lia)) as [_ Hn]; apply Hn; exact Hr.
Qed.

Lemma get_shift_nonneg p :
  int_roots (a_den p) = [] \/ int_roots (b_den p) = [] \/
  int_roots (b_num p) = [] ->
  0 <= get_shift p.
Proof.
  unfold get_shift, get_zeros; cbn [zeros_a_den zeros_b_den zeros_b_num].
  intros [-> | [-> | ->]]; lia.
Qed.

(** C4, as stated, fails: for a = 1, b = n - 1 the shift is 1 and the
    shifted partial numerator, n, has the root 0, a non-negative index. *)
Lemma shift_to_viable_leaves_root_at_0 :
  shift_to_viable pcf_b_root_at_1
  = ({| a_num := [1]; a_den := [1]; b_num := [0; 1]; b_den := [1] |}, 1) /\
  ~ viable_spec (fst (shift_to_viable pcf_b_root_at_1)).
Proof.
  split; [reflexivity|].
  intro H; destruct (H 0 ltac:(lia)) as (_ & _ & H0).
  apply H0; reflexivity.
Qed.

(** With integer roots in all three polynomials and all of them negative,
    the maximum of get_shift is negative. *)
Example get_shift_negative : get_shift pcf_negative_roots = -2.
Proof. reflexivity. Qed.

(** C4 (amended): for every PCF whose b is not the zero function,
    ShiftToViable returns the PCF shifted by get_shift, for which the
    denominator of a has no integer root at any index >= 0 and neither the
    denominator nor the numerator of b has one at any index >= 1; the
    shift is non-negative whenever one of the three polynomials has no
    integer root, and whenever it is non-negative it is the smallest
    non-negative shift achieving this, and 0 for a PCF already viable in
    this sense. *)
Theorem shift_to_viable_correct (p : PCF) :
  is_zero_poly (a_den p) = false ->
  is_zero_poly (b_den p) = false ->
  is_zero_poly (b_num p) = false ->
  let q := fst (shift_to_viable p) in
  let shift := snd (shift_to_viable p) in
  q = subs_shift p shift /\
  viable q /\
  (int_roots (a_den p) = [] \/ int_roots (b_den p) = [] \/
   int_roots (b_num p) = [] -> 0 <= shift) /\
  (0 <= shift ->
   (forall s, 0 <= s < shift -> ~ viable (subs_shift p s)) /\
   (viable p -> shift = 0)).
Proof.
  intros Ha Hb Hc; cbn [shift_to_viable fst snd].
  split; [reflexivity|]; split; [|split].
  - now apply shift_to_viable_viable.
  - apply get_shift_nonneg.
  - intro Hs; split.
    + intros s Hlt; now apply get_shift_least.
    + intro Hv; pose proof (viable_shift_nonpos p Ha Hb Hc Hv); lia.
Qed.

Lemma shift_to_viable_correct_witness :
  viable (fst (shift_to_viable pcf_three_roots)) /\
  snd (shift_to_viable pcf_three_roots) = 4 /\
  forall s, 0 <= s < 4 -> ~ viable (subs_shift pcf_three_roots s).
Proof.
  destruct (shift_to_viable_correct pcf_three_roots eq_refl eq_refl eq_refl)
    as (_ & Hv & _ & Hmin).
  split; [exact Hv|]; split; [reflexivity|].
  apply Hmin; vm_compute; discriminate.
Defined.

End ViabilityClaims.

(** ** Transport of a limit across a fold *)
Section FoldFacts.
Import Poly FoldTransport.
Local Open Scope Z_scope.

Lemma peval_pmul p q x : peval (pmul p q) x = peval p x * peval q x.
Proof.
  induction p as [|c p IH]; cbn [pmul peval]; [ring|].
  rewrite peval_padd, peval_pscale; cbn [peval]; rewrite IH; ring.
Qed.

Lemma peval_psubs_lin k s p x :
  peval (psubs_lin k s p) x = peval p (k * x + s).
Proof.
  induction p as [|c p IH]; cbn [psubs_lin]; [reflexivity|].
  rewrite peval_padd, peval_pmul, IH; cbn [peval]; ring.
Qed.

(** The determinant of the coboundary matrix at n:
    eta(n - 1) * c(n) * c(n - 1). *)
Lemma as_pcf_cob_det content inflate_inv matrix deflate x :
  (qmat_det (pmat_at (as_pcf_cob content inflate_inv matrix deflate) x) ==
   inject_Z (peval (as_pcf_eta content inflate_inv matrix deflate) (x - 1) *
             peval (c10 matrix) x * peval (c10 matrix) (x - 1)))%Q.
Proof.
  unfold qmat_det, pmat_at; cbn [q00 q01 q10 q11].
  unfold Qminus; rewrite <- !inject_Z_mult, <- inject_Z_opp, <- inject_Z_plus.
  apply inject_Z_injective.
  unfold as_pcf_cob, pmat_mul; cbn [c00 c01 c10 c11].
  rewrite !peval_padd, !peval_pmul, !peval_padd, !peval_pmul, !peval_pshift.
  cbn [peval]; replace (x + -1) with (x - 1) by lia; ring.
Qed.

End FoldFacts.

(** ** The transported limit *)
Section FoldLimit.
Import Poly FoldTransport.
Local Open Scope Z_scope.

Variable content : poly -> poly -> poly.
Variable inflate_inv : PCF -> poly -> PCF.




End FoldLimit.



(** ** Inflation and deflation *)
Section InflationFacts.
Import Inflation.

Variable T : Toolkit.
Hypothesis laws : ToolkitLaws T.

Add Ring toolkit_ring : (tk_ring T laws).

Local Notation "0" := (tzero T).
Local Notation "1" := (tone T).
Local Infix "*" := (tmul T).

Lemma tmul_nonzero (x y : carrier T) : x <> 0 -> y <> 0 -> x * y <> 0.
Proof.
  intros Hx Hy H; destruct (tk_integral T laws x y H); contradiction.
Qed.

Lemma tmul_cancel_r (x y z : carrier T) : z <> 0 -> x * z = y * z -> x = y.
Proof.
  intros Hz H.
  assert (E : tmul T (tsub T x y) z = 0).
  { transitivity (tsub T (x * z) (y * z)); [ring | rewrite H; ring]. }
  destruct (tk_integral T laws _ _ E) as [E'|E']; [|contradiction].
  replace x with (tadd T (tsub T x y) y) by ring; rewrite E'; ring.
Qed.

Lemma divides_nonzero (x y : carrier T) : divides T x y -> y <> 0 -> x <> 0.
Proof. intros [k ->] Hy ->; apply Hy; ring. Qed.

Lemma gcd_nonzero_r (x y : carrier T) : y <> 0 -> gcd T x y <> 0.
Proof. intro Hy; exact (divides_nonzero _ _ (tk_gcd_r T laws x y) Hy). Qed.

Lemma unit_nonzero (x : carrier T) : unit_of T x <> 0.
Proof.
  intro H; apply (tk_one_neq_zero T laws).
  rewrite <- (tk_unit_sq T laws x), H; ring.
Qed.

(** The exact quotient of a multiple gives the multiple back. *)
Lemma quo_divides (x g : carrier T) :
  g <> 0 -> divides T g x -> quo T x g * g = x.
Proof. intros Hg [k ->]; now rewrite (tk_quo T laws). Qed.

(** Cancelling does not change the rational function. *)
Lemma canon_feq (x : frac T) : den x <> 0 -> feq (canon x) x.
Proof.
  intro Hd; unfold feq, canon; cbn [num den].
  pose proof (gcd_nonzero_r (num x) (den x) Hd) as Hg.
  pose proof (quo_divides _ _ Hg (tk_gcd_l T laws (num x) (den x))) as Hn.
  pose proof (quo_divides _ _ Hg (tk_gcd_r T laws (num x) (den x))) as Hq.
  set (g := gcd T (num x) (den x)) in *.
  set (n' := quo T (num x) g) in *; set (d' := quo T (den x) g) in *.
  rewrite <- Hn, <- Hq; ring.
Qed.

Lemma canon_den_nonzero (x : frac T) : den x <> 0 -> den (canon x) <> 0.
Proof.
  intro Hd; unfold canon; cbn [den].
  pose proof (gcd_nonzero_r (num x) (den x) Hd) as Hg.
  pose proof (quo_divides _ _ Hg (tk_gcd_r T laws (num x) (den x))) as Hq.
  apply tmul_nonzero; [|apply unit_nonzero].
  intro H0; apply Hd; rewrite <- Hq, H0; ring.
Qed.

Lemma feq_refl (x : frac T) : feq x x.
Proof. reflexivity. Qed.

Lemma feq_sym (x y : frac T) : feq x y -> feq y x.
Proof. unfold feq; intro H; now symmetry. Qed.

Lemma feq_trans (x y z : frac T) :
  den y <> 0 -> feq x y -> feq y z -> feq x z.
Proof.
  unfold feq; intros Hy Hxy Hyz.
  apply (tmul_cancel_r _ _ (den y) Hy).
  transitivity (num x * den y * den z); [ring|].
  rewrite Hxy.
  transitivity (num y * den z * den x); [ring|].
  rewrite Hyz; ring.
Qed.

Lemma fmul_feq (x y c : frac T) : feq x y -> feq (fmul x c) (fmul y c).
Proof.
  unfold feq, fmul; cbn [num den]; intro H.
  transitivity (num x * den y * (num c * den c)); [ring|].
  rewrite H; ring.
Qed.

Lemma fmul_fone_feq (x : frac T) : feq (fmul x (fone T)) x.
Proof. unfold feq, fmul, fone, of_poly; cbn [num den]; ring. Qed.

Lemma gcd_one_one : gcd T 1 1 = 1.
Proof. apply (tk_gcd_unit T laws), (tk_gcd_l T laws). Qed.

Lemma lcm_one_one : lcm T 1 1 = 1.
Proof.
  unfold lcm; rewrite gcd_one_one, (tk_quo T laws 1 1 (tk_one_neq_zero T laws)).
  rewrite (tk_unit_one T laws); ring.
Qed.

Lemma canon_fone : canon (fone T) = fone T.
Proof.
  unfold canon, fone, of_poly; cbn [num den].
  rewrite gcd_one_one.
  replace (quo T 1 1) with 1
    by (rewrite <- (tk_quo T laws 1 1 (tk_one_neq_zero T laws)) at 1;
        f_equal; ring).
  rewrite (tk_unit_one T laws); f_equal; ring.
Qed.

(** A PCF built on polynomials has nothing to clear. *)
Lemma polynomial_itip (p : PCF T) (c : frac T) :
  polynomial (inflate p c) ->
  inflate_to_integer_polynomials (inflate p c) = fone T.
Proof.
  intros [Ha Hb]; unfold inflate, mkPCF in *; cbn [a b inflate_to_integer_polynomials] in *.
  rewrite Ha, Hb, lcm_one_one; apply canon_fone.
Qed.

End InflationFacts.

Section InflateClaims.
Import Inflation.

Variable T : Toolkit.
Hypothesis laws : ToolkitLaws T.

Add Ring toolkit_ring' : (tk_ring T laws).

Lemma fmul_feq_r (x c c' : frac T) : feq c c' -> feq (fmul x c) (fmul x c').
Proof.
  unfold feq, fmul; cbn [num den]; intro H.
  transitivity (tmul T (tmul T (num c) (den c')) (tmul T (num x) (den x)));
    [ring|].
  rewrite H; ring.
Qed.

Lemma of_poly_den_nonzero (x : carrier T) : den (of_poly x) <> tzero T.
Proof. exact (tk_one_neq_zero T laws). Qed.

(** [inflated_by] after an inflation, up to cancelling: the seed times the
    LCM of the new denominators. *)
Lemma inflated_by_inflate (p : PCF T) (c : frac T) :
  den (inflated_by p) <> tzero T -> den c <> tzero T ->
  feq (inflated_by (inflate p c))
      (fmul (fmul (inflated_by p) c)
            (of_poly (lcm T (den (a (inflate p c))) (den (b (inflate p c)))))).
Proof.
  intros Hp Hc; unfold inflate at 1, mkPCF; cbn [inflated_by].
  set (X := fmul (inflated_by p) c).
  set (Lf := of_poly (lcm T _ _)).
  assert (HX : den X <> tzero T) by (apply (tmul_nonzero T laws); assumption).
  assert (HL : den Lf <> tzero T) by apply of_poly_den_nonzero.
  apply (feq_trans T laws _ (fmul X (canon Lf))).
  - cbn [fmul den]; apply (tmul_nonzero T laws); [assumption|].
    now apply canon_den_nonzero.
  - apply fmul_feq, canon_feq; assumption.
  - apply fmul_feq_r, canon_feq; assumption.
Qed.

Lemma inflated_by_inflate_den (p : PCF T) (c : frac T) :
  den (inflated_by p) <> tzero T -> den c <> tzero T ->
  den (inflated_by (inflate p c)) <> tzero T.
Proof.
  intros Hp Hc; unfold inflate, mkPCF; cbn [inflated_by fmul den].
  apply (tmul_nonzero T laws); apply canon_den_nonzero; auto.
  - cbn [fmul den]; now apply (tmul_nonzero T laws).
  - apply of_poly_den_nonzero.
Qed.

(** When the inflated a and b are polynomials the seed is all there is. *)
Lemma inflated_by_inflate_polynomial (p : PCF T) (c : frac T) :
  den (inflated_by p) <> tzero T -> den c <> tzero T ->
  polynomial (inflate p c) ->
  feq (inflated_by (inflate p c)) (fmul (inflated_by p) c).
Proof.
  intros Hp Hc Hpoly.
  pose proof (polynomial_itip T laws p c Hpoly) as Hitip.
  unfold inflate, mkPCF in *; cbn [inflated_by inflate_to_integer_polynomials] in *.
  rewrite Hitip.
  set (X := fmul (inflated_by p) c).
  assert (HX : den X <> tzero T) by (apply (tmul_nonzero T laws); assumption).
  apply (feq_trans T laws _ (canon X)).
  - now apply canon_den_nonzero.
  - apply fmul_fone_feq; assumption.
  - now apply canon_feq.
Qed.

End InflateClaims.

Section InflateStatement.
Import Inflation.

(** The integers satisfy what is assumed of the toolkit. *)
Lemma ZToolkit_laws : ToolkitLaws ZToolkit.
Proof.
  constructor; unfold divides; cbn.
  - exact Zth.
  - discriminate.
  - intros x y H; apply Z.mul_eq_0 in H; exact H.
  - intros x y; exact (Z.gcd_divide_l x y).
  - intros x y; exact (Z.gcd_divide_r x y).
  - intros x y z Hx Hy; exact (Z.gcd_greatest x y z Hx Hy).
  - intros x y H; apply Z.divide_1_r_nonneg; [apply Z.gcd_nonneg | exact H].
  - intros k y Hy; now apply Z.div_mul.
  - intro x; destruct (x <? 0)%Z; reflexivity.
  - intro x; destruct (Z.ltb_spec x 0) as [Hx|Hx].
    + destruct (Z.ltb_spec (x * -1) 0); lia.
    + destruct (Z.ltb_spec (x * 1) 0); lia.
  - reflexivity.
  - reflexivity.
  - auto.
Qed.

(** C3, as stated, fails: inflating PCF(1, 1) by the constant 1/2 gives
    a = 1/2, b = 1/4, and the constructor multiplies the seed
    inflated_by * c = 1/2 by the LCM 4 of the two denominators: the new
    inflated_by is 4/2, not 1/2. *)
Lemma inflate_half_inflated_by :
  inflated_by (inflate pcf_one half) = Frac (T := ZToolkit) 4%Z 2%Z /\
  fmul (inflated_by pcf_one) half = Frac (T := ZToolkit) 1%Z 2%Z /\
  ~ feq (inflated_by (inflate pcf_one half)) (fmul (inflated_by pcf_one) half).
Proof.
  split; [reflexivity|]; split; [reflexivity|].
  vm_compute; discriminate.
Qed.

(** C3 (amended): for every PCF p and every nonzero rational function c,
    p.Inflate(c) is a new PCF whose partial denominator is p.a * c and
    whose partial numerator is p.b * c(n) * c(n-1), both in canonical
    form; when a and b of p are polynomials, its inflated_by is, as a
    rational function, p.inflated_by * c times the LCM of the denominators
    of the new a and b, hence p.inflated_by * c when the new a and b are
    polynomials again, so that inflated_by composes multiplicatively under
    repeated inflation that stays within polynomials. *)
Theorem inflate_fields (T : Toolkit) (laws : ToolkitLaws T)
        (p : PCF T) (c : frac T) :
  den (inflated_by p) <> tzero T ->
  num c <> tzero T -> den c <> tzero T ->
  a (inflate p c) = canon (fmul (a p) c) /\
  b (inflate p c) = canon (fmul (fmul (b p) c) (fsubs_back c)) /\
  (polynomial p ->
   feq (inflated_by (inflate p c))
       (fmul (fmul (inflated_by p) c)
             (of_poly (lcm T (den (a (inflate p c)))
                             (den (b (inflate p c))))))) /\
  (polynomial p -> polynomial (inflate p c) ->
   feq (inflated_by (inflate p c)) (fmul (inflated_by p) c)) /\
  (forall c2 : frac T,
      num c2 <> tzero T -> den c2 <> tzero T ->
      polynomial p -> polynomial (inflate p c) ->
      polynomial (inflate (inflate p c) c2) ->
      feq (inflated_by (inflate (inflate p c) c2))
          (fmul (fmul (inflated_by p) c) c2)).
Proof.
  intros Hp _ Hc; split; [reflexivity|]; split; [reflexivity|].
  split; [|split].
  - intros _; now apply inflated_by_inflate.
  - intros _ Hpoly; now apply inflated_by_inflate_polynomial.
  - intros c2 _ Hc2 _ Hpoly1 Hpoly2.
    pose proof (inflated_by_inflate_den T laws p c Hp Hc) as Hd1.
    apply (feq_trans T laws _ (fmul (inflated_by (inflate p c)) c2)).
    + cbn [fmul den]; now apply (tmul_nonzero T laws).
    + now apply inflated_by_inflate_polynomial.
    + apply fmul_feq; [exact laws|].
      now apply inflated_by_inflate_polynomial.
Qed.

End InflateStatement.

Section InflateWitness.
Import Inflation.

Lemma inflate_fields_witness :
  a (inflate pcf_one two) = canon (fmul (a pcf_one) two) /\
  b (inflate pcf_one two)
  = canon (fmul (fmul (b pcf_one) two) (fsubs_back two)) /\
  feq (inflated_by (inflate pcf_one two)) (fmul (inflated_by pcf_one) two) /\
  feq (inflated_by (inflate (inflate pcf_one two) three))
      (fmul (fmul (inflated_by pcf_one) two) three).
Proof.
  destruct (inflate_fields ZToolkit ZToolkit_laws pcf_one two)
    as (Ha & Hb & _ & H1 & H2).
  - vm_compute; discriminate.
  - vm_compute; discriminate.
  - vm_compute; discriminate.
  - split; [exact Ha|]; split; [exact Hb|]; split.
    + apply H1; split; reflexivity.
    + apply (H2 three).
      * vm_compute; discriminate.
      * vm_compute; discriminate.
      * split; reflexivity.
      * split; reflexivity.
      * split; reflexivity.
Defined.

(** C8: deflating PCF(1/2, 1) once and twice.  The content of the
    numerators is 1 both times and a, b stay 1/2 and 1, but each call
    multiplies inflated_by by the LCM 2 of the denominators again: 4 after
    one call, 8 after two, so the two PCFs differ. *)
Theorem deflate_all_twice_inflated_by :
  content ZToolkit (num (a pcf_half)) (num (b pcf_half)) = 1%Z /\
  a (deflate_all (deflate_all pcf_half)) = a (deflate_all pcf_half) /\
  b (deflate_all (deflate_all pcf_half)) = b (deflate_all pcf_half) /\
  inflated_by (deflate_all pcf_half) = Frac (T := ZToolkit) 4%Z 1%Z /\
  inflated_by (deflate_all (deflate_all pcf_half))
  = Frac (T := ZToolkit) 8%Z 1%Z /\
  ~ feq (inflated_by (deflate_all (deflate_all pcf_half)))
        (inflated_by (deflate_all pcf_half)) /\
  deflate_all (deflate_all pcf_half) <> deflate_all pcf_half.
Proof.
  repeat (split; [reflexivity|]); split.
  - vm_compute; discriminate.
  - vm_compute; discriminate.
Qed.

End InflateWitness.

(** ** Deflating twice *)
Section DeflationFacts.
Import Inflation.

Variable T : Toolkit.
Hypothesis laws : ToolkitLaws T.

Add Ring toolkit_ring'' : (tk_ring T laws).

Local Notation "0" := (tzero T).
Local Notation "1" := (tone T).
Local Infix "*" := (tmul T).

(** If [e * g] divides [g <> 0] then [e] is a unit. *)
Lemma divides_cancel_unit (e g : carrier T) :
  g <> 0 -> divides T (e * g) g -> divides T e 1.
Proof.
  intros Hg [m Hm]; exists m.
  apply (tmul_cancel_r T laws _ _ g Hg).
  transitivity g; [ring|].
  rewrite Hm at 1; ring.
Qed.

(** A divisor of a cancelled numerator, times a common divisor of the
    fraction, divides the numerator. *)
Lemma canon_num_divides (x : frac T) (e g : carrier T) :
  den x <> 0 ->
  divides T g (num x) -> divides T g (den x) ->
  divides T e (num (canon x)) ->
  divides T (e * g) (num x).
Proof.
  intros Hd Hgn Hgd [s Hs]; unfold canon in Hs; cbn [num] in Hs.
  pose proof (gcd_nonzero_r T laws (num x) (den x) Hd) as Hk.
  pose proof (quo_divides T laws _ _ Hk (tk_gcd_l T laws (num x) (den x)))
    as Hn.
  destruct (tk_gcd_greatest T laws _ _ _ Hgn Hgd) as [t Ht].
  pose proof (tk_unit_sq T laws (quo T (den x) (gcd T (num x) (den x))))
    as Hu.
  set (k := gcd T (num x) (den x)) in *.
  set (qa := quo T (num x) k) in *.
  set (u := unit_of T (quo T (den x) k)) in *.
  exists (s * u * t).
  rewrite <- Hn, Ht.
  transitivity (qa * (u * u) * t * g); [rewrite Hu; ring|].
  transitivity (qa * u * u * t * g); [ring|].
  rewrite Hs; ring.
Qed.

(** The same for the denominator. *)
Lemma canon_den_divides (x : frac T) (e g : carrier T) :
  den x <> 0 ->
  divides T g (num x) -> divides T g (den x) ->
  divides T e (den (canon x)) ->
  divides T (e * g) (den x).
Proof.
  intros Hd Hgn Hgd [s Hs]; unfold canon in Hs; cbn [den] in Hs.
  pose proof (gcd_nonzero_r T laws (num x) (den x) Hd) as Hk.
  pose proof (quo_divides T laws _ _ Hk (tk_gcd_r T laws (num x) (den x)))
    as Hn.
  destruct (tk_gcd_greatest T laws _ _ _ Hgn Hgd) as [t Ht].
  pose proof (tk_unit_sq T laws (quo T (den x) (gcd T (num x) (den x))))
    as Hu.
  set (k := gcd T (num x) (den x)) in *.
  set (qd := quo T (den x) k) in *.
  set (u := unit_of T qd) in *.
  exists (s * u * t).
  rewrite <- Hn, Ht.
  transitivity (qd * (u * u) * t * g); [rewrite Hu; ring|].
  transitivity (qd * u * u * t * g); [ring|].
  rewrite Hs; ring.
Qed.

End DeflationFacts.

Section DeflationIdempotence.
Import Inflation.

Variable T : Toolkit.
Hypothesis laws : ToolkitLaws T.

Add Ring toolkit_ring3 : (tk_ring T laws).

Local Notation "0" := (tzero T).
Local Notation "1" := (tone T).
Local Infix "*" := (tmul T).

Lemma quo_one (x : carrier T) : quo T x 1 = x.
Proof.
  rewrite <- (tk_quo T laws x 1 (tk_one_neq_zero T laws)) at 2.
  f_equal; ring.
Qed.

(** A cancelled fraction is in lowest terms. *)
Lemma canon_coprime (x : frac T) :
  den x <> 0 -> gcd T (num (canon x)) (den (canon x)) = 1.
Proof.
  intro Hd.
  pose proof (gcd_nonzero_r T laws (num x) (den x) Hd) as Hk.
  apply (tk_gcd_unit T laws).
  apply (divides_cancel_unit T laws _ (gcd T (num x) (den x)) Hk).
  apply (tk_gcd_greatest T laws).
  - apply (canon_num_divides T laws); auto.
    + apply (tk_gcd_l T laws).
    + apply (tk_gcd_r T laws).
    + apply (tk_gcd_l T laws).
  - apply (canon_den_divides T laws); auto.
    + apply (tk_gcd_l T laws).
    + apply (tk_gcd_r T laws).
    + apply (tk_gcd_r T laws).
Qed.

(** Cancelling twice is cancelling once. *)
Lemma canon_idem (x : frac T) : den x <> 0 -> canon (canon x) = canon x.
Proof.
  intro Hd; pose proof (canon_coprime x Hd) as Hone.
  unfold canon at 1; rewrite Hone, !quo_one.
  unfold canon; cbn [num den].
  rewrite (tk_unit_norm T laws); f_equal; ring.
Qed.

Lemma fmul_fone (x : frac T) : fmul x (fone T) = x.
Proof.
  destruct x as [n d]; unfold fmul, fone, of_poly; cbn [num den].
  f_equal; ring.
Qed.

Lemma fsubs_back_fone : fsubs_back (fone T) = fone T.
Proof.
  unfold fsubs_back, fone, of_poly; cbn [num den].
  now rewrite (tk_shift_one T laws).
Qed.

End DeflationIdempotence.

Section DeflationTwice.
Import Inflation.

Variable T : Toolkit.
Hypothesis laws : ToolkitLaws T.

Add Ring toolkit_ring4 : (tk_ring T laws).

Local Notation "0" := (tzero T).
Local Notation "1" := (tone T).
Local Infix "*" := (tmul T).

Variable p : PCF T.
Hypothesis a_den_nonzero : den (a p) <> 0.
Hypothesis b_den_nonzero : den (b p) <> 0.
Hypothesis content_nonzero : content T (num (a p)) (num (b p)) <> 0.

Let g := content T (num (a p)) (num (b p)).
Let c := finv (of_poly g).
Let xa := fmul (a p) c.
Let xb := fmul (fmul (b p) c) (fsubs_back c).

Lemma deflate_all_a : a (deflate_all p) = canon xa.
Proof. reflexivity. Qed.

Lemma deflate_all_b : b (deflate_all p) = canon xb.
Proof. reflexivity. Qed.

Lemma xa_den_nonzero : den xa <> 0.
Proof.
  unfold xa, c; cbn [fmul finv of_poly num den].
  now apply (tmul_nonzero T laws).
Qed.

Lemma xb_den_nonzero : den xb <> 0.
Proof.
  unfold xb, c; cbn [fmul fsubs_back finv of_poly num den].
  repeat apply (tmul_nonzero T laws); auto.
  intro H; apply content_nonzero; now apply (tk_shift_nonzero T laws).
Qed.

(** The content divides numerator and denominator of both products. *)
Lemma g_divides_xa : divides T g (num xa) /\ divides T g (den xa).
Proof.
  unfold xa, c; cbn [fmul finv of_poly num den]; split.
  - destruct (tk_gcd_l T laws (num (a p)) (num (b p))) as [k Hk].
    exists k; fold (content T (num (a p)) (num (b p))) in Hk; fold g in Hk.
    rewrite Hk at 1; ring.
  - exists (den (a p)); reflexivity.
Qed.

Lemma g_divides_xb : divides T g (num xb) /\ divides T g (den xb).
Proof.
  unfold xb, c; cbn [fmul fsubs_back finv of_poly num den]; split.
  - destruct (tk_gcd_r T laws (num (a p)) (num (b p))) as [k Hk].
    exists k; fold (content T (num (a p)) (num (b p))) in Hk; fold g in Hk.
    rewrite (tk_shift_one T laws); rewrite Hk at 1; ring.
  - exists (den (b p) * shift_back T g); ring.
Qed.

(** The content of a deflated pair is 1. *)
Lemma deflated_content_one :
  content T (num (a (deflate_all p))) (num (b (deflate_all p))) = 1.
Proof.
  rewrite deflate_all_a, deflate_all_b; unfold content.
  apply (tk_gcd_unit T laws).
  set (e := gcd T (num (canon xa)) (num (canon xb))).
  apply (divides_cancel_unit T laws e g content_nonzero).
  destruct g_divides_xa as [Ha1 Ha2]; destruct g_divides_xb as [Hb1 Hb2].
  apply (tk_gcd_greatest T laws).
  - pose proof (canon_num_divides T laws xa e g xa_den_nonzero Ha1 Ha2
                  (tk_gcd_l T laws _ _)) as [k Hk].
    exists k; rewrite <- Hk.
    unfold xa, c; cbn [fmul finv of_poly num den]; ring.
  - pose proof (canon_num_divides T laws xb e g xb_den_nonzero Hb1 Hb2
                  (tk_gcd_r T laws _ _)) as [k Hk].
    exists k; rewrite <- Hk.
    unfold xb, c; cbn [fmul fsubs_back finv of_poly num den].
    rewrite (tk_shift_one T laws); ring.
Qed.

(** Deflating a PCF of content 1 only cancels a and b again. *)
Lemma deflate_all_content_one (q : PCF T) :
  content T (num (a q)) (num (b q)) = 1 ->
  a (deflate_all q) = canon (a q) /\ b (deflate_all q) = canon (b q).
Proof.
  intro H; unfold deflate_all; rewrite H.
  change (finv (of_poly 1)) with (fone T).
  unfold inflate, mkPCF; cbn [a b].
  now rewrite (fsubs_back_fone T laws), !(fmul_fone T laws).
Qed.

(** Deflating again leaves a and b as they are. *)
Lemma deflate_all_twice_ab :
  a (deflate_all (deflate_all p)) = a (deflate_all p) /\
  b (deflate_all (deflate_all p)) = b (deflate_all p).
Proof.
  destruct (deflate_all_content_one (deflate_all p) deflated_content_one)
    as [-> ->].
  rewrite deflate_all_a, deflate_all_b.
  split; apply (canon_idem T laws);
    [apply xa_den_nonzero | apply xb_den_nonzero].
Qed.

End DeflationTwice.

(** ** Determinant and columns of step matrices *)
Section StepAlgebraFacts.
Import Poly Recurrence StepAlgebra.
Local Open Scope Z_scope.

Lemma mdet_mmul x y : mdet (mmul x y) = mdet x * mdet y.
Proof. unfold mdet, mmul; cbn [m00 m01 m10 m11]; ring. Qed.

Lemma mdet_CM_at p k : mdet (CM_at p k) = - peval (b_compute p) k.
Proof. unfold mdet, CM_at; cbn [m00 m01 m10 m11]; ring. Qed.

Lemma mdet_fold p l : forall m,
  mdet (fold_left (fun m k => mmul m (CM_at p k)) l m)
  = mdet m * zprod (map (fun k => - peval (b_compute p) k) l).
Proof.
  induction l as [|k l IH]; intro m; cbn [fold_left map zprod fold_right].
  - ring.
  - rewrite IH, mdet_mmul, mdet_CM_at; unfold zprod; ring.
Qed.

Lemma zprod_zero l : zprod l = 0 <-> In 0 l.
Proof.
  induction l as [|x l IH]; cbn [zprod fold_right In]; [lia|].
  fold (zprod l); rewrite Z.mul_eq_0, IH; intuition.
Qed.

(** The determinant of a step matrix from the default initial conditions. *)
Lemma step_mdet (p : PCF) (depth : Z) (m : mat2) :
  step p depth None = Ok m ->
  mdet m = zprod (map (fun k => - peval (b_compute p) k)
                      (zrange 1 (Z.to_nat depth))).
Proof.
  unfold step; destruct (depth <? 1); [discriminate|].
  intro H; injection H as <-.
  unfold lirec_eval; rewrite mdet_fold; unfold mdet; cbn [m00 m01 m10 m11].
  ring.
Qed.

(** The cross term vanishes exactly when b vanishes at an index 1..depth. *)
Lemma cross_term_zero_iff (p : PCF) (depth : Z) (m : mat2) :
  step p depth None = Ok m ->
  (cross_term m = 0 <->
   exists k, 1 <= k <= depth /\ peval (b_compute p) k = 0).
Proof.
  intro H; pose proof (step_mdet p depth m H) as Hdet.
  assert (E : cross_term m = 0 <-> mdet m = 0)
    by (unfold cross_term, mdet; lia).
  rewrite E, Hdet, zprod_zero, in_map_iff; split.
  - intros (k & Hk & Hin); apply In_zrange in Hin.
    exists k; split; lia.
  - intros (k & Hk & Hb); exists k; split; [lia|].
    apply In_zrange; lia.
Qed.

(** X1: With the default initial conditions the determinant of the step
    matrix at depth d is the product of -b(k) for k = 1..d, and the cross
    term read by [precision] is its opposite. *)
Theorem step_determinant (p : PCF) (depth : Z) (m : mat2) :
  step p depth None = Ok m ->
  mdet m = zprod (map (fun k => - peval (b_compute p) k)
                      (zrange 1 (Z.to_nat depth))) /\
  cross_term m = - mdet m.
Proof.
  intro H; split; [now apply step_mdet|].
  unfold cross_term, mdet; ring.
Qed.

Lemma step_determinant_witness :
  mdet (Mat 24 204 19 160) = zprod (map (fun k => - peval [0; 0; 1] k)
                                        (zrange 1 (Z.to_nat 3))) /\
  cross_term (Mat 24 204 19 160) = - mdet (Mat 24 204 19 160).
Proof. apply (step_determinant pcf_test 3); reflexivity. Defined.

End StepAlgebraFacts.

Section StepRecurrenceFacts.
Import Poly Recurrence StepAlgebra Numerics.
Local Open Scope Z_scope.

Lemma lirec_eval_succ p m d :
  0 <= d ->
  lirec_eval p m (d + 1) = mmul (lirec_eval p m d) (CM_at p (d + 1)).
Proof.
  intro Hd; rewrite (lirec_eval_split p m d (d + 1)) by lia.
  replace (Z.to_nat (d + 1 - d)) with 1%nat by lia.
  cbn [zrange fold_left]; do 2 f_equal; lia.
Qed.

(** X2: One more step moves the current convergent to the first column
    and builds the new one by p(n) = b(n) p(n-2) + a(n) p(n-1). *)
Theorem step_three_term (p : PCF) (d : Z) (m m' : mat2) :
  step p d None = Ok m ->
  step p (d + 1) None = Ok m' ->
  m00 m' = m01 m /\ m10 m' = m11 m /\
  m01 m' = peval (b_compute p) (d + 1) * m00 m
           + peval (a_compute p) (d + 1) * m01 m /\
  m11 m' = peval (b_compute p) (d + 1) * m10 m
           + peval (a_compute p) (d + 1) * m11 m.
Proof.
  unfold step.
  destruct (Z.ltb_spec d 1) as [?|Hd]; [discriminate|].
  destruct (Z.ltb_spec (d + 1) 1) as [?|_]; [lia|].
  intros H H'; injection H as <-; injection H' as <-.
  rewrite lirec_eval_succ by lia.
  unfold mmul, CM_at; cbn [m00 m01 m10 m11]; repeat split; ring.
Qed.

Lemma step_three_term_witness :
  m00 (Mat 24 204 19 160) = m01 (Mat 4 24 3 19) /\
  m10 (Mat 24 204 19 160) = m11 (Mat 4 24 3 19) /\
  m01 (Mat 24 204 19 160)
  = peval [0; 0; 1] (2 + 1) * m00 (Mat 4 24 3 19)
    + peval [1; 2] (2 + 1) * m01 (Mat 4 24 3 19) /\
  m11 (Mat 24 204 19 160)
  = peval [0; 0; 1] (2 + 1) * m10 (Mat 4 24 3 19)
    + peval [1; 2] (2 + 1) * m11 (Mat 4 24 3 19).
Proof. apply (step_three_term pcf_test 2); reflexivity. Defined.

(** X3: A fraction that terminates within the depth gets the sentinel: the
    cross term of the step matrix vanishes exactly when b vanishes at an
    index 1..depth, and then, the denominator product not being 0,
    [precision] of the step matrix is 100. *)
Theorem precision_terminated (p : PCF) (depth base : Z) (m : mat2) :
  step p depth None = Ok m ->
  (cross_term m = 0 <->
   exists k, 1 <= k <= depth /\ peval (b_compute p) k = 0) /\
  (denominator_product m <> 0 ->
   (exists k, 1 <= k <= depth /\ peval (b_compute p) k = 0) ->
   precision m base = 100).
Proof.
  intro H; pose proof (cross_term_zero_iff p depth m H) as Hiff.
  split; [exact Hiff|]; intros Hden Hk; apply Hiff in Hk.
  unfold precision, cross_term, denominator_product in *.
  destruct (Z.eqb_spec (m10 m * m11 m) 0) as [?|_]; [contradiction|].
  now rewrite Hk.
Qed.

Lemma precision_terminated_witness :
  precision (Mat 1 2 1 2) 10 = 100.
Proof.
  apply (precision_terminated (polyPCF [1] [-1; 1]) 2 10);
    [reflexivity | discriminate | exists 1; split; [lia | reflexivity]].
Defined.

End StepRecurrenceFacts.

(** ** Inflation by a polynomial scales the convergents *)
Section InflatePolyFacts.
Import Poly Recurrence StepAlgebra Numerics.
Local Open Scope Z_scope.

Variable p : PCF.
Variable c : poly.

Lemma zprod_app l1 l2 : zprod (l1 ++ l2) = zprod l1 * zprod l2.
Proof.
  unfold zprod; induction l1 as [|x l1 IH]; cbn [app fold_right]; [ring|].
  rewrite IH; ring.
Qed.

Lemma running_product_succ n :
  running_product c (S n) = running_product c n * peval c (Z.of_nat n + 1).
Proof.
  unfold running_product.
  replace (S n) with (n + 1)%nat by lia.
  rewrite zrange_app, map_app, zprod_app.
  cbn [zrange map zprod fold_right]; f_equal.
  rewrite Z.mul_1_r; f_equal; lia.
Qed.

Lemma CM_at_inflate_poly k :
  CM_at (inflate_poly p c) k
  = Mat 0 (peval (b_compute p) k * peval c k * peval c (k - 1))
        1 (peval (a_compute p) k * peval c k).
Proof.
  unfold CM_at, inflate_poly; cbn [a_compute b_compute].
  rewrite !peval_pmul, peval_pshift.
  now replace (k + -1) with (k - 1) by lia.
Qed.

(** One more recurrence step keeps the columns scaled. *)
Lemma scaled_columns_step n m m' :
  scaled_columns (peval c 0) (running_product c n)
                 (running_product c (S n)) m m' ->
  scaled_columns (peval c 0) (running_product c (S n))
                 (running_product c (S (S n)))
                 (mmul m (CM_at p (Z.of_nat n + 2)))
                 (mmul m' (CM_at (inflate_poly p c) (Z.of_nat n + 2))).
Proof.
  intros (H00 & H01 & H10 & H11).
  rewrite CM_at_inflate_poly.
  rewrite (running_product_succ (S n)).
  replace (Z.of_nat (S n) + 1) with (Z.of_nat n + 2) by lia.
  replace (Z.of_nat n + 2 - 1) with (Z.of_nat n + 1) by lia.
  rewrite running_product_succ in *.
  unfold scaled_columns, mmul, CM_at; cbn [m00 m01 m10 m11].
  rewrite H00, H01, H10, H11; repeat split; ring.
Qed.

Lemma scaled_columns_fold : forall len n m m',
  scaled_columns (peval c 0) (running_product c n)
                 (running_product c (S n)) m m' ->
  scaled_columns (peval c 0) (running_product c (n + len))
                 (running_product c (S (n + len)))
    (fold_left (fun m k => mmul m (CM_at p k))
               (zrange (Z.of_nat n + 2) len) m)
    (fold_left (fun m k => mmul m (CM_at (inflate_poly p c) k))
               (zrange (Z.of_nat n + 2) len) m').
Proof.
  induction len as [|len IH]; intros n m m' H.
  - now rewrite Nat.add_0_r.
  - cbn [zrange fold_left].
    replace (n + S len)%nat with (S n + len)%nat by lia.
    replace (Z.of_nat n + 2 + 1) with (Z.of_nat (S n) + 2) by lia.
    apply IH, scaled_columns_step, H.
Qed.

End InflatePolyFacts.

Section InflatePolyClaims.
Import Poly Recurrence StepAlgebra Numerics.
Local Open Scope Z_scope.

(** The step matrices of a PCF and of its inflation by c. *)
Lemma step_scaled_columns (p : PCF) (c : poly) (depth : Z) (m m' : mat2) :
  step p depth None = Ok m ->
  step (inflate_poly p c) depth None = Ok m' ->
  scaled_columns (peval c 0)
                 (running_product c (Z.to_nat (depth - 1)))
                 (running_product c (Z.to_nat depth)) m m'.
Proof.
  unfold step; destruct (Z.ltb_spec depth 1) as [?|Hd]; [discriminate|].
  intros H H'; injection H as <-; injection H' as <-.
  unfold lirec_eval.
  replace (Z.to_nat depth) with (S (0 + Z.to_nat (depth - 1))) by lia.
  cbn [zrange fold_left].
  replace (Z.to_nat (depth - 1)) with (0 + Z.to_nat (depth - 1))%nat at 1
    by lia.
  apply (scaled_columns_fold p c (Z.to_nat (depth - 1)) 0).
  rewrite CM_at_inflate_poly.
  unfold scaled_columns, running_product, mmul, CM_at, inflate_poly.
  cbn [m00 m01 m10 m11 a_compute zrange map zprod fold_right].
  rewrite peval_pmul; replace (1 - 1) with 0 by lia.
  split; [|split; [|split]]; ring.
Qed.

(** X5: Inflating a PCF by a polynomial c scales the columns of every step
    matrix: the current convergent's numerator by c(0) c(1)...c(d), its
    denominator by c(1)...c(d), the previous one's by the products to
    d - 1. *)
Theorem inflate_poly_step (p : PCF) (c : poly) (depth : Z) (m m' : mat2) :
  step p depth None = Ok m ->
  step (inflate_poly p c) depth None = Ok m' ->
  m00 m' = peval c 0 * running_product c (Z.to_nat (depth - 1)) * m00 m /\
  m01 m' = peval c 0 * running_product c (Z.to_nat depth) * m01 m /\
  m10 m' = running_product c (Z.to_nat (depth - 1)) * m10 m /\
  m11 m' = running_product c (Z.to_nat depth) * m11 m.
Proof.
  intros H H'; exact (step_scaled_columns p c depth m m' H H').
Qed.

Lemma inflate_poly_step_witness :
  48 = 3 * 4 * 4 /\ 1440 = 3 * 20 * 24 /\ 12 = 4 * 3 /\ 380 = 20 * 19.
Proof.
  exact (inflate_poly_step pcf_test [3; 1] 2 (Mat 4 24 3 19)
           (Mat 48 1440 12 380) eq_refl eq_refl).
Defined.

Lemma inflation_factor_polyPCF a b : inflation_factor (polyPCF a b) = (1, 1).
Proof. reflexivity. Qed.

Lemma inflation_factor_inflate_poly a b c :
  inflation_factor (inflate_poly (polyPCF a b) c) = (peval c 0, 1).
Proof.
  unfold inflation_factor, inflate_poly, polyPCF.
  cbn [inflated_by_num inflated_by_den].
  rewrite peval_pmul; change (peval [1] 0) with 1.
  unfold as_numer_denom.
  replace (1 * peval c 0 * (0 + 1)) with (peval c 0) by ring.
  rewrite Z.gcd_1_r; change (Z.sgn 1) with 1; change (Z.abs 1) with 1.
  rewrite !Z.div_1_r; f_equal; ring.
Qed.

Lemma running_product_nonzero (c : poly) (n : nat) :
  (forall k, 1 <= k <= Z.of_nat n -> peval c k <> 0) ->
  running_product c n <> 0.
Proof.
  intros H E; unfold running_product in E.
  apply zprod_zero, in_map_iff in E as (k & Hk & Hin).
  apply In_zrange in Hin; apply (H k); [lia | exact Hk].
Qed.

(** X6: Inflation invariance: for a PCF built from polynomials a, b and a
    polynomial c without a zero at the indices 0..depth, the exact
    rational limit of the inflated PCF at that depth has a nonzero
    denominator whenever that of the PCF itself has one, and is the same
    rational number. *)
Theorem inflate_poly_limit
        (mpf : Type) (mp_mpf : Z -> Z -> mpf)
        (mp_mul mp_div : Z -> mpf -> mpf -> mpf)
        (a b c : poly) (depth : Z) (prec prec' : option Z)
        (num den num' den' pr pr' : Z) :
  limit mpf mp_mpf mp_mul mp_div (polyPCF a b) depth None prec true
  = Ok (RationalValue num den, pr) ->
  limit mpf mp_mpf mp_mul mp_div (inflate_poly (polyPCF a b) c)
        depth None prec' true
  = Ok (RationalValue num' den', pr') ->
  (forall k, 0 <= k <= depth -> peval c k <> 0) ->
  den <> 0 ->
  den' <> 0 /\ num' * den = num * den'.
Proof.
  unfold limit.
  destruct (step (polyPCF a b) depth None) as [m|] eqn:Hm; [|discriminate].
  destruct (step (inflate_poly (polyPCF a b) c) depth None) as [m'|] eqn:Hm';
    [|discriminate].
  destruct (step_scaled_columns _ _ _ _ _ Hm Hm') as (_ & H01 & _ & H11).
  rewrite inflation_factor_polyPCF, inflation_factor_inflate_poly.
  cbn [negb].
  intros H H' Hc Hden; injection H as <- <- _; injection H' as <- <- _.
  assert (Hd : 1 <= depth).
  { unfold step in Hm; destruct (Z.ltb_spec depth 1); [discriminate | lia]. }
  assert (H0 : peval c 0 <> 0) by (apply Hc; lia).
  assert (HC : running_product c (Z.to_nat depth) <> 0).
  { apply running_product_nonzero; intros k Hk; apply Hc; lia. }
  rewrite H01, H11; split; [|ring].
  intro E; apply Z.mul_eq_0 in E as [E|E]; [|contradiction].
  apply Z.mul_eq_0 in E as [E|E]; [contradiction|].
  apply Hden; rewrite E; ring.
Qed.

Lemma inflate_poly_limit_witness :
  1140 <> 0 /\ 1440 * 19 = 24 * 1140.
Proof.
  apply (inflate_poly_limit unit (fun _ _ => tt) (fun _ _ _ => tt)
           (fun _ _ _ => tt) [1; 2] [0; 0; 1] [3; 1] 2 (Some 5) (Some 5)
           24 19 1440 1140 5 5); try reflexivity.
  - intros k Hk; cbn [peval]; lia.
  - discriminate.
Defined.

End InflatePolyClaims.

(** ** What the digits of [precision] mean *)
Section PrecisionDigits.
Import Recurrence StepAlgebra Numerics.
Local Open Scope R_scope.

Lemma ln_one_plus (x : R) : 0 <= x <= 1 -> x / 2 <= ln (1 + x).
Proof.
  intros [H0 H1].
  rewrite <- (ln_exp (x / 2)).
  apply ln_le_iff; [apply exp_pos | lra |].
  (* exp(y) <= 1 / (1 - y) <= 1 + 2 y for 0 <= y <= 1/2 *)
  pose proof (exp_ineq1_le (- (x / 2))) as He.
  rewrite exp_Ropp in He.
  assert (Hp : 0 < 1 + - (x / 2)) by lra.
  assert (Hi : exp (x / 2) <= / (1 + - (x / 2))).
  { rewrite <- (Rinv_inv (exp (x / 2))).
    apply Rinv_le_contravar; assumption. }
  apply Rle_trans with (1 := Hi).
  apply (Rmult_le_reg_r (1 + - (x / 2))); [exact Hp|].
  rewrite Rinv_l by lra; nra.
Qed.

Lemma ln_2_lt_1 : ln 2 < 1.
Proof.
  rewrite <- (ln_exp 1); apply ln_increasing; [lra|].
  pose proof (exp_ineq1 1 ltac:(lra)); lra.
Qed.

(** ln z < (log2 z + 1) ln 2 for a positive integer z. *)
Lemma ln_IZR_log2 (z : Z) :
  (0 < z)%Z -> ln (IZR z) < IZR (Z.log2 z + 1) * ln 2.
Proof.
  intro Hz; destruct (Z.log2_spec z Hz) as [_ Hu].
  rewrite <- ln_pow2.
  apply ln_increasing; [now apply IZR_lt|].
  rewrite pow2_nonneg_IZR by (pose proof (Z.log2_nonneg z); lia).
  apply IZR_lt; replace (Z.log2 z + 1)%Z with (Z.succ (Z.log2 z)) by lia.
  exact Hu.
Qed.

Lemma pow2_INR (k : nat) : 0 < 2 ^ k.
Proof. apply pow_lt; lra. Qed.

(** The bracket with a relative margin of 2^-k, in logarithms. *)
Lemma bracket_core (C D b : R) (e k : nat) :
  1 <= C -> 1 <= D -> 1 < b ->
  (ln C + ln D) / 2 ^ 51 < / 2 ^ (S k) ->
  (2 ^ k + 1) * (b ^ e * C) <= 2 ^ k * D ->
  (2 ^ k + 1) * D <= 2 ^ k * (b ^ (S e) * C) ->
  INR e + (ln C / ln b + ln D / ln b) / 2 ^ 51
  < ln D / ln b - ln C / ln b
  < INR e + 1 - (ln C / ln b + ln D / ln b) / 2 ^ 51.
Proof.
  intros HC HD Hb Hsize Hlo Hhi.
  pose proof (pow2_INR k) as HK.
  assert (Hlb : 0 < ln b) by (rewrite <- ln_1; apply ln_increasing; lra).
  assert (Hbe : 0 < b ^ e) by (apply pow_lt; lra).
  assert (HbS : 0 < b ^ S e) by (apply pow_lt; lra).
  assert (Hk1 : 0 <= / 2 ^ k <= 1).
  { split; [left; now apply Rinv_0_lt_compat|].
    rewrite <- Rinv_1; apply Rinv_le_contravar; [lra|].
    apply pow_R1_Rle; lra. }
  pose proof (ln_one_plus _ Hk1) as Hm.
  assert (EK : ln (2 ^ k + 1) = ln (2 ^ k) + ln (1 + / 2 ^ k)).
  { rewrite <- ln_mult by lra; f_equal; field; lra. }
  assert (Ehalf : / 2 ^ k / 2 = / 2 ^ S k).
  { cbn [pow]; field; lra. }
  rewrite Ehalf in Hm.
  (* logarithms of the two margins *)
  assert (L1 : ln (2 ^ k + 1) + (INR e * ln b + ln C) <= ln (2 ^ k) + ln D).
  { rewrite <- (ln_pow b) by lra.
    assert (0 < b ^ e * C) by (apply Rmult_lt_0_compat; lra).
    rewrite <- !ln_mult by lra.
    apply ln_le_iff; [apply Rmult_lt_0_compat; lra
                     | apply Rmult_lt_0_compat; lra | exact Hlo]. }
  assert (L2 : ln (2 ^ k + 1) + ln D
               <= ln (2 ^ k) + (INR (S e) * ln b + ln C)).
  { rewrite <- (ln_pow b) by lra.
    assert (0 < b ^ S e * C) by (apply Rmult_lt_0_compat; lra).
    rewrite <- !ln_mult by lra.
    apply ln_le_iff; [apply Rmult_lt_0_compat; lra
                     | apply Rmult_lt_0_compat; lra | exact Hhi]. }
  rewrite S_INR in L2.
  set (dl := (ln C / ln b + ln D / ln b) / 2 ^ 51).
  assert (Edl : dl * ln b = (ln C + ln D) / 2 ^ 51).
  { unfold dl; field; lra. }
  assert (Ew : (ln D / ln b - ln C / ln b) * ln b = ln D - ln C).
  { field; lra. }
  split.
  - apply (Rmult_lt_reg_r (ln b)); [exact Hlb|].
    rewrite Ew, Rmult_plus_distr_r, Edl; lra.
  - apply (Rmult_lt_reg_r (ln b)); [exact Hlb|].
    rewrite Ew; unfold Rminus at 2.
    rewrite !Rmult_plus_distr_r, Ropp_mult_distr_l_reverse, Edl; lra.
Qed.

(** Integers whose bit lengths add up to at most 2^(50-k). *)
Lemma size_bound (c d : Z) (k : nat) :
  c <> 0%Z -> d <> 0%Z ->
  ((Z.log2 (Z.abs c) + Z.log2 (Z.abs d) + 2) * 2 ^ Z.of_nat (S k)
   <= 2 ^ 51)%Z ->
  (ln (IZR (Z.abs c)) + ln (IZR (Z.abs d))) / 2 ^ 51 < / 2 ^ S k.
Proof.
  intros Hc Hd Hs.
  pose proof (ln_IZR_log2 (Z.abs c) ltac:(lia)) as Lc.
  pose proof (ln_IZR_log2 (Z.abs d) ltac:(lia)) as Ld.
  pose proof ln_2_lt_1 as H2; pose proof ln_2_pos as H2'.
  pose proof (Z.log2_nonneg (Z.abs c)) as Nc.
  pose proof (Z.log2_nonneg (Z.abs d)) as Nd.
  set (S0 := (Z.log2 (Z.abs c) + Z.log2 (Z.abs d) + 2)%Z) in *.
  assert (HS : ln (IZR (Z.abs c)) + ln (IZR (Z.abs d)) < IZR S0).
  { unfold S0; rewrite !plus_IZR in *.
    apply IZR_le in Nc, Nd; nra. }
  apply IZR_le in Hs; rewrite mult_IZR, <- !pow_IZR in Hs.
  change (Z.to_nat 51) with 51%nat in Hs.
  assert (P : 0 < 2 ^ S k) by (apply pow_lt; lra).
  assert (P51 : 0 < 2 ^ 51) by (apply pow_lt; lra).
  apply (Rmult_lt_reg_r (2 ^ 51)); [exact P51|].
  unfold Rdiv; rewrite Rmult_assoc, Rinv_l, Rmult_1_r by lra.
  apply (Rmult_lt_reg_r (2 ^ S k)); [exact P|].
  rewrite (Rmult_comm (/ 2 ^ S k)), Rmult_assoc, Rinv_l, Rmult_1_r by lra.
  nra.
Qed.

(** The digits computed and the exact ones. *)
Lemma precision_digits_close (m : mat2) (base : Z) :
  (2 <= base)%Z ->
  denominator_product m <> 0%Z -> cross_term m <> 0%Z ->
  let lc := log_base base (IZR (Z.abs (cross_term m))) in
  let ld := log_base base (IZR (Z.abs (denominator_product m))) in
  exists v, precision m base = Zfloor v /\
            Rabs (v - (ld - lc)) <= (lc + ld) / 2 ^ 51.
Proof.
  intros Hb Hd Hc lc ld.
  exists (- mp_round (mp_round lc - mp_round ld)); split.
  - now apply precision_generic.
  - replace (- mp_round (mp_round lc - mp_round ld) - (ld - lc))
      with (- (mp_round (mp_round lc - mp_round ld) - (lc - ld))) by ring.
    rewrite Rabs_Ropp; apply digits_accuracy; now apply log_base_nonneg.
Qed.

Lemma IZR_margin (k : nat) (x y : Z) :
  ((2 ^ Z.of_nat k + 1) * x <= 2 ^ Z.of_nat k * y)%Z ->
  (2 ^ k + 1) * IZR x <= 2 ^ k * IZR y.
Proof.
  intro H; apply IZR_le in H.
  now rewrite !mult_IZR, plus_IZR, <- pow_IZR in H.
Qed.

(** X4: What the digits mean, away from the ends of a bracket.  Let the
    bit lengths of the cross term and of the denominator product add up
    to at most 2^(50-k).  If |den| / |cross| lies between base^e and
    base^(e+1) with a relative margin of 2^-k at both ends, [precision]
    is e; if |cross| / |den| does, it is -(e+1). *)
Theorem precision_digits (m : mat2) (base : Z) (e k : nat) :
  (2 <= base)%Z ->
  denominator_product m <> 0%Z -> cross_term m <> 0%Z ->
  ((Z.log2 (Z.abs (cross_term m)) + Z.log2 (Z.abs (denominator_product m))
    + 2) * 2 ^ Z.of_nat (S k) <= 2 ^ 51)%Z ->
  (((2 ^ Z.of_nat k + 1) * (base ^ Z.of_nat e * Z.abs (cross_term m))
    <= 2 ^ Z.of_nat k * Z.abs (denominator_product m))%Z ->
   ((2 ^ Z.of_nat k + 1) * Z.abs (denominator_product m)
    <= 2 ^ Z.of_nat k * (base ^ Z.of_nat (S e) * Z.abs (cross_term m)))%Z ->
   precision m base = Z.of_nat e) /\
  (((2 ^ Z.of_nat k + 1) * (base ^ Z.of_nat e * Z.abs (denominator_product m))
    <= 2 ^ Z.of_nat k * Z.abs (cross_term m))%Z ->
   ((2 ^ Z.of_nat k + 1) * Z.abs (cross_term m)
    <= 2 ^ Z.of_nat k * (base ^ Z.of_nat (S e)
                         * Z.abs (denominator_product m)))%Z ->
   precision m base = (- Z.of_nat (S e))%Z).
Proof.
  intros Hb Hd Hc Hs.
  destruct (precision_digits_close m base Hb Hd Hc) as (v & -> & Hv).
  set (C := Z.abs (cross_term m)) in *.
  set (D := Z.abs (denominator_product m)) in *.
  assert (HC : 1 <= IZR C) by (apply IZR_le; unfold C; lia).
  assert (HD : 1 <= IZR D) by (apply IZR_le; unfold D; lia).
  assert (HB : 1 < IZR base) by (apply IZR_lt; lia).
  pose proof (size_bound _ _ k Hc Hd Hs) as Hsize; fold C D in Hsize.
  unfold log_base in Hv.
  split; intros Hlo Hhi.
  - apply IZR_margin in Hlo, Hhi.
    rewrite mult_IZR, <- pow_IZR in Hlo, Hhi.
    destruct (bracket_core (IZR C) (IZR D) (IZR base) e k HC HD HB Hsize
                Hlo Hhi) as [H1 H2].
    rewrite INR_IZR_INZ in H1, H2.
    apply (floor_within _ _ _ _ Hv); lra.
  - apply IZR_margin in Hlo, Hhi.
    rewrite mult_IZR, <- pow_IZR in Hlo, Hhi.
    rewrite (Rplus_comm (ln (IZR C))) in Hsize.
    destruct (bracket_core (IZR D) (IZR C) (IZR base) e k HD HC HB Hsize
                Hlo Hhi) as [H1 H2].
    rewrite INR_IZR_INZ in H1, H2.
    apply (floor_within _ _ _ _ Hv);
      rewrite opp_IZR, Nat2Z.inj_succ, succ_IZR; lra.
Qed.

Lemma precision_digits_witness :
  precision (Mat 24 204 19 160) 10 = 1%Z /\
  precision (Mat 3 30010 2 10) 10 = (- 4)%Z.
Proof.
  split.
  - apply (proj1 (precision_digits (Mat 24 204 19 160) 10 1 3
                    ltac:(lia) ltac:(vm_compute; discriminate)
                    ltac:(vm_compute; discriminate)
                    ltac:(vm_compute; discriminate)));
      vm_compute; discriminate.
  - apply (proj2 (precision_digits (Mat 3 30010 2 10) 10 3 3
                    ltac:(lia) ltac:(vm_compute; discriminate)
                    ltac:(vm_compute; discriminate)
                    ltac:(vm_compute; discriminate)));
      vm_compute; discriminate.
Defined.

End PrecisionDigits.

(** ** Folded matrices advance several steps at once *)
Section FoldAlgebraFacts.
Import Poly Recurrence StepAlgebra FoldTransport FoldAlgebra.
Local Open Scope Z_scope.

Lemma mmul_assoc x y z : mmul (mmul x y) z = mmul x (mmul y z).
Proof. unfold mmul; cbn [m00 m01 m10 m11]; f_equal; ring. Qed.

Lemma mmul_identity_l x : mmul mat_identity x = x.
Proof.
  destruct x; unfold mmul, mat_identity; cbn [m00 m01 m10 m11]; f_equal; ring.
Qed.

Lemma mmul_identity_r x : mmul x mat_identity = x.
Proof.
  destruct x; unfold mmul, mat_identity; cbn [m00 m01 m10 m11]; f_equal; ring.
Qed.

Lemma mat_run_app f l1 l2 init :
  mat_run f (l1 ++ l2) init = mat_run f l2 (mat_run f l1 init).
Proof. unfold mat_run; apply fold_left_app. Qed.

(** A run from [init] is [init] times the run from the identity. *)
Lemma mat_run_init f l : forall init,
  mat_run f l init = mmul init (mat_run f l mat_identity).
Proof.
  unfold mat_run; induction l as [|k l IH]; intro init; cbn [fold_left].
  - now rewrite mmul_identity_r.
  - rewrite IH, (IH (mmul mat_identity (f k))), mmul_identity_l.
    apply mmul_assoc.
Qed.

Lemma pmat_eval_mul x y n :
  pmat_eval (pmat_mul x y) n = mmul (pmat_eval x n) (pmat_eval y n).
Proof.
  unfold pmat_eval, pmat_mul, mmul; cbn [c00 c01 c10 c11 m00 m01 m10 m11].
  now rewrite !peval_padd, !peval_pmul.
Qed.

Lemma pmat_eval_subs_lin k s m n :
  pmat_eval (pmat_subs_lin k s m) n = pmat_eval m (k * n + s).
Proof.
  unfold pmat_eval, pmat_subs_lin; cbn [c00 c01 c10 c11].
  now rewrite !peval_psubs_lin.
Qed.

Lemma pmat_eval_identity n : pmat_eval (PMat [1] [] [] [1]) n = mat_identity.
Proof.
  unfold pmat_eval, mat_identity; cbn [c00 c01 c10 c11 peval]; f_equal; ring.
Qed.

Lemma zrange_shift lo len :
  zrange lo len = map (fun i => lo + i) (zrange 0 len).
Proof.
  revert lo; induction len as [|len IH]; intro lo; cbn [zrange map].
  - reflexivity.
  - rewrite (IH (lo + 1)), (IH (0 + 1)), map_map.
    f_equal; [lia|]; apply map_ext; intro i; lia.
Qed.

Lemma mat_run_map f g l init :
  mat_run f (map g l) init = mat_run (fun i => f (g i)) l init.
Proof.
  unfold mat_run; revert init; induction l as [|i l IH]; intro init;
    cbn [map fold_left]; [reflexivity | apply IH].
Qed.

(** The folded matrix at n is the product of the matrix over the [factor]
    indices ending at [factor * n]. *)
Lemma fold_matrix_eval mat factor n :
  pmat_eval (fold_matrix mat factor) n
  = mat_run (pmat_eval mat)
            (zrange (factor * n - (factor - 1)) (Z.to_nat factor))
            mat_identity.
Proof.
  unfold fold_matrix.
  rewrite (zrange_shift (factor * n - (factor - 1))), mat_run_map.
  unfold mat_run.
  rewrite <- (pmat_eval_identity n).
  generalize (PMat [1] [] [] [1]).
  induction (zrange 0 (Z.to_nat factor)) as [|i l IH]; intro acc;
    cbn [fold_left]; [reflexivity|].
  rewrite IH, pmat_eval_mul, pmat_eval_subs_lin.
  do 3 f_equal; lia.
Qed.

End FoldAlgebraFacts.

Section FoldSteps.
Import Poly Recurrence StepAlgebra FoldTransport FoldAlgebra.
Local Open Scope Z_scope.

Lemma pmat_eval_M pcf k :
  pmat_eval (M pcf) k = CM_at (polyPCF (a pcf) (b pcf)) k.
Proof.
  unfold pmat_eval, M, CM_at, polyPCF;
    cbn [c00 c01 c10 c11 a_compute b_compute peval]; f_equal; ring.
Qed.

Lemma mat_run_ext f g l init :
  (forall k, f k = g k) -> mat_run f l init = mat_run g l init.
Proof.
  intro H; unfold mat_run; revert init.
  induction l as [|k l IH]; intro init; cbn [fold_left]; [reflexivity|].
  now rewrite H, IH.
Qed.

Lemma lirec_eval_mat_run pcf init depth :
  lirec_eval (polyPCF (a pcf) (b pcf)) init depth
  = mat_run (pmat_eval (M pcf)) (zrange 1 (Z.to_nat depth)) init.
Proof.
  unfold lirec_eval; symmetry; apply mat_run_ext, pmat_eval_M.
Qed.

(** Steps of the folded matrix against steps of the PCF. *)
Lemma fold_matrix_run pcf factor init :
  0 <= factor ->
  forall m : nat,
    mat_run (pmat_eval (fold_matrix (M pcf) factor)) (zrange 1 m) init
    = lirec_eval (polyPCF (a pcf) (b pcf)) init (factor * Z.of_nat m).
Proof.
  intros Hf m; induction m as [|m IH].
  - rewrite Z.mul_0_r; reflexivity.
  - replace (S m) with (m + 1)%nat by lia.
    rewrite zrange_app, mat_run_app, IH.
    cbn [zrange]; unfold mat_run at 1; cbn [fold_left].
    rewrite fold_matrix_eval, <- mat_run_init.
    rewrite (lirec_eval_split _ init (factor * Z.of_nat m)
               (factor * Z.of_nat (m + 1))) by nia.
    fold (mat_run (CM_at (polyPCF (a pcf) (b pcf)))).
    rewrite (mat_run_ext _ _ _ _ (pmat_eval_M pcf)).
    unfold mat_run.
    replace (factor * (1 + Z.of_nat m) - (factor - 1))
      with (1 + factor * Z.of_nat m) by lia.
    replace (Z.to_nat (factor * Z.of_nat (m + 1) - factor * Z.of_nat m))
      with (Z.to_nat factor) by lia.
    reflexivity.
Qed.

(** X10: Folding by [factor] advances [factor] steps per new step: the step
    matrix of the PCF at depth factor * m is the product, from the same
    initial conditions, of the folded matrix at n = 1..m. *)
Theorem fold_matrix_steps (pcf : FoldTransport.PCF) (factor m : Z)
        (init : mat2) :
  1 <= factor -> 1 <= m ->
  step (polyPCF (a pcf) (b pcf)) (factor * m) (Some init)
  = Ok (mat_run (pmat_eval (fold_matrix (M pcf) factor))
                (zrange 1 (Z.to_nat m)) init).
Proof.
  intros Hf Hm; unfold step.
  destruct (Z.ltb_spec (factor * m) 1) as [?|_]; [nia|].
  rewrite (fold_matrix_run pcf factor init ltac:(lia) (Z.to_nat m)).
  do 2 f_equal; lia.
Qed.

Lemma fold_matrix_steps_witness :
  step Recurrence.pcf_test (2 * 5) (Some (Mat 1 1 0 1))
  = Ok (mat_run (pmat_eval (fold_matrix (M FoldTransport.pcf_test) 2))
                (zrange 1 (Z.to_nat 5)) (Mat 1 1 0 1)).
Proof.
  apply (fold_matrix_steps FoldTransport.pcf_test 2 5 (Mat 1 1 0 1)); lia.
Defined.

End FoldSteps.

(** ** The coboundary relation and the Mobius transform *)
Section CoboundaryFacts.
Import Poly Recurrence StepAlgebra FoldTransport FoldAlgebra.
Local Open Scope Z_scope.

(** X11: The coboundary relation of as_pcf without deflation, at every index:
    g1(n) * matrix(n) * U(n+1) = g2(n) * U(n) * pcf.M(n), with
    pcf = as_pcf(matrix), U = as_pcf_cob(matrix) and
    (g1, g2) = as_pcf_polys(matrix). *)
Theorem as_pcf_coboundary
        (content : poly -> poly -> poly)
        (inflate_inv : FoldTransport.PCF -> poly -> FoldTransport.PCF)
        (matrix : pmat) (n : Z) :
  mscale (peval (fst (as_pcf_polys content inflate_inv matrix false)) n)
         (mmul (pmat_eval matrix n)
               (pmat_eval (as_pcf_cob content inflate_inv matrix false)
                          (n + 1)))
  = mscale (peval (snd (as_pcf_polys content inflate_inv matrix false)) n)
           (mmul (pmat_eval (as_pcf_cob content inflate_inv matrix false) n)
                 (pmat_eval (M (as_pcf content inflate_inv matrix false)) n)).
Proof.
  unfold as_pcf_polys, as_pcf_cob, as_pcf_eta, as_pcf, M.
  cbn [fst snd FoldTransport.a FoldTransport.b].
  unfold mscale, mmul, pmat_eval, pmat_mul; cbn [c00 c01 c10 c11 m00 m01 m10 m11].
  repeat rewrite ?peval_padd, ?peval_pmul, ?peval_pscale, ?peval_pshift.
  cbn [peval].
  replace (n + 1 + -1) with n by lia.
  replace (n + -1) with (n - 1) by lia.
  f_equal; ring.
Qed.

(** X12: For an object that provides M(), the transport of a limit across
    a fold raises SingularCoboundaryMatrixError exactly when eta(0), c(1)
    or c(0) vanishes, c the lower-left entry of the folded matrix and eta
    the content removed by deflation, whatever the limit; on an instance
    of the class PCF of unifier/pcf.py, which has no M(), the call raises
    AttributeError, and so does fold_pcf. *)
Theorem get_folded_pcf_limit_singular_at
        (content : poly -> poly -> poly)
        (inflate_inv : FoldTransport.PCF -> poly -> FoldTransport.PCF)
        (pcf : FoldTransport.PCF) (factor : Z) (limit : py_value)
        (deflate : bool) :
  (get_folded_pcf_limit content inflate_inv (MatrixPCF pcf) factor limit
                        deflate
   = Raise SingularCoboundaryMatrixError <->
   peval (as_pcf_eta content inflate_inv (fold_matrix (M pcf) factor) deflate)
         0 = 0 \/
   peval (c10 (fold_matrix (M pcf) factor)) 1 = 0 \/
   peval (c10 (fold_matrix (M pcf) factor)) 0 = 0) /\
  get_folded_pcf_limit content inflate_inv (UnifierPCF pcf) factor limit
                       deflate
  = Raise AttributeError /\
  fold_pcf content inflate_inv (UnifierPCF pcf) factor
  = Raise AttributeError.
Proof.
  split; [|split; reflexivity].
  unfold get_folded_pcf_limit; cbn [call_M pcf_of].
  pose proof (as_pcf_cob_det content inflate_inv
                (fold_matrix (M pcf) factor) deflate 1) as Hdet.
  replace (1 - 1) with 0 in Hdet by lia.
  destruct (Qeq_bool _ 0) eqn:Hb.
  - apply Qeq_bool_iff in Hb; rewrite Hdet in Hb.
    apply (proj1 (inject_Z_injective _ 0)) in Hb.
    split; [intros _ | reflexivity].
    apply Z.mul_eq_0 in Hb as [Hb|Hb]; [|right; right; exact Hb].
    apply Z.mul_eq_0 in Hb as [Hb|Hb]; [left | right; left]; exact Hb.
  - apply Qeq_bool_neq in Hb; split; [destruct limit; discriminate|].
    intro H; exfalso; apply Hb; rewrite Hdet.
    apply (proj2 (inject_Z_injective _ 0)).
    destruct H as [H|[H|H]]; rewrite H; ring.
Qed.

End CoboundaryFacts.

Section MobiusFacts.
Import FoldTransport FoldAlgebra.
Local Open Scope Q_scope.

Lemma Qeq_bool_scaled (x y k : Q) :
  x == y * k -> ~ k == 0 -> Qeq_bool x 0 = Qeq_bool y 0.
Proof.
  intros Hx Hk.
  destruct (Qeq_bool y 0) eqn:Hy.
  - apply Qeq_bool_iff in Hy; apply Qeq_bool_iff.
    rewrite Hx, Hy; ring.
  - apply Qeq_bool_neq in Hy.
    destruct (Qeq_bool x 0) eqn:Hx0; [|reflexivity].
    apply Qeq_bool_iff in Hx0; rewrite Hx in Hx0.
    apply Qmult_integral in Hx0 as [?|?]; contradiction.
Qed.

(** X13: The Mobius transform of a product of matrices is the composition of
    the transforms, whenever the inner transform is a number. *)
Theorem mobius_compose (A B : qmat) (z w : Q) :
  mobius B z = Num w ->
  sympy_eq (mobius (qmat_mul A B) z) (mobius A w).
Proof.
  unfold mobius, sympy_div.
  destruct (Qeq_bool (q10 B * z + q11 B) 0) eqn:Hden.
  { destruct (Qeq_bool (q00 B * z + q01 B) 0); discriminate. }
  apply Qeq_bool_neq in Hden.
  intro H; injection H as <-.
  set (k := q10 B * z + q11 B) in *.
  set (w := (q00 B * z + q01 B) / k).
  cbn [qmat_mul q00 q01 q10 q11].
  assert (HN : (q00 A * q00 B + q01 A * q10 B) * z
               + (q00 A * q01 B + q01 A * q11 B)
               == (q00 A * w + q01 A) * k)
    by (unfold w, k; field; exact Hden).
  assert (HD : (q10 A * q00 B + q11 A * q10 B) * z
               + (q10 A * q01 B + q11 A * q11 B)
               == (q10 A * w + q11 A) * k)
    by (unfold w, k; field; exact Hden).
  rewrite (Qeq_bool_scaled _ _ _ HN Hden), (Qeq_bool_scaled _ _ _ HD Hden).
  destruct (Qeq_bool (q10 A * w + q11 A) 0) eqn:Hd.
  - destruct (Qeq_bool (q00 A * w + q01 A) 0); exact I.
  - apply Qeq_bool_neq in Hd; cbn [sympy_eq].
    rewrite HN, HD; field; split; assumption.
Qed.

Lemma mobius_compose_witness :
  sympy_eq (mobius (qmat_mul (QMat 1 2 3 4) (QMat 0 1 1 1)) (1 # 2))
           (mobius (QMat 1 2 3 4) ((0 * (1 # 2) + 1) / (1 * (1 # 2) + 1))).
Proof.
  apply (mobius_compose (QMat 1 2 3 4) (QMat 0 1 1 1) (1 # 2)); reflexivity.
Defined.

End MobiusFacts.

(** ** Sorted sets of depths *)
Section SortedSetFacts.
Import Recurrence Dynamics DynamicsFits.
Local Open Scope Z_scope.

Lemma insert_uniq_In x y l : In y (insert_uniq x l) <-> y = x \/ In y l.
Proof.
  induction l as [|z l IH]; cbn [insert_uniq In]; [intuition|].
  destruct (Z.ltb_spec x z); [cbn [In]; intuition|].
  destruct (Z.eqb_spec x z) as [->|?]; cbn [In]; [intuition|].
  rewrite IH; intuition.
Qed.

Lemma sorted_set_In y l : In y (sorted_set l) <-> In y l.
Proof.
  unfold sorted_set; induction l as [|x l IH]; cbn [fold_right In];
    [reflexivity|].
  rewrite insert_uniq_In, IH; intuition.
Qed.

Lemma insert_uniq_increasing x l :
  increasing l -> increasing (insert_uniq x l).
Proof.
  induction l as [|z l IH]; cbn [insert_uniq increasing].
  - intros _; split; [intros y []|exact I].
  - intros [Hz Hl].
    destruct (Z.ltb_spec x z) as [Hlt|Hge].
    + cbn [increasing]; split; [|split; assumption].
      intros y [<-|Hy]; [assumption|]; specialize (Hz y Hy); lia.
    + destruct (Z.eqb_spec x z) as [->|Hne]; cbn [increasing];
        [split; assumption|].
      split; [|now apply IH].
      intros y Hy; apply insert_uniq_In in Hy as [->|Hy]; [lia | auto].
Qed.

Lemma sorted_set_increasing l : increasing (sorted_set l).
Proof.
  unfold sorted_set; induction l as [|x l IH]; cbn [fold_right];
    [exact I | now apply insert_uniq_increasing].
Qed.

Lemma increasing_head_min x l y :
  increasing (x :: l) -> In y (x :: l) -> x <= y.
Proof.
  intros [Hx _] [<-|Hy]; [lia|]; specialize (Hx y Hy); lia.
Qed.

Lemma increasing_last_max : forall l d y,
  increasing l -> In y l -> y <= last l d.
Proof.
  induction l as [|x l IH]; intros d y Hinc Hy; [destruct Hy|].
  destruct Hinc as [Hx Hl].
  destruct l as [|z l]; [destruct Hy as [<-|[]]; cbn; lia|].
  change (last (x :: z :: l) d) with (last (z :: l) d).
  destruct Hy as [<-|Hy]; [|now apply IH].
  specialize (Hx z (or_introl eq_refl)).
  specialize (IH d z Hl (or_introl eq_refl)); lia.
Qed.

Lemma last_In : forall (l : list Z) d, l <> [] -> In (last l d) l.
Proof.
  induction l as [|x l IH]; intros d Hne; [contradiction|].
  destruct l as [|z l]; [now left|].
  right; apply IH; discriminate.
Qed.

End SortedSetFacts.

(** ** What errors and q_reds return *)
Section ErrorsGeneral.
Import Recurrence Dynamics DynamicsFits.
Local Open Scope Z_scope.

Variable Limit : Type.
Variable pcf_limit_at : Z -> Limit.
Variable num : Type.
Variable as_float : Limit -> num.
Variable abs_diff : num -> num -> num.
Variable log10 : num -> num.
Variable log10_int : Z -> num.
Variable as_rational : Limit -> Z * Z.

Lemma map_nth_seq {A B : Type} (f : A -> B) (d : A) : forall l,
  map (fun i => f (nth i l d)) (seq 0 (length l)) = map f l.
Proof.
  induction l as [|x l IH]; [reflexivity|].
  cbn [length seq map nth]; f_equal.
  rewrite <- seq_shift, map_map; exact IH.
Qed.

Lemma map_result_all {A B : Type} (f : A -> result B) (g : A -> B) :
  forall l, (forall x, In x l -> f x = Ok (g x)) ->
            map_result f l = Ok (map g l).
Proof.
  induction l as [|x l IH]; intro H; [reflexivity|].
  cbn [map_result map]; rewrite (H x (or_introl eq_refl)), IH; auto.
  intros y Hy; apply H; now right.
Qed.

(** The list [errors] builds from the limits it asked for. *)
Lemma errors_list (depths extra : list Z) (lim : num) :
  map (fun i => abs_diff lim
                  (as_float (nth i (pcf_limit Limit pcf_limit_at
                                      (map (fun d => d + CIDS) depths
                                       ++ extra))
                                 (pcf_limit_at 0))))
      (seq 0 (length depths))
  = map (fun d => abs_diff lim (as_float (pcf_limit_at (d + CIDS)))) depths.
Proof.
  unfold pcf_limit.
  rewrite <- (map_nth_seq
                (fun d => abs_diff lim (as_float (pcf_limit_at (d + CIDS))))
                0 depths).
  apply map_ext_in; intros i Hi; apply in_seq in Hi.
  rewrite (map_nth pcf_limit_at), app_nth1 by (rewrite length_map; lia).
  rewrite (nth_indep _ 0 (0 + CIDS)) by (rewrite length_map; lia).
  now rewrite (map_nth (fun d => d + CIDS)).
Qed.

Lemma sorted_set_min_ge_1 (l : list Z) (d0 : Z) (rest : list Z) :
  (forall d, In d l -> 1 <= d) -> sorted_set l = d0 :: rest -> 1 <= d0.
Proof.
  intros H E; apply H, sorted_set_In; rewrite E; now left.
Qed.

Lemma sorted_set_nonempty (l : list Z) : l <> [] -> sorted_set l <> [].
Proof.
  destruct l as [|x l]; [contradiction|]; intros _ E.
  assert (Hx : In x (sorted_set (x :: l))) by (apply sorted_set_In; now left).
  rewrite E in Hx; destruct Hx.
Qed.

End ErrorsGeneral.

Section ErrorsTheorems.
Import Recurrence Dynamics DynamicsFits.
Local Open Scope Z_scope.

Variable Limit : Type.
Variable pcf_limit_at : Z -> Limit.
Variable num : Type.
Variable as_float : Limit -> num.
Variable abs_diff : num -> num -> num.
Variable log10 : num -> num.
Variable log10_int : Z -> num.
Variable as_rational : Limit -> Z * Z.

(** X15: On a nonempty list of positive depths [errors] returns, for each
    distinct depth d in increasing order, |limit - convergent| with the
    convergent read at iteration d + CIDS; without a limit, the limit is
    read at iteration 2 * (largest depth) + CIDS. *)
Theorem errors_value (depths : list Z) (limit : option num) (log : bool) :
  depths <> [] -> (forall d, In d depths -> 1 <= d) ->
  errors Limit pcf_limit_at num as_float abs_diff log10 depths limit log
  = let lim := match limit with
               | Some l => l
               | None => as_float (pcf_limit_at
                                     (2 * last (sorted_set depths) 0 + CIDS))
               end in
    let errs := map (fun d => abs_diff lim
                                (as_float (pcf_limit_at (d + CIDS))))
                    (sorted_set depths) in
    Ok (if log then map log10 errs else errs).
Proof.
  intros Hne Hpos; unfold errors.
  pose proof (sorted_set_nonempty depths Hne) as Hs.
  destruct (sorted_set depths) as [|d0 rest] eqn:E; [contradiction|].
  pose proof (sorted_set_min_ge_1 depths d0 rest Hpos E) as Hd0.
  unfold check_positive; destruct (Z.ltb_spec d0 1) as [?|_]; [lia|].
  destruct limit as [l|].
  - rewrite <- (app_nil_r (map _ (d0 :: rest))), errors_list; reflexivity.
  - rewrite errors_list.
    unfold pcf_limit; rewrite map_app; cbn [map].
    rewrite last_last; reflexivity.
Qed.

(** X16: On a nonempty list of positive depths [q_reds] returns, for each
    distinct depth d in increasing order, the reduced denominator of the
    convergent read at iteration d + CIDS - 1. *)
Theorem q_reds_value (depths : list Z) (log : bool) :
  depths <> [] -> (forall d, In d depths -> 1 <= d) ->
  q_reds Limit pcf_limit_at num log10_int as_rational depths log
  = let qs := map (fun d => q_red Limit as_rational
                              (pcf_limit_at (d + CIDS - 1)))
                  (sorted_set depths) in
    Ok (if log then inr (map log10_int qs) else inl qs).
Proof.
  intros Hne Hpos; unfold q_reds.
  pose proof (sorted_set_nonempty depths Hne) as Hs.
  pose proof (sorted_set_increasing depths) as Hinc.
  assert (Hall : forall d, In d (sorted_set depths) ->
                           1 <= d <= last (sorted_set depths) 0).
  { intros d Hd; split; [now apply Hpos, sorted_set_In|].
    now apply increasing_last_max. }
  destruct (sorted_set depths) as [|d0 rest] eqn:E; [contradiction|].
  set (l := d0 :: rest) in *; set (lst := last l 0) in *.
  assert (Hlast : 1 <= lst)
    by (destruct (Hall lst (last_In l 0 Hs)) as [H1 _]; exact H1).
  unfold check_positive; destruct (Z.ltb_spec lst 1) as [?|_]; [lia|].
  rewrite (map_result_all _
             (fun d => q_red Limit as_rational
                         (pcf_limit_at (d + CIDS - 1)))); [reflexivity|].
  intros d Hd; specialize (Hall d Hd).
  unfold depth_to_ind, py_range.
  rewrite zrange_length, dict_get_enumerate by lia.
  unfold pcf_limit.
  rewrite (nth_indep _ _ (pcf_limit_at (d + CIDS - 1)))
    by (rewrite length_map, zrange_length; unfold CIDS; lia).
  rewrite (map_nth pcf_limit_at), (nth_zrange _ _ CIDS)
    by (unfold CIDS; lia).
  do 3 f_equal; unfold CIDS; lia.
Qed.

End ErrorsTheorems.

Section ErrorsEdges.
Import Recurrence Dynamics DynamicsFits.
Local Open Scope Z_scope.

Variable Limit : Type.
Variable pcf_limit_at : Z -> Limit.
Variable num : Type.
Variable as_float : Limit -> num.
Variable abs_diff : num -> num -> num.
Variable log10 : num -> num.
Variable log10_int : Z -> num.
Variable as_rational : Limit -> Z * Z.

Lemma dict_get_missing key : forall len lo s,
  key < lo -> dict_get (combine (zrange lo len) (seq s len)) key
              = Raise KeyError.
Proof.
  induction len as [|len IH]; intros lo s H; [reflexivity|].
  cbn [zrange seq combine dict_get].
  destruct (Z.eqb_spec lo key) as [?|_]; [lia|].
  apply IH; lia.
Qed.

(** The smallest of the depths decides [errors]. *)
Lemma errors_below_1 (depths : list Z) (limit : option num) (log : bool)
      (d : Z) :
  In d depths -> d < 1 ->
  errors Limit pcf_limit_at num as_float abs_diff log10 depths limit log
  = Raise ValueError.
Proof.
  intros Hd Hlt; unfold errors.
  pose proof (sorted_set_increasing depths) as Hinc.
  apply sorted_set_In in Hd.
  destruct (sorted_set depths) as [|d0 rest]; [destruct Hd|].
  pose proof (increasing_head_min d0 rest d Hinc Hd).
  unfold check_positive; destruct (Z.ltb_spec d0 1); [reflexivity | lia].
Qed.

(** [q_reds] validates the largest depth only; a smaller depth below 1 is
    found missing from the index table. *)
Lemma q_reds_missing_key (depths : list Z) (log : bool) (d d' : Z) :
  In d depths -> d < 1 -> In d' depths -> 1 <= d' ->
  q_reds Limit pcf_limit_at num log10_int as_rational depths log
  = Raise KeyError.
Proof.
  intros Hd Hlt Hd' Hge; unfold q_reds.
  pose proof (sorted_set_increasing depths) as Hinc.
  apply sorted_set_In in Hd, Hd'.
  pose proof (increasing_last_max _ 0 d' Hinc Hd') as Hmax.
  destruct (sorted_set depths) as [|d0 rest]; [destruct Hd|].
  pose proof (increasing_head_min d0 rest d Hinc Hd) as Hmin.
  set (lst := last (d0 :: rest) 0) in *.
  unfold check_positive; destruct (Z.ltb_spec lst 1) as [?|_]; [lia|].
  cbn [map_result]; unfold depth_to_ind, py_range.
  rewrite zrange_length, dict_get_missing by lia; reflexivity.
Qed.

Lemma q_reds_all_below_1 (depths : list Z) (log : bool) :
  depths <> [] -> (forall d, In d depths -> d < 1) ->
  q_reds Limit pcf_limit_at num log10_int as_rational depths log
  = Raise ValueError.
Proof.
  intros Hne Hall; unfold q_reds.
  pose proof (sorted_set_nonempty depths Hne) as Hs.
  assert (Hlast : last (sorted_set depths) 0 < 1)
    by (apply Hall, sorted_set_In, last_In, Hs).
  destruct (sorted_set depths) as [|d0 rest]; [contradiction|].
  unfold check_positive.
  destruct (Z.ltb_spec (last (d0 :: rest) 0) 1); [reflexivity | lia].
Qed.

(** X17: How [errors] and [q_reds] fail: both raise IndexError on an empty
    list; [errors] raises ValueError as soon as one depth is below 1;
    [q_reds] raises ValueError only when all depths are below 1, and
    KeyError when a depth below 1 comes with a positive one. *)
Theorem errors_q_reds_failures (depths : list Z) (limit : option num)
        (log : bool) :
  errors Limit pcf_limit_at num as_float abs_diff log10 [] limit log
  = Raise IndexError /\
  q_reds Limit pcf_limit_at num log10_int as_rational [] log
  = Raise IndexError /\
  ((exists d, In d depths /\ d < 1) ->
   errors Limit pcf_limit_at num as_float abs_diff log10 depths limit log
   = Raise ValueError) /\
  (depths <> [] -> (forall d, In d depths -> d < 1) ->
   q_reds Limit pcf_limit_at num log10_int as_rational depths log
   = Raise ValueError) /\
  ((exists d, In d depths /\ d < 1) -> (exists d, In d depths /\ 1 <= d) ->
   q_reds Limit pcf_limit_at num log10_int as_rational depths log
   = Raise KeyError).
Proof.
  split; [reflexivity|]; split; [reflexivity|]; split; [|split].
  - intros (d & Hd & Hlt); exact (errors_below_1 depths limit log d Hd Hlt).
  - apply q_reds_all_below_1.
  - intros (d & Hd & Hlt) (d' & Hd' & Hge).
    exact (q_reds_missing_key depths log d d' Hd Hlt Hd' Hge).
Qed.

End ErrorsEdges.

Section FitFacts.
Import Recurrence Dynamics DynamicsFits.
Local Open Scope Z_scope.

(** X18: The fits of PCFDynamics need depth >= 8: for every depth from 1 to 7
    the fit depths contain depth // 8 = 0, so convergence_rate raises
    ValueError (from errors) and the first fit of q_reduced_growth_rate
    raises KeyError (from q_reds), whatever the other arguments; from
    depth 8 on every fit depth is positive. *)
Theorem fits_need_depth_8
        (Limit : Type) (pcf_limit_at : Z -> Limit) (num : Type)
        (as_float : Limit -> num) (abs_diff : num -> num -> num)
        (log10 : num -> num) (log10_int : Z -> num)
        (as_rational : Limit -> Z * Z)
        (is_zero : num -> bool) (add_epsilon : num -> num)
        (params : Type) (curve_fit : bool -> list Z -> list num -> result params)
        (depth : Z) (limit : option num) (fit_NOA as_in_blind_delta : bool) :
  (1 <= depth <= 7 ->
   convergence_rate Limit pcf_limit_at num as_float abs_diff log10
                    is_zero add_epsilon params curve_fit depth limit fit_NOA
   = Raise ValueError /\
   q_reduced_first_fit Limit pcf_limit_at num log10_int as_rational
                       params curve_fit depth fit_NOA as_in_blind_delta
   = Raise KeyError) /\
  (8 <= depth -> forall d, In d (depths_for_fit depth) -> 1 <= d).
Proof.
  split.
  - intro Hd.
    assert (H0 : In (depth / 8) (depths_for_fit depth))
      by (apply sorted_set_In; cbn [In]; auto).
    assert (H6 : In 6 (depths_for_fit depth))
      by (apply sorted_set_In; cbn [In]; auto).
    assert (Hz : depth / 8 < 1) by (rewrite Z.div_small; lia).
    unfold convergence_rate, q_reduced_first_fit, check_positive.
    destruct (Z.ltb_spec depth 1) as [?|_]; [lia|]; split.
    + now rewrite (errors_below_1 Limit pcf_limit_at num as_float abs_diff
                     log10 _ limit false (depth / 8) H0 Hz).
    + now rewrite (q_reds_missing_key Limit pcf_limit_at num log10_int
                     as_rational _ true (depth / 8) 6 H0 Hz H6 ltac:(lia)).
  - intros Hd d Hin; unfold depths_for_fit in Hin.
    apply (proj1 (sorted_set_In _ _)) in Hin; cbn [In] in Hin.
    pose proof (Z.div_le_lower_bound depth 8 1 ltac:(lia) ltac:(lia)).
    pose proof (Z.div_le_lower_bound depth 4 1 ltac:(lia) ltac:(lia)).
    pose proof (Z.div_le_lower_bound depth 2 1 ltac:(lia) ltac:(lia)).
    destruct Hin as [E|[E|[E|[E|[E|E]]]]]; first [contradiction | lia].
Qed.

Lemma fits_need_depth_8_witness :
  convergence_rate Z (fun i => i) Z (fun x => x) (fun x y => Z.abs (x - y))
                   (fun x => x) (fun x => x =? 0) (fun x => x + 1) (list Z)
                   (fun _ ds _ => Ok ds) 7 None false
  = Raise ValueError /\
  depths_for_fit 2000 = [6; 250; 500; 1000; 2000].
Proof.
  split; [|reflexivity].
  apply (fits_need_depth_8 Z (fun i => i) Z (fun x => x)
           (fun x y => Z.abs (x - y)) (fun x => x) (fun x => x)
           (fun l => (1, l)) (fun x => x =? 0) (fun x => x + 1) (list Z)
           (fun _ ds _ => Ok ds) 7 None false false); lia.
Defined.

End FitFacts.

Section ErrorsWitnesses.
Import Recurrence Dynamics DynamicsFits.
Local Open Scope Z_scope.

Lemma errors_value_witness :
  errors Z (fun i => i) Z (fun x => x) (fun x y => Z.abs (x - y))
         (fun x => x) [3; 1; 3] (Some 100) false
  = Ok [97; 95].
Proof.
  rewrite (errors_value Z (fun i => i) Z (fun x => x)
             (fun x y => Z.abs (x - y)) (fun x => x) [3; 1; 3] (Some 100)
             false); [reflexivity | discriminate |].
  intros d Hd; cbn [In] in Hd; lia.
Defined.

Lemma q_reds_value_witness :
  q_reds Z (fun i => i) Z (fun x => x) (fun i => (1, i)) [3; 1; 3] false
  = Ok (inl [2; 4]).
Proof.
  rewrite (q_reds_value Z (fun i => i) Z (fun x => x) (fun i => (1, i))
             [3; 1; 3] false); [reflexivity | discriminate |].
  intros d Hd; cbn [In] in Hd; lia.
Defined.

Lemma errors_q_reds_failures_witness :
  errors Z (fun i => i) Z (fun x => x) (fun x y => Z.abs (x - y))
         (fun x => x) [3; 0] None false
  = Raise ValueError /\
  q_reds Z (fun i => i) Z (fun x => x) (fun i => (1, i)) [3; 0] false
  = Raise KeyError /\
  q_reds Z (fun i => i) Z (fun x => x) (fun i => (1, i)) [0; -1] false
  = Raise ValueError.
Proof.
  split; [|split].
  - apply (errors_q_reds_failures Z (fun i => i) Z (fun x => x)
             (fun x y => Z.abs (x - y)) (fun x => x) (fun x => x)
             (fun i => (1, i)) [3; 0] None false).
    exists 0; cbn [In]; split; [auto | lia].
  - apply (errors_q_reds_failures Z (fun i => i) Z (fun x => x)
             (fun x y => Z.abs (x - y)) (fun x => x) (fun x => x)
             (fun i => (1, i)) [3; 0] None false).
    + exists 0; cbn [In]; split; [auto | lia].
    + exists 3; cbn [In]; split; [auto | lia].
  - apply (errors_q_reds_failures Z (fun i => i) Z (fun x => x)
             (fun x y => Z.abs (x - y)) (fun x => x) (fun x => x)
             (fun i => (1, i)) [0; -1] None false).
    + discriminate.
    + intros d Hd; cbn [In] in Hd; lia.
Defined.

End ErrorsWitnesses.

(** ** What Delta and compute_dynamics return *)
Section ComputeDynamicsValues.
Import Recurrence Dynamics DynamicsFits.
Local Open Scope Z_scope.

Variable delta_at : Z -> result xfloat.
Variable convergence_rate_at : Z -> result xfloat.
Variables max_iters depth_shift : Z.

Lemma delta_retry_first (v : xfloat) :
  xfloat_is_pos_inf v = false ->
  forall (k : nat) (b : bool) (D i : Z) (fuel : nat),
    (forall j, (j < k)%nat ->
       delta_try_fails (delta_at (D + Z.of_nat j * depth_shift)) = true) ->
    delta_at (D + Z.of_nat k * depth_shift) = Ok v ->
    i + Z.of_nat k < max_iters ->
    (k + 2 <= fuel)%nat ->
    delta_retry delta_at fuel max_iters depth_shift
      {| value := PosInf; success := b; depth_now := D; iters := i |}
    = Some {| value := v; success := true;
              depth_now := D + (Z.of_nat k + 1) * depth_shift;
              iters := i + Z.of_nat k + 1 |}.
Proof.
  intro Hv; induction k as [|k IH]; intros b D i fuel Hfail Hk Hi Hfuel.
  - destruct fuel as [|[|fuel]]; [lia | lia |].
    rewrite Z.mul_0_l, Z.add_0_r in Hk.
    cbn [delta_retry value success iters depth_now xfloat_is_pos_inf orb].
    destruct (Z.ltb_spec i max_iters) as [_|?]; [|lia].
    cbn [andb]; rewrite Hk, Hv.
    cbn [orb negb andb]; do 2 f_equal; lia.
  - destruct fuel as [|fuel]; [lia|].
    cbn [delta_retry value success iters depth_now xfloat_is_pos_inf orb].
    destruct (Z.ltb_spec i max_iters) as [_|?]; [|lia].
    cbn [andb].
    pose proof (Hfail 0%nat ltac:(lia)) as H0.
    rewrite Z.mul_0_l, Z.add_0_r in H0.
    assert (Hnext : forall b',
      delta_retry delta_at fuel max_iters depth_shift
        {| value := PosInf; success := b';
           depth_now := D + depth_shift; iters := i + 1 |}
      = Some {| value := v; success := true;
                depth_now := D + (Z.of_nat (S k) + 1) * depth_shift;
                iters := i + Z.of_nat (S k) + 1 |}).
    { intro b'; rewrite (IH b' (D + depth_shift) (i + 1) fuel).
      - do 2 f_equal; lia.
      - intros j Hj; specialize (Hfail (S j) ltac:(lia)).
        rewrite <- Hfail; do 2 f_equal; lia.
      - rewrite <- Hk; f_equal; lia.
      - lia.
      - lia. }
    destruct (delta_at D) as [d|e]; cbn [delta_try_fails] in H0.
    + destruct d; try discriminate H0.
      cbn [xfloat_is_pos_inf]; apply Hnext.
    + apply Hnext.
Qed.

Lemma delta_retry_all_fail :
  forall (n : nat) (b : bool) (D i : Z) (fuel : nat),
    (forall j : nat, i + Z.of_nat j < max_iters ->
       delta_try_fails (delta_at (D + Z.of_nat j * depth_shift)) = true) ->
    max_iters - i <= Z.of_nat n ->
    (n < fuel)%nat ->
    exists s', delta_retry delta_at fuel max_iters depth_shift
                 {| value := PosInf; success := b;
                    depth_now := D; iters := i |} = Some s' /\
               value s' = PosInf.
Proof.
  induction n as [|n IH]; intros b D i fuel Hfail Hn Hfuel;
    (destruct fuel as [|fuel]; [lia|]);
    cbn [delta_retry value success iters depth_now xfloat_is_pos_inf orb].
  - destruct (Z.ltb_spec i max_iters) as [?|_]; [lia|].
    cbn [andb]; eexists; split; reflexivity.
  - destruct (Z.ltb_spec i max_iters) as [Hlt|_];
      [|cbn [andb]; eexists; split; reflexivity].
    cbn [andb].
    pose proof (Hfail 0%nat ltac:(lia)) as H0.
    rewrite Z.mul_0_l, Z.add_0_r in H0.
    assert (Hnext : forall b', exists s',
      delta_retry delta_at fuel max_iters depth_shift
        {| value := PosInf; success := b';
           depth_now := D + depth_shift; iters := i + 1 |} = Some s' /\
      value s' = PosInf).
    { intro b'; apply IH; [|lia|lia].
      intros j Hj; specialize (Hfail (S j) ltac:(lia)).
      rewrite <- Hfail; do 2 f_equal; lia. }
    destruct (delta_at D) as [d|e]; cbn [delta_try_fails] in H0.
    + destruct d; try discriminate H0.
      cbn [xfloat_is_pos_inf]; apply Hnext.
    + apply Hnext.
Qed.

End ComputeDynamicsValues.

Section ConvrateValues.
Import Recurrence Dynamics DynamicsFits.
Local Open Scope Z_scope.

Variable convergence_rate_at : Z -> result xfloat.
Variables max_iters depth_shift : Z.

Lemma convrate_retry_first (c : xfloat) :
  forall (k : nat) (c0 : xfloat) (D i : Z) (fuel : nat),
    (forall j, (j < k)%nat ->
       convrate_try_fails
         (convergence_rate_at (D + Z.of_nat j * depth_shift)) = true) ->
    convergence_rate_at (D + Z.of_nat k * depth_shift) = Ok c ->
    i + Z.of_nat k < max_iters ->
    (k + 2 <= fuel)%nat ->
    convrate_retry convergence_rate_at fuel max_iters depth_shift
      {| value := c0; success := false; depth_now := D; iters := i |}
    = Some {| value := c; success := true;
              depth_now := D + (Z.of_nat k + 1) * depth_shift;
              iters := i + Z.of_nat k + 1 |}.
Proof.
  induction k as [|k IH]; intros c0 D i fuel Hfail Hk Hi Hfuel.
  - destruct fuel as [|[|fuel]]; [lia | lia |].
    rewrite Z.mul_0_l, Z.add_0_r in Hk.
    cbn [convrate_retry value success iters depth_now negb].
    destruct (Z.ltb_spec i max_iters) as [_|?]; [|lia].
    cbn [andb]; rewrite Hk; cbn [negb andb]; do 2 f_equal; lia.
  - destruct fuel as [|fuel]; [lia|].
    cbn [convrate_retry value success iters depth_now negb].
    destruct (Z.ltb_spec i max_iters) as [_|?]; [|lia].
    cbn [andb].
    pose proof (Hfail 0%nat ltac:(lia)) as H0.
    rewrite Z.mul_0_l, Z.add_0_r in H0.
    destruct (convergence_rate_at D) as [d|e]; [discriminate H0|].
    rewrite (IH c0 (D + depth_shift) (i + 1) fuel).
    + do 2 f_equal; lia.
    + intros j Hj; specialize (Hfail (S j) ltac:(lia)).
      rewrite <- Hfail; do 2 f_equal; lia.
    + rewrite <- Hk; f_equal; lia.
    + lia.
    + lia.
Qed.

Lemma convrate_retry_all_fail :
  forall (n : nat) (c0 : xfloat) (D i : Z) (fuel : nat),
    (forall j : nat, i + Z.of_nat j < max_iters ->
       convrate_try_fails
         (convergence_rate_at (D + Z.of_nat j * depth_shift)) = true) ->
    max_iters - i <= Z.of_nat n ->
    (n < fuel)%nat ->
    exists s', convrate_retry convergence_rate_at fuel max_iters depth_shift
                 {| value := c0; success := false;
                    depth_now := D; iters := i |} = Some s' /\
               value s' = c0.
Proof.
  induction n as [|n IH]; intros c0 D i fuel Hfail Hn Hfuel;
    (destruct fuel as [|fuel]; [lia|]);
    cbn [convrate_retry value success iters depth_now negb].
  - destruct (Z.ltb_spec i max_iters) as [?|_]; [lia|].
    cbn [andb]; eexists; split; reflexivity.
  - destruct (Z.ltb_spec i max_iters) as [Hlt|_];
      [|cbn [andb]; eexists; split; reflexivity].
    cbn [andb].
    pose proof (Hfail 0%nat ltac:(lia)) as H0.
    rewrite Z.mul_0_l, Z.add_0_r in H0.
    destruct (convergence_rate_at D) as [d|e]; [discriminate H0|].
    apply IH; [|lia|lia].
    intros j Hj; specialize (Hfail (S j) ltac:(lia)).
    rewrite <- Hfail; do 2 f_equal; lia.
Qed.

End ConvrateValues.

Section DynamicsValues.
Import Recurrence Dynamics DynamicsFits.
Local Open Scope Z_scope.

(** X19: compute_dynamics returns the first usable results: as delta the
    first float that is not +inf among the tries at depth,
    depth + depth_shift, ... (earlier tries raising or returning +inf), and
    as convergence rate the first try that does not raise, provided both
    come within max_iters tries. *)
Theorem compute_dynamics_first_success
        (delta_at convergence_rate_at : Z -> result xfloat)
        (depth max_iters depth_shift : Z) (k k' : nat) (v c : xfloat)
        (fuel : nat) :
  (forall j, (j < k)%nat ->
     delta_try_fails (delta_at (depth + Z.of_nat j * depth_shift)) = true) ->
  delta_at (depth + Z.of_nat k * depth_shift) = Ok v ->
  xfloat_is_pos_inf v = false ->
  Z.of_nat k < max_iters ->
  (forall j, (j < k')%nat ->
     convrate_try_fails
       (convergence_rate_at (depth + Z.of_nat j * depth_shift)) = true) ->
  convergence_rate_at (depth + Z.of_nat k' * depth_shift) = Ok c ->
  Z.of_nat k' < max_iters ->
  (k + 2 <= fuel)%nat -> (k' + 2 <= fuel)%nat ->
  compute_dynamics delta_at convergence_rate_at fuel
                   depth max_iters depth_shift = Some (v, c).
Proof.
  intros Hfail Hk Hv Hlt Hfail' Hk' Hlt' Hfuel Hfuel'.
  unfold compute_dynamics, compute_dynamics_states.
  rewrite (delta_retry_first delta_at max_iters depth_shift v Hv k
             false depth 0 fuel Hfail Hk ltac:(lia) Hfuel).
  rewrite (convrate_retry_first convergence_rate_at max_iters depth_shift c
             k' (Finite 0) depth 0 fuel Hfail' Hk' ltac:(lia) Hfuel').
  reflexivity.
Qed.

(** X20: compute_dynamics never raises and falls back on defaults: when every
    try of delta within max_iters raises or returns +inf and every try of
    the convergence rate raises, it returns (+inf, 0). *)
Theorem compute_dynamics_defaults
        (delta_at convergence_rate_at : Z -> result xfloat)
        (depth max_iters depth_shift : Z) (fuel : nat) :
  (forall j : nat, Z.of_nat j < max_iters ->
     delta_try_fails (delta_at (depth + Z.of_nat j * depth_shift)) = true) ->
  (forall j : nat, Z.of_nat j < max_iters ->
     convrate_try_fails
       (convergence_rate_at (depth + Z.of_nat j * depth_shift)) = true) ->
  (Z.to_nat max_iters < fuel)%nat ->
  compute_dynamics delta_at convergence_rate_at fuel
                   depth max_iters depth_shift = Some (PosInf, Finite 0).
Proof.
  intros Hfail Hfail' Hfuel.
  unfold compute_dynamics, compute_dynamics_states.
  destruct (delta_retry_all_fail delta_at max_iters depth_shift
              (Z.to_nat max_iters) false depth 0 fuel)
    as (s1 & E1 & V1); [exact Hfail | lia | lia |].
  destruct (convrate_retry_all_fail convergence_rate_at max_iters depth_shift
              (Z.to_nat max_iters) (Finite 0) depth 0 fuel)
    as (s2 & E2 & V2); [exact Hfail' | lia | lia |].
  now rewrite E1, E2, V1, V2.
Qed.

(** X21: How Delta fails: a depth below 1 raises ValueError before anything is
    computed; with a negative max_shift +infinity is returned without a
    single try; an exception of the first try is passed on. *)
Theorem delta_edges
        (pcf_delta : Z -> Z -> result delta_value)
        (fuel : nat) (depth shift_step max_shift : Z) :
  (depth < 1 ->
   delta pcf_delta fuel depth shift_step max_shift
   = Some (Raise ValueError)) /\
  (1 <= depth -> max_shift < 0 -> (1 <= fuel)%nat ->
   delta pcf_delta fuel depth shift_step max_shift
   = Some (Ok (Some PosInf))) /\
  (1 <= depth -> 0 <= max_shift -> (1 <= fuel)%nat ->
   forall e, pcf_delta 0 (depth + CIDS) = Raise e ->
             delta pcf_delta fuel depth shift_step max_shift
             = Some (Raise e)).
Proof.
  unfold delta, check_positive; split; [|split].
  - intro H; destruct (Z.ltb_spec depth 1); [reflexivity | lia].
  - intros Hd Hm Hf; destruct (Z.ltb_spec depth 1); [lia|].
    destruct fuel as [|fuel]; [lia|]; cbn [delta_loop is_pos_inf].
    destruct (Z.gtb_spec 0 max_shift); [reflexivity | lia].
  - intros Hd Hm Hf e He; destruct (Z.ltb_spec depth 1); [lia|].
    destruct fuel as [|fuel]; [lia|]; cbn [delta_loop is_pos_inf].
    destruct (Z.gtb_spec 0 max_shift); [lia|].
    now rewrite He.
Qed.

End DynamicsValues.

Section DynamicsValueWitnesses.
Import Recurrence Dynamics DynamicsFits.
Local Open Scope Z_scope.

Lemma compute_dynamics_first_success_witness :
  compute_dynamics
    (fun d => if d =? 2000 then Raise TypeError
              else if d =? 2100 then Ok PosInf else Ok (Finite (-1)))
    (fun d => if d =? 2000 then Raise ValueError else Ok (Finite (1 # 2)))
    4 2000 5 100
  = Some (Finite (-1), Finite (1 # 2)).
Proof.
  apply (compute_dynamics_first_success _ _ 2000 5 100 2 1).
  - intros [|[|j]] Hj; [reflexivity | reflexivity | lia].
  - reflexivity.
  - reflexivity.
  - lia.
  - intros [|j] Hj; [reflexivity | lia].
  - reflexivity.
  - lia.
  - lia.
  - lia.
Defined.

Lemma compute_dynamics_defaults_witness :
  compute_dynamics delta_at_raises convergence_rate_at_raises 6 2000 5 100
  = Some (PosInf, Finite 0).
Proof.
  apply compute_dynamics_defaults; [reflexivity | reflexivity | simpl; lia].
Defined.

Lemma delta_edges_witness :
  delta delta_always_inf 1 0 5 10 = Some (Raise ValueError) /\
  delta delta_after_shift 1 1 5 (-1) = Some (Ok (Some PosInf)) /\
  delta (fun _ _ => Raise KeyError) 1 1 5 10 = Some (Raise KeyError).
Proof.
  split; [|split].
  - apply (proj1 (delta_edges delta_always_inf 1 0 5 10)); lia.
  - apply (proj1 (proj2 (delta_edges delta_after_shift 1 1 5 (-1)))); lia.
  - apply (proj2 (proj2 (delta_edges (fun _ _ => Raise KeyError) 1 1 5 10)));
      [lia | lia | lia | reflexivity].
Defined.

End DynamicsValueWitnesses.

(** ** Inflation and deflation compose *)
Section InflationRoundTrip.
Import Inflation.

Variable T : Toolkit.
Hypothesis laws : ToolkitLaws T.

Add Ring toolkit_ring5 : (tk_ring T laws).

Local Notation "0" := (tzero T).
Local Infix "*" := (tmul T).

Lemma fmul_den_nonzero (x y : frac T) :
  den x <> 0 -> den y <> 0 -> den (fmul x y) <> 0.
Proof. intros; cbn [fmul den]; now apply (tmul_nonzero T laws). Qed.

(** Cancelling a product with a cancelled factor. *)
Lemma canon_fmul_canon (x c : frac T) :
  den x <> 0 -> den c <> 0 ->
  feq (canon (fmul (canon x) c)) (fmul x c).
Proof.
  intros Hx Hc.
  pose proof (canon_den_nonzero T laws x Hx) as Hx'.
  apply (feq_trans T laws _ (fmul (canon x) c)).
  - now apply fmul_den_nonzero.
  - apply (canon_feq T laws); now apply fmul_den_nonzero.
  - apply (fmul_feq T laws), (canon_feq T laws); assumption.
Qed.

Lemma fmul_finv_feq (x c : frac T) : feq (fmul (fmul x c) (finv c)) x.
Proof. unfold feq, fmul, finv; cbn [num den]; ring. Qed.

Lemma fmul2_finv_feq (x c s : frac T) :
  feq (fmul (fmul (fmul (fmul x c) s) (finv c)) (finv s)) x.
Proof. unfold feq, fmul, finv; cbn [num den]; ring. Qed.

End InflationRoundTrip.

Section InflationRoundTripClaim.
Import Inflation.

Lemma shift_back_nonzero (T : Toolkit) (laws : ToolkitLaws T)
      (x : carrier T) :
  x <> tzero T -> shift_back T x <> tzero T.
Proof. intros Hx H; apply Hx; now apply (tk_shift_nonzero T laws). Qed.

(** X8: Inflating by c and then by 1/c gives back a and b, as rational
    functions, for every nonzero c. *)
Theorem inflate_round_trip (T : Toolkit) (laws : ToolkitLaws T)
        (p : PCF T) (c : frac T) :
  den (a p) <> tzero T -> den (b p) <> tzero T ->
  num c <> tzero T -> den c <> tzero T ->
  feq (a (inflate (inflate p c) (finv c))) (a p) /\
  feq (b (inflate (inflate p c) (finv c))) (b p).
Proof.
  intros Ha Hb Hn Hd.
  pose proof (shift_back_nonzero T laws _ Hn) as Hsn.
  pose proof (shift_back_nonzero T laws _ Hd) as Hsd.
  unfold inflate, mkPCF; cbn [a b]; split.
  - apply (feq_trans T laws _ (fmul (fmul (a p) c) (finv c))).
    + repeat apply (fmul_den_nonzero T laws); assumption.
    + apply (canon_fmul_canon T laws);
        [now apply (fmul_den_nonzero T laws) | assumption].
    + apply fmul_finv_feq; exact laws.
  - set (X := fmul (fmul (b p) c) (fsubs_back c)).
    assert (HX : den X <> tzero T)
      by (repeat apply (fmul_den_nonzero T laws); assumption).
    pose proof (canon_den_nonzero T laws X HX) as HX'.
    apply (feq_trans T laws _
             (fmul (fmul (canon X) (finv c)) (fsubs_back (finv c)))).
    + repeat apply (fmul_den_nonzero T laws); assumption.
    + apply (canon_feq T laws).
      repeat apply (fmul_den_nonzero T laws); assumption.
    + apply (feq_trans T laws _
               (fmul (fmul X (finv c)) (fsubs_back (finv c)))).
      * repeat apply (fmul_den_nonzero T laws); assumption.
      * do 2 apply (fmul_feq T laws); now apply (canon_feq T laws).
      * apply (fmul2_finv_feq T laws (b p) c (fsubs_back c)).
Qed.

Lemma inflate_round_trip_witness :
  feq (a (inflate (inflate pcf_half half) (finv half))) (a pcf_half) /\
  feq (b (inflate (inflate pcf_half half) (finv half))) (b pcf_half).
Proof.
  apply (inflate_round_trip ZToolkit ZToolkit_laws pcf_half half);
    vm_compute; discriminate.
Defined.

End InflationRoundTripClaim.

(** ** Viability and the step matrix *)
Section ViableStep.
Import Poly Recurrence StepAlgebra.
Local Open Scope Z_scope.

(** X14: A polynomial PCF shifted by [shift_to_viable] never terminates: at
    every depth the cross term of its step matrix is nonzero, that is,
    consecutive convergents differ and [precision] does not take the
    branch of the sentinel 100. *)
Theorem shift_to_viable_never_terminates (a b : poly) (depth : Z)
        (m : mat2) :
  Viability.is_zero_poly b = false ->
  let q := fst (Viability.shift_to_viable
                  {| Viability.a_num := a; Viability.a_den := [1];
                     Viability.b_num := b; Viability.b_den := [1] |}) in
  step (polyPCF (Viability.a_num q) (Viability.b_num q)) depth None = Ok m ->
  cross_term m <> 0.
Proof.
  intros Hb q Hstep Hc.
  apply (cross_term_zero_iff _ _ _ Hstep) in Hc as (k & Hk & H0).
  cbn [b_compute polyPCF] in H0.
  assert (Hv : Viability.viable q).
  { subst q; cbn [Viability.shift_to_viable fst].
    apply shift_to_viable_viable; cbn; first [reflexivity | exact Hb]. }
  destruct Hv as [_ Hv]; destruct (Hv k ltac:(lia)) as [_ Hv'].
  now apply Hv'.
Qed.

Lemma shift_to_viable_never_terminates_witness :
  Viability.is_zero_poly [-1; 1] = false /\
  cross_term (Mat 4 10 3 6) <> 0.
Proof.
  split; [reflexivity|].
  apply (shift_to_viable_never_terminates [1] [-1; 1] 3 (Mat 4 10 3 6));
    reflexivity.
Defined.

End ViableStep.

(** ** The constructor clears the denominators *)
Section InitPolynomial.
Import Inflation.

Variable T : Toolkit.
Hypothesis laws : ToolkitLaws T.

(** The normalising unit of a unit is its inverse. *)
Hypothesis unit_inverse :
  forall t, divides T t (tone T) -> tmul T t (unit_of T t) = tone T.

Add Ring toolkit_ring6 : (tk_ring T laws).

Local Notation "0" := (tzero T).
Local Notation "1" := (tone T).
Local Infix "*" := (tmul T).

Lemma canon_of_poly (L : carrier T) : canon (of_poly L) = of_poly L.
Proof.
  unfold canon, of_poly; cbn [num den].
  assert (Hg : gcd T L 1 = 1)
    by (apply (tk_gcd_unit T laws), (tk_gcd_r T laws)).
  rewrite Hg, !(quo_one T laws), (tk_unit_one T laws).
  f_equal; ring.
Qed.

Lemma lcm_multiple (x y : carrier T) :
  y <> 0 -> divides T x (lcm T x y) /\ divides T y (lcm T x y).
Proof.
  intro Hy.
  pose proof (gcd_nonzero_r T laws x y Hy) as Hg.
  pose proof (quo_divides T laws _ _ Hg (tk_gcd_l T laws x y)) as Hx.
  pose proof (quo_divides T laws _ _ Hg (tk_gcd_r T laws x y)) as Hq.
  set (g := gcd T x y) in *.
  set (x' := quo T x g) in *; set (y' := quo T y g) in *.
  assert (Hm : quo T (x * y) g = x' * y).
  { rewrite <- (tk_quo T laws (x' * y) g Hg); f_equal.
    rewrite <- Hx at 1; ring. }
  unfold lcm; fold g; rewrite Hm.
  set (u := unit_of T (x' * y)); split.
  - exists (y' * u).
    transitivity (x' * (y' * g) * u); [now rewrite Hq|].
    transitivity (y' * u * (x' * g)); [ring | now rewrite Hx].
  - exists (x' * u); ring.
Qed.

(** A fraction whose denominator divides its numerator cancels to a
    polynomial. *)
Lemma canon_den_one (x : frac T) :
  den x <> 0 -> divides T (den x) (num x) -> den (canon x) = 1.
Proof.
  intros Hd Hdiv.
  pose proof (gcd_nonzero_r T laws (num x) (den x) Hd) as Hg.
  pose proof (quo_divides T laws _ _ Hg (tk_gcd_r T laws (num x) (den x)))
    as Hq.
  assert (Hdg : divides T (den x) (gcd T (num x) (den x))).
  { apply (tk_gcd_greatest T laws); [exact Hdiv | exists 1; ring]. }
  unfold canon; cbn [den].
  set (g := gcd T (num x) (den x)) in *.
  set (t := quo T (den x) g) in *.
  apply unit_inverse.
  apply (divides_cancel_unit T laws t g Hg).
  rewrite Hq; exact Hdg.
Qed.

(** The denominator of [x] divides [num x * L] as soon as the cancelled
    denominator divides [L]. *)
Lemma den_divides_scaled (x : frac T) (L : carrier T) :
  den x <> 0 -> divides T (den (canon x)) L ->
  divides T (den x) (num x * L).
Proof.
  intros Hd [k Hk].
  pose proof (gcd_nonzero_r T laws (num x) (den x) Hd) as Hg.
  pose proof (quo_divides T laws _ _ Hg (tk_gcd_l T laws (num x) (den x)))
    as Hn.
  pose proof (quo_divides T laws _ _ Hg (tk_gcd_r T laws (num x) (den x)))
    as Hq.
  unfold canon in Hk; cbn [den] in Hk.
  set (g := gcd T (num x) (den x)) in *.
  set (n' := quo T (num x) g) in *; set (d' := quo T (den x) g) in *.
  set (u := unit_of T d') in *.
  exists (n' * k * u); rewrite Hk.
  transitivity (n' * g * (k * (d' * u))); [now rewrite Hn|].
  transitivity (n' * k * u * (d' * g)); [ring | now rewrite Hq].
Qed.

(** X9: PCF.__init__ clears the denominators: for any rational a, b the
    multiplier inflate_to_integer_polynomials is a polynomial, and
    a_compute and b_compute are polynomials, equal as rational functions
    to a * m and b * m * m(n - 1), m the multiplier. *)
Theorem init_compute_polynomials (a0 b0 : frac T) (ib : option (frac T)) :
  den a0 <> 0 -> den b0 <> 0 ->
  let p := mkPCF a0 b0 ib in
  let m := inflate_to_integer_polynomials p in
  den m = 1 /\
  den (a_compute p) = 1 /\ den (b_compute p) = 1 /\
  feq (a_compute p) (fmul a0 m) /\
  feq (b_compute p) (fmul (fmul b0 m) (fsubs_back m)).
Proof.
  intros Ha Hb p m; subst p m.
  unfold mkPCF; cbn [inflate_to_integer_polynomials a_compute b_compute].
  rewrite canon_of_poly.
  set (L := lcm T (den (canon a0)) (den (canon b0))).
  destruct (lcm_multiple (den (canon a0)) (den (canon b0))
              (canon_den_nonzero T laws b0 Hb)) as [HLa HLb]; fold L in HLa, HLb.
  pose proof (den_divides_scaled a0 L Ha HLa) as [ka Hka].
  pose proof (den_divides_scaled b0 L Hb HLb) as [kb Hkb].
  assert (Hda : den (fmul a0 (of_poly L)) <> 0).
  { apply (fmul_den_nonzero T laws); [exact Ha | apply of_poly_den_nonzero; exact laws]. }
  assert (Hdb : den (fmul (fmul b0 (of_poly L)) (fsubs_back (of_poly L))) <> 0).
  { cbn [fmul fsubs_back of_poly num den].
    rewrite (tk_shift_one T laws).
    replace (den b0 * 1 * 1) with (den b0) by ring; exact Hb. }
  split; [reflexivity|]; split; [|split; [|split]].
  - apply canon_den_one; [exact Hda|].
    cbn [fmul of_poly num den]; exists ka; rewrite Hka; ring.
  - apply canon_den_one; [exact Hdb|].
    cbn [fmul fsubs_back of_poly num den]; rewrite (tk_shift_one T laws).
    exists (kb * shift_back T L); rewrite Hkb; ring.
  - apply (canon_feq T laws); exact Hda.
  - apply (canon_feq T laws); exact Hdb.
Qed.

End InitPolynomial.

Section InitPolynomialWitness.
Import Inflation.
Local Open Scope Z_scope.

Lemma ZToolkit_unit_inverse (t : carrier ZToolkit) :
  divides ZToolkit t (tone ZToolkit) ->
  tmul ZToolkit t (unit_of ZToolkit t) = tone ZToolkit.
Proof.
  intros [k Hk]; cbn in *.
  symmetry in Hk; rewrite Z.mul_comm in Hk.
  destruct (Z.mul_eq_1 _ _ Hk) as [-> | ->]; reflexivity.
Qed.

Lemma init_compute_polynomials_witness :
  den (a_compute (mkPCF half (finv three) None)) = 1 /\
  den (b_compute (mkPCF half (finv three) None)) = 1.
Proof.
  pose proof (init_compute_polynomials ZToolkit ZToolkit_laws
                ZToolkit_unit_inverse half (finv three) None
                ltac:(vm_compute; discriminate)
                ltac:(vm_compute; discriminate)) as H.
  cbv zeta in H; destruct H as (_ & H1 & H2 & _).
  split; assumption.
Defined.

End InitPolynomialWitness.

